(** * Depth-optimal graph-state synthesis: a shallow embedding

    The development follows the Python sources
      - [utils.py]
      - [synthesis/synthesis_result.py]
      - [synthesis/edge_colouring_graph_state_depth_optimal_synthesis.py]
      - [synthesis/sat_solvers_synthesis.py]
      - [map_stabilizer_circuit_to_graph_state_circuit.py]
      - [clifford_synthesis.py]
    Python integers are [Z], loop indices produced by [range] are [nat],
    Python exceptions are the [Raise] outcome of the monad [M], insertion
    ordered dictionaries are association lists, and the z3 solver is an
    oracle [check] taken as a parameter.

    The file has the embedding first, then the vocabulary of the
    statements, then the lemmas and the properties of the program with the
    inputs they are tried on, and last further properties of the searches,
    of the names of circuits and of the code around the two entry points. *)

From Stdlib Require Import String Ascii DecimalString.
From Stdlib Require Import List ZArith Lia Bool Arith.
From Stdlib Require Import Permutation Sorting.Sorted.
From Stdlib Require DecimalPos.
Import ListNotations.

Set Implicit Arguments.

(** ** Outcomes of Python code *)

(** [CircuitError] is the exception of qiskit's circuit methods. *)
Inductive exn := IndexError | KeyError | AttributeError | CircuitError.

(** [OutOfFuel] is only produced by the [while] loop of the binary search,
    which the model runs with a bound on its number of iterations. *)
Inductive M (A : Type) : Type :=
| Ok (a : A)
| Raise (e : exn)
| OutOfFuel.

Arguments Ok {A} a.
Arguments Raise {A} e.
Arguments OutOfFuel {A}.

Definition bind {A B} (c : M A) (k : A -> M B) : M B :=
  match c with
  | Ok a => k a
  | Raise e => Raise e
  | OutOfFuel => OutOfFuel
  end.

Notation "x <- c ;; k" := (bind c (fun x => k))
  (at level 61, c at next level, right associativity).
Notation "' p <- c ;; k" := (bind c (fun x => match x with p => k end))
  (at level 61, p pattern, c at next level, right associativity).

(** [for x in l: body], every iteration contributing a list of outputs. *)
Fixpoint for_each {A B} (l : list A) (body : A -> M (list B)) : M (list B) :=
  match l with
  | [] => Ok []
  | a :: l' => x <- body a ;; xs <- for_each l' body ;; Ok (x ++ xs)
  end.

(** [for i in range(n): body] *)
Definition for_range {B} (n : nat) (body : nat -> M (list B)) : M (list B) :=
  for_each (seq 0 n) body.

(** [l[i]] for an index that is not negative *)
Definition item {A} (l : list A) (i : nat) : M A :=
  match nth_error l i with
  | Some a => Ok a
  | None => Raise IndexError
  end.

(** [l[i]] for any integer index: a negative index counts from the end *)
Definition getitem {A} (l : list A) (i : Z) : M A :=
  if (i <? 0)%Z then
    if (i + Z.of_nat (length l) <? 0)%Z then Raise IndexError
    else item l (Z.to_nat (i + Z.of_nat (length l)))
  else item l (Z.to_nat i).

(** [range(lo, hi)] over integers *)
Definition py_range (lo hi : Z) : list Z :=
  map (fun k => (lo + Z.of_nat k)%Z) (seq 0 (Z.to_nat (hi - lo))).

(** [l[lo:hi]] for [0 <= lo <= hi] *)
Definition slice {A} (l : list A) (lo hi : nat) : list A :=
  firstn (hi - lo) (skipn lo l).

Definition matrix := list (list Z).

(** [adjacency_matrix[i][j]] *)
Definition cell (adjacency_matrix : matrix) (i j : nat) : M Z :=
  row <- item adjacency_matrix i ;; item row j.

(** ** Circuits: the part of qiskit's [QuantumCircuit] the code touches *)

Record instruction := { operation : string; qubits : list nat }.

Record QuantumCircuit := {
  num_qubits : nat;
  name : string;
  data : list instruction
}.

Definition h_gate (q : nat) : instruction :=
  {| operation := "h"%string; qubits := [q] |}.
Definition cz_gate (a b : nat) : instruction :=
  {| operation := "cz"%string; qubits := [a; b] |}.

(** qiskit checks the qubits a gate is applied to before it appends the
    gate: an index that is not below the number of qubits, the same qubit
    given twice to one gate, and an empty list of qubits are refused with
    [CircuitError]. *)

(** [circuit.h(range(n))] appends one Hadamard per qubit, in order. *)
Definition circuit_h_range (c : QuantumCircuit) (n : nat) : M QuantumCircuit :=
  if (0 <? n) && (n <=? num_qubits c) then
    Ok {| num_qubits := num_qubits c; name := name c;
          data := data c ++ map h_gate (seq 0 n) |}
  else Raise CircuitError.

(** [circuit.cz(a, b)] *)
Definition circuit_cz (c : QuantumCircuit) (a b : nat) : M QuantumCircuit :=
  if (a <? num_qubits c) && (b <? num_qubits c) && negb (a =? b) then
    Ok {| num_qubits := num_qubits c; name := name c;
          data := data c ++ [cz_gate a b] |}
  else Raise CircuitError.

(** ** utils.py *)

Definition count_single_qubit_gates (circuit : QuantumCircuit) : Z :=
  fold_left (fun single_qubit_gates ins =>
               if length (qubits ins) =? 1 then (single_qubit_gates + 1)%Z
               else single_qubit_gates) (data circuit) 0%Z.

Definition count_two_qubit_gates (circuit : QuantumCircuit) : Z :=
  fold_left (fun two_qubit_gates ins =>
               if length (qubits ins) =? 2 then (two_qubit_gates + 1)%Z
               else two_qubit_gates) (data circuit) 0%Z.

Definition is_digit (c : ascii) : bool :=
  (48 <=? nat_of_ascii c) && (nat_of_ascii c <=? 57).

(** [re.findall(r'\d+', s)]: the maximal runs of digits, left to right.
    [run] is the run being read, most recent digit first.  Strings are
    sequences of bytes here, and the digits are the ASCII ones. *)
Definition close_run (run : list ascii) : list (list ascii) :=
  match run with [] => [] | _ => [rev run] end.

Fixpoint findall_digits (s : string) (run : list ascii) : list (list ascii) :=
  match s with
  | EmptyString => close_run run
  | String c s' =>
      if is_digit c then findall_digits s' (c :: run)
      else close_run run ++ findall_digits s' []
  end.

(** [int(match)] for a run of digits *)
Definition int_of_digits (ds : list ascii) : Z :=
  fold_left (fun acc c => (10 * acc + Z.of_nat (nat_of_ascii c - 48))%Z) ds 0%Z.

(** [int(len(numbers) ** 0.5)]: the floating point square root is taken to
    be exact, which it is for every length a list can have in practice. *)
Definition extract_adjacency_matrix (circuit_name : string) : matrix :=
  let matches := findall_digits circuit_name [] in
  let numbers := map int_of_digits matches in
  let n := Nat.sqrt (length numbers) in
  map (fun i => slice numbers (i * n) ((i + 1) * n)) (seq 0 n).

(** [str] of integers, lists and nested lists *)
Definition str_int (z : Z) : string := NilZero.string_of_int (Z.to_int z).

Fixpoint join (sep : string) (l : list string) : string :=
  match l with
  | [] => EmptyString
  | [x] => x
  | x :: l' => (x ++ sep ++ join sep l')%string
  end.

Definition str_list {A} (str : A -> string) (l : list A) : string :=
  ("[" ++ join ", " (map str l) ++ "]")%string.

Definition str_matrix (adjacency_matrix : matrix) : string :=
  str_list (str_list str_int) adjacency_matrix.

(** ** The solver interface (z3)

    Every integer variable the encoders declare is named after a pair of
    nodes: [Int('edge_i_j')] in the edge colouring encoder and
    [Int('CZ_i_j')] in the scheduling encoder are [GateVar i j], and
    [Int('I_i_j')] is [IdVar i j]. *)

Inductive var :=
| GateVar (i j : nat)
| IdVar (i j : nat).

(** The five shapes of assertion passed to [s.add]. *)
Inductive constr :=
| Ge0 (v : var)               (* v >= 0 *)
| LtDepth (v : var) (depth : Z) (* v < depth *)
| Neq (v w : var)             (* v != w *)
| EqColor (v : var) (color : Z) (* v == color *)
| Lt (v w : var).             (* v < w *)

(** A model gives every variable an integer ([model[var].as_long()]). *)
Definition model := var -> Z.

Definition holdsb (m : model) (c : constr) : bool :=
  match c with
  | Ge0 v => (0 <=? m v)%Z
  | LtDepth v depth => (m v <? depth)%Z
  | Neq v w => negb (m v =? m w)%Z
  | EqColor v color => (m v =? color)%Z
  | Lt v w => (m v <? m w)%Z
  end.

Definition satisfies (m : model) (cs : list constr) : Prop :=
  forallb (holdsb m) cs = true.

(** [s.check()] followed by [s.model()]: [Some m] for [sat], [None]
    otherwise.  The solver is taken to be a function of the assertions; no
    search asks it twice about the same depth. *)
Definition solver := list constr -> option model.

(** The contract of the solver on an instance: a returned model satisfies
    the assertions, and no model is returned only if there is none. *)
Definition solver_answer_ok (check : solver) (cs : list constr) : Prop :=
  match check cs with
  | Some m => satisfies m cs
  | None => forall m, ~ satisfies m cs
  end.

(** ** Dictionaries keyed by pairs of nodes *)

Definition key := (nat * nat)%type.

Definition key_eqb (a b : key) : bool :=
  (fst a =? fst b) && (snd a =? snd b).

(** [d[(i, j)]] for a dictionary of solver variables whose keys are [keys];
    [mk] names the variable the dictionary holds for a key. *)
Definition lookup_var (mk : nat -> nat -> var) (keys : list key) (k : key)
  : M var :=
  if existsb (key_eqb k) keys then Ok (mk (fst k) (snd k)) else Raise KeyError.

(** The layer-to-edges dictionary [result], in insertion order. *)
Definition mapping := list (Z * list key).

(** [if color not in result: result[color] = []] then
    [result[color].append((i, j))] *)
Fixpoint result_append (result : mapping) (color : Z) (e : key) : mapping :=
  match result with
  | [] => [(color, [e])]
  | (c, es) :: rest =>
      if (c =? color)%Z then (c, es ++ [e]) :: rest
      else (c, es) :: result_append rest color e
  end.

(** The loop over [edge_color.items()] (resp. [cz_gates.items()]) *)
Definition read_model (m : model) (keys : list key) : mapping :=
  fold_left (fun result e => result_append result (m (GateVar (fst e) (snd e))) e)
            keys [].

(** What the three phases of an encoder leave behind: the keys of the gate
    dictionary in insertion order and the assertions of the solver. *)
Record instance := { gate_keys : list key; assertions : list constr }.

(** The tail of both [_synthesis] functions. *)
Definition solve (check : solver) (inst : instance) : mapping :=
  match check (assertions inst) with
  | Some m => read_model m (gate_keys inst)
  | None => []
  end.

(** ** edge_colouring_graph_state_depth_optimal_synthesis.py *)

Module edge_colouring.

(** First loop nest of [_synthesis]: the keys entered in [edge_color]. *)
Definition declare_keys (adjacency_matrix : matrix) : M (list key) :=
  let n := length adjacency_matrix in
  for_range n (fun i =>
    for_range i (fun j =>
      a <- cell adjacency_matrix i j ;;
      if (a =? 1)%Z then Ok [(i, j)] else Ok [])).

(** The assertions added with each declared variable. *)
Definition declare_bounds (depth : Z) (edge_color : list key) : list constr :=
  flat_map (fun e => [Ge0 (GateVar (fst e) (snd e));
                      LtDepth (GateVar (fst e) (snd e)) depth]) edge_color.

(** Second loop nest: adjacent edges get different colours. *)
Definition conflicts (adjacency_matrix : matrix) (edge_color : list key)
  : M (list constr) :=
  let n := length adjacency_matrix in
  let ec := lookup_var GateVar edge_color in
  for_range n (fun i =>
    for_range i (fun j =>
      a <- cell adjacency_matrix i j ;;
      if (a =? 1)%Z then
        c1 <- for_range j (fun k =>
                a_ik <- cell adjacency_matrix i k ;;
                if (a_ik =? 1)%Z then
                  if k <? i then
                    x <- ec (i, j) ;; y <- ec (i, k) ;; Ok [Neq x y]
                  else
                    x <- ec (i, j) ;; y <- ec (k, i) ;; Ok [Neq x y]
                else Ok []) ;;
        c2 <- for_range i (fun k =>
                a_kj <- cell adjacency_matrix k j ;;
                if (a_kj =? 1)%Z then
                  if k <? j then
                    x <- ec (i, j) ;; y <- ec (j, k) ;; Ok [Neq x y]
                  else
                    x <- ec (i, j) ;; y <- ec (k, j) ;; Ok [Neq x y]
                else Ok []) ;;
        Ok (c1 ++ c2)
      else Ok [])).

(** [sum(row)] *)
Definition sum (row : list Z) : Z := fold_left Z.add row 0%Z.

(** The search for "the biggest cluster": state [(max_ones,
    row_index_with_max_ones)], rows visited with their index. *)
Fixpoint biggest_cluster (rows : list (list Z)) (i : Z) (st : Z * Z) : Z * Z :=
  match rows with
  | [] => st
  | row :: rows' =>
      let count_ones := sum row in
      biggest_cluster rows' (i + 1)%Z
        (if (fst st <? count_ones)%Z then (count_ones, i) else st)
  end.

(** The loop fixing the colours around the chosen row: state [color],
    entries visited with their index [i].  No key of [edge_color] has a
    negative component, so a negative row index can only miss. *)
Fixpoint fix_colors (edge_color : list key) (r : Z) (row : list Z) (i : nat)
         (color : Z) : M (list constr) :=
  match row with
  | [] => Ok []
  | value :: row' =>
      if negb (value =? 1)%Z then fix_colors edge_color r row' (S i) color
      else
        x <- (if (Z.of_nat i <? r)%Z
              then lookup_var GateVar edge_color (Z.to_nat r, i)
              else if (r <? 0)%Z then Raise KeyError
              else lookup_var GateVar edge_color (i, Z.to_nat r)) ;;
        cs <- fix_colors edge_color r row' (S i) (color + 1)%Z ;;
        Ok (EqColor x color :: cs)
  end.

Definition symmetry_breaking (adjacency_matrix : matrix) (edge_color : list key)
  : M (list constr) :=
  let row_index_with_max_ones :=
    snd (biggest_cluster adjacency_matrix 0%Z (-1, -1)%Z) in
  row <- getitem adjacency_matrix row_index_with_max_ones ;;
  fix_colors edge_color row_index_with_max_ones row 0 0%Z.

(** Everything [_synthesis] does before [s.check()]. *)
Definition encode (adjacency_matrix : matrix) (depth : Z)
           (use_symmetry_breaking : bool) : M instance :=
  edge_color <- declare_keys adjacency_matrix ;;
  c <- conflicts adjacency_matrix edge_color ;;
  sb <- (if use_symmetry_breaking
         then symmetry_breaking adjacency_matrix edge_color else Ok []) ;;
  Ok {| gate_keys := edge_color;
        assertions := declare_bounds depth edge_color ++ c ++ sb |}.

(** [_max_outgoing_connections]: for every row [i] the entries equal to 1
    among the columns [range(i + 1)]. *)
Definition _max_outgoing_connections (adjacency_matrix : matrix) : M Z :=
  let n := length adjacency_matrix in
  fold_left (fun acc i =>
    max_outgoing_connections <- acc ;;
    temp_connections <-
      fold_left (fun acc' j =>
        temp <- acc' ;;
        a <- cell adjacency_matrix i j ;;
        if (a =? 1)%Z then Ok (temp + 1)%Z else Ok temp)
        (seq 0 (i + 1)) (Ok 0%Z) ;;
    Ok (Z.max max_outgoing_connections temp_connections))
    (seq 0 n) (Ok (-1)%Z).

End edge_colouring.

(** ** sat_solvers_synthesis.py *)

Module sat_solver.

(** First loop nest of [_synthesis]: the variables declared, in order; a
    [GateVar] is entered in [cz_gates], an [IdVar] in [identities]. *)
Definition declare_vars (adjacency_matrix : matrix) : M (list var) :=
  let n := length adjacency_matrix in
  for_range n (fun i =>
    for_range i (fun j =>
      a <- cell adjacency_matrix i j ;;
      if (a =? 1)%Z then Ok [GateVar i j] else Ok [IdVar i j])).

Definition cz_gates_of (declared : list var) : list key :=
  flat_map (fun v => match v with GateVar i j => [(i, j)] | IdVar _ _ => [] end)
           declared.

Definition identities_of (declared : list var) : list key :=
  flat_map (fun v => match v with IdVar i j => [(i, j)] | GateVar _ _ => [] end)
           declared.

(** The assertions added with each declared variable. *)
Definition declare_bounds (depth : Z) (declared : list var) : list constr :=
  flat_map (fun v => match v with
                     | GateVar _ _ => [Ge0 v; LtDepth v depth]
                     | IdVar _ _ => [Ge0 v]
                     end) declared.

(** Second loop nest: no two gates on one qubit at the same time. *)
Definition conflicts (adjacency_matrix : matrix) (cz_gates identities : list key)
  : M (list constr) :=
  let n := length adjacency_matrix in
  let cz := lookup_var GateVar cz_gates in
  let idn := lookup_var IdVar identities in
  for_range n (fun i =>
    for_range i (fun j =>
      a <- cell adjacency_matrix i j ;;
      if (a =? 1)%Z then
        c1 <- for_range j (fun k =>
                a_ik <- cell adjacency_matrix i k ;;
                if (a_ik =? 1)%Z then
                  x <- cz (i, j) ;; y <- cz (i, k) ;; Ok [Neq x y]
                else
                  x <- cz (i, j) ;; y <- idn (i, k) ;; Ok [Neq x y]) ;;
        c2 <- for_range i (fun k =>
                if k =? j then Ok []
                else
                  a_jk <- cell adjacency_matrix j k ;;
                  if (a_jk =? 1)%Z then
                    if k <? j then
                      x <- cz (i, j) ;; y <- cz (j, k) ;; Ok [Neq x y]
                    else
                      x <- cz (i, j) ;; y <- cz (k, j) ;; Ok [Neq x y]
                  else
                    if k <? j then
                      x <- cz (i, j) ;; y <- idn (j, k) ;; Ok [Neq x y]
                    else
                      x <- cz (i, j) ;; y <- idn (k, j) ;; Ok [Neq x y]) ;;
        Ok (c1 ++ c2)
      else Ok [])).

(** Third loop nest, under [use_symmetry_breaking]. *)
Definition symmetry_breaking (adjacency_matrix : matrix)
           (cz_gates identities : list key) : M (list constr) :=
  let n := length adjacency_matrix in
  let cz := lookup_var GateVar cz_gates in
  let idn := lookup_var IdVar identities in
  for_range n (fun i =>
    for_range i (fun j =>
      a <- cell adjacency_matrix i j ;;
      if (a =? 1)%Z then
        c1 <- for_range j (fun k =>
                a_ik <- cell adjacency_matrix i k ;;
                if negb (a_ik =? 1)%Z then
                  x <- cz (i, j) ;; y <- idn (i, k) ;; Ok [Lt x y]
                else Ok []) ;;
        c2 <- for_range i (fun k =>
                if k =? j then Ok []
                else
                  a_jk <- cell adjacency_matrix j k ;;
                  if negb (a_jk =? 1)%Z then
                    if k <? j then
                      x <- cz (i, j) ;; y <- idn (j, k) ;; Ok [Lt x y]
                    else
                      x <- cz (i, j) ;; y <- idn (k, j) ;; Ok [Lt x y]
                  else Ok []) ;;
        Ok (c1 ++ c2)
      else Ok [])).

(** Everything [_synthesis] does before [s.check()]. *)
Definition encode (adjacency_matrix : matrix) (depth : Z)
           (use_symmetry_breaking : bool) : M instance :=
  declared <- declare_vars adjacency_matrix ;;
  let cz_gates := cz_gates_of declared in
  let identities := identities_of declared in
  c <- conflicts adjacency_matrix cz_gates identities ;;
  sb <- (if use_symmetry_breaking
         then symmetry_breaking adjacency_matrix cz_gates identities
         else Ok []) ;;
  Ok {| gate_keys := cz_gates;
        assertions := declare_bounds depth declared ++ c ++ sb |}.

End sat_solver.

(** ** What the two modules share

    [_synthesis], [_linear_search], [_binary_search], the materializer and
    the entry point are the same text in both files except for the encoder
    and the first depth tried; they are modelled once, indexed by the
    module. *)

Inductive strategy := EdgeColouring | DirectScheduling.

Definition encode (s : strategy) : matrix -> Z -> bool -> M instance :=
  match s with
  | EdgeColouring => edge_colouring.encode
  | DirectScheduling => sat_solver.encode
  end.

(** [minimum_depth] / [left_bound_depth] *)
Definition minimum_depth (s : strategy) (adjacency_matrix : matrix) : M Z :=
  match s with
  | EdgeColouring => edge_colouring._max_outgoing_connections adjacency_matrix
  | DirectScheduling => Ok 0%Z
  end.

Definition _synthesis (s : strategy) (check : solver)
           (adjacency_matrix : matrix) (depth : Z)
           (use_symmetry_breaking : bool) : M mapping :=
  inst <- encode s adjacency_matrix depth use_symmetry_breaking ;;
  Ok (solve check inst).

(** Truth value of a dictionary *)
Definition truthy (d : mapping) : bool :=
  match d with [] => false | _ => true end.

(** [depth_optimal_mapping] is the list [[]] until linear search assigns a
    dictionary to it. *)
Inductive list_or_dict := EmptyList | Dict (d : mapping).

(** ** The materializer *)

(** [for edge in edges: circuit.cz(edge[0], edge[1])] *)
Fixpoint apply_edges (circuit : QuantumCircuit) (edges : list key)
  : M QuantumCircuit :=
  match edges with
  | [] => Ok circuit
  | edge :: rest =>
      circuit <- circuit_cz circuit (fst edge) (snd edge) ;;
      apply_edges circuit rest
  end.

(** [for _, edges in depth_optimal_mapping.items(): ...] *)
Fixpoint apply_layers (circuit : QuantumCircuit) (d : mapping)
  : M QuantumCircuit :=
  match d with
  | [] => Ok circuit
  | layer :: rest =>
      circuit <- apply_edges circuit (snd layer) ;;
      apply_layers circuit rest
  end.

Definition _map_synthesis_depth_optimal_mapping_to_qcircuit
           (depth_optimal_mapping : list_or_dict) (adjacency_matrix : matrix)
  : M QuantumCircuit :=
  let num_qubits := length adjacency_matrix in
  let depth_optimal_circuit :=
    {| num_qubits := num_qubits;
       name := ("Depth optimal circuit of Graphstate g: "
                  ++ str_matrix adjacency_matrix)%string;
       data := [] |} in
  depth_optimal_circuit <-
    circuit_h_range depth_optimal_circuit num_qubits ;;
  match depth_optimal_mapping with
  | EmptyList => Raise AttributeError   (* a list has no [items] *)
  | Dict d => apply_layers depth_optimal_circuit d
  end.

(** ** Depth search

    Besides the variables of the Python code the loops carry [probed], the
    depths passed to [_synthesis] so far, oldest first.  It is not read by
    the code and only serves to state what the search tries. *)

Record linear_state := {
  l_mapping : list_or_dict;      (* depth_optimal_mapping *)
  l_depth : Z;                   (* depth *)
  l_solver_calls : Z;            (* solver_calls *)
  l_probed : list Z
}.

Section Search.

Variable s : strategy.
Variable check : solver.
Variable adjacency_matrix : matrix.
Variable use_symmetry_breaking : bool.

(** [for depth in range(minimum_depth, maximum_depth + 1): ...] *)
Fixpoint linear_loop (depths : list Z) (st : linear_state) : M linear_state :=
  match depths with
  | [] => Ok st
  | depth :: rest =>
      mapping <- _synthesis s check adjacency_matrix depth
                   use_symmetry_breaking ;;
      let solver_calls := (l_solver_calls st + 1)%Z in
      let probed := l_probed st ++ [depth] in
      if truthy mapping then
        Ok {| l_mapping := Dict mapping; l_depth := depth;
              l_solver_calls := solver_calls; l_probed := probed |}
      else
        linear_loop rest {| l_mapping := l_mapping st; l_depth := depth;
                            l_solver_calls := solver_calls;
                            l_probed := probed |}
  end.

(** [_linear_search] up to its [return] statement. *)
Definition linear_search_run : M linear_state :=
  minimum_depth <- minimum_depth s adjacency_matrix ;;
  let maximum_depth := Z.of_nat (length adjacency_matrix) in
  linear_loop (py_range minimum_depth (maximum_depth + 1))
              {| l_mapping := EmptyList; l_depth := 0%Z;
                 l_solver_calls := 0%Z; l_probed := [] |}.

Definition _linear_search : M (QuantumCircuit * Z * Z) :=
  st <- linear_search_run ;;
  circuit <- _map_synthesis_depth_optimal_mapping_to_qcircuit
               (l_mapping st) adjacency_matrix ;;
  Ok (circuit, l_depth st, l_solver_calls st).

(** [mappings_at_depth]: a dictionary from depths to mappings. *)
Definition cache := list (Z * mapping).

Fixpoint cache_get (c : cache) (depth : Z) : option mapping :=
  match c with
  | [] => None
  | (d, m) :: c' => if (d =? depth)%Z then Some m else cache_get c' depth
  end.

Fixpoint cache_set (c : cache) (depth : Z) (m : mapping) : cache :=
  match c with
  | [] => [(depth, m)]
  | (d, m') :: c' =>
      if (d =? depth)%Z then (d, m) :: c' else (d, m') :: cache_set c' depth m
  end.

(** [mappings_at_depth[depth]] *)
Definition cache_item (c : cache) (depth : Z) : M mapping :=
  match cache_get c depth with
  | Some m => Ok m
  | None => Raise KeyError
  end.

Record binary_state := {
  b_left : Z;                    (* left_bound_depth *)
  b_right : Z;                   (* right_bound_depth *)
  b_cache : cache;               (* mappings_at_depth *)
  b_mapping : mapping;           (* depth_optimal_mapping *)
  b_current : Z;                 (* current_depth *)
  b_solver_calls : Z;            (* solver_calls *)
  b_probed : list Z
}.

(** [if depth not in mappings_at_depth: mappings_at_depth[depth] =
    _synthesis(...); solver_calls += 1], guarded by [guard]. *)
Definition probe (guard : bool) (depth : Z) (st : cache * Z * list Z)
  : M (cache * Z * list Z) :=
  let '(c, solver_calls, probed) := st in
  if guard && match cache_get c depth with None => true | Some _ => false end
  then
    mapping <- _synthesis s check adjacency_matrix depth
                 use_symmetry_breaking ;;
    Ok (cache_set c depth mapping, (solver_calls + 1)%Z, probed ++ [depth])
  else Ok st.

(** [while not found_optimal_depth: ...], at most [fuel] iterations. *)
Fixpoint binary_loop (fuel : nat) (st : binary_state) : M binary_state :=
  match fuel with
  | O => OutOfFuel
  | S fuel' =>
      let left_bound_depth := b_left st in
      let right_bound_depth := b_right st in
      let current_depth := ((left_bound_depth + right_bound_depth) / 2)%Z in
      st1 <- probe true current_depth
               (b_cache st, b_solver_calls st, b_probed st) ;;
      ' (mappings_at_depth, solver_calls, probed) <-
        probe (negb (current_depth =? left_bound_depth)%Z)
              (current_depth - 1)%Z st1 ;;
      depth_optimal_mapping <- cache_item mappings_at_depth current_depth ;;
      let next l r :=
        {| b_left := l; b_right := r; b_cache := mappings_at_depth;
           b_mapping := depth_optimal_mapping; b_current := current_depth;
           b_solver_calls := solver_calls; b_probed := probed |} in
      if negb (truthy depth_optimal_mapping) then
        binary_loop fuel' (next (current_depth + 1)%Z right_bound_depth)
      else
        previous <- (if negb (current_depth =? left_bound_depth)%Z
                     then cache_item mappings_at_depth (current_depth - 1)%Z
                     else Ok []) ;;
        if negb (current_depth =? left_bound_depth)%Z && truthy previous then
          binary_loop fuel' (next left_bound_depth (current_depth - 1)%Z)
        else
          Ok (next left_bound_depth right_bound_depth)
  end.

(** [_binary_search] up to its [return] statement. *)
Definition binary_search_run (fuel : nat) : M binary_state :=
  left_bound_depth <- minimum_depth s adjacency_matrix ;;
  let right_bound_depth := Z.of_nat (length adjacency_matrix) in
  binary_loop fuel
    {| b_left := left_bound_depth; b_right := right_bound_depth;
       b_cache := []; b_mapping := []; b_current := 0%Z;
       b_solver_calls := 0%Z; b_probed := [] |}.

Definition _binary_search (fuel : nat) : M (QuantumCircuit * Z * Z) :=
  st <- binary_search_run fuel ;;
  circuit <- _map_synthesis_depth_optimal_mapping_to_qcircuit
               (Dict (b_mapping st)) adjacency_matrix ;;
  Ok (circuit, b_current st, b_solver_calls st).

End Search.

(** ** synthesis_result.py *)

Record SynthesisResults := {
  circuit : string;
  depth : Z;
  gates : Z;
  runtime : Z;
  single_qubit_gates : Z;
  solver_calls : Z;
  tableau : string;
  two_qubit_gates : Z;
  _is_sat : bool
}.

(** The constructor sets [_is_sat] to [True]; [sat] and [unsat] read it. *)
Definition sat (r : SynthesisResults) : bool := _is_sat r.
Definition unsat (r : SynthesisResults) : bool := negb (_is_sat r).

(** ** The entry points

    [draw] is qiskit's text rendering of a circuit; [start_time] and
    [end_time] are the two readings of the clock, in ticks; [fuel] bounds
    the iterations of the binary search. *)

Section Synthesize.

Variable draw : QuantumCircuit -> string.

Definition all_zero (adjacency_matrix : matrix) : bool :=
  forallb (fun row => forallb (fun cell => (cell =? 0)%Z) row) adjacency_matrix.

Definition synthesize (s : strategy) (check : solver) (fuel : nat)
           (start_time end_time : Z)
           (circuit : QuantumCircuit) (use_symmetry_breaking : bool)
           (use_linear_search : bool) : M (QuantumCircuit * SynthesisResults) :=
  let adjacency_matrix := extract_adjacency_matrix (name circuit) in
  if all_zero adjacency_matrix then
    let single_qubit_gates := count_single_qubit_gates circuit in
    let two_qubit_gates := count_two_qubit_gates circuit in
    Ok (circuit,
        {| circuit := draw circuit;
           depth := 0%Z;
           gates := (single_qubit_gates + two_qubit_gates)%Z;
           runtime := 0%Z;
           single_qubit_gates := single_qubit_gates;
           solver_calls := 0%Z;
           tableau := "Not available yet"%string;
           two_qubit_gates := two_qubit_gates;
           _is_sat := true |})
  else
    ' (depth_optimal_circuit, depth, solver_calls) <-
      (if use_linear_search
       then _linear_search s check adjacency_matrix use_symmetry_breaking
       else _binary_search s check adjacency_matrix use_symmetry_breaking fuel) ;;
    let runtime := (end_time - start_time)%Z in
    let single_qubit_gates := count_single_qubit_gates depth_optimal_circuit in
    let two_qubit_gates := count_two_qubit_gates depth_optimal_circuit in
    Ok (depth_optimal_circuit,
        {| circuit := draw depth_optimal_circuit;
           depth := depth;
           gates := (single_qubit_gates + two_qubit_gates)%Z;
           runtime := runtime;
           single_qubit_gates := single_qubit_gates;
           solver_calls := solver_calls;
           tableau := "Not available yet"%string;
           two_qubit_gates := two_qubit_gates;
           _is_sat := true |}).

Definition synthesize_graph_state_edge_colouring := synthesize EdgeColouring.
Definition synthesize_graph_state_sat_solver := synthesize DirectScheduling.

End Synthesize.

(** ** Lists of lists written by index *)

(** The list [l] after [l[i] = v], for an index inside the list. *)
Fixpoint update {A} (l : list A) (i : nat) (v : A) : list A :=
  match l, i with
  | [], _ => []
  | _ :: l', O => v :: l'
  | x :: l', S i' => x :: update l' i' v
  end.

(** [l[i] = v] for an index that is not negative *)
Definition setitem {A} (l : list A) (i : nat) (v : A) : M (list A) :=
  if i <? length l then Ok (update l i v) else Raise IndexError.

(** [m[a][b] = v]; the rows of the matrices written this way are built one
    by one by a comprehension, so no two of them are the same object. *)
Definition set_cell (m : matrix) (a b : nat) (v : Z) : M matrix :=
  row <- item m a ;;
  row' <- setitem row b v ;;
  Ok (update m a row').

(** ** The tableau of sat_solvers_synthesis.py

    [get_stabilizer_tableau_representation] asks qiskit for the
    stabilizers of the circuit and evaluates the list printed inside
    [StabilizerState(...)]; [stabilizers_of] stands for that part and gives
    the strings with their signs, such as [+XZ]. *)

(** [s[1:]] *)
Definition drop_sign (s : string) : string :=
  match s with
  | EmptyString => EmptyString
  | String _ s' => s'
  end.

(** The body of [for j, pauli in enumerate(stabilizer)], for row [i]. *)
Fixpoint mark_paulis (number_of_qubits i : nat) (stabilizer : list ascii)
         (j : nat) (tableau : matrix) : M matrix :=
  match stabilizer with
  | [] => Ok tableau
  | pauli :: rest =>
      tableau <-
        (if (pauli =? "X")%char then set_cell tableau i j 1%Z
         else if (pauli =? "Z")%char
              then set_cell tableau i (number_of_qubits + j) 1%Z
         else if (pauli =? "Y")%char
              then tableau <- set_cell tableau i j 1%Z ;;
                   set_cell tableau i (number_of_qubits + j) 1%Z
         else Ok tableau) ;;
      mark_paulis number_of_qubits i rest (S j) tableau
  end.

(** [for i, stabilizer in enumerate(stabilizers)] *)
Fixpoint mark_stabilizers (number_of_qubits : nat) (stabilizers : list string)
         (i : nat) (tableau : matrix) : M matrix :=
  match stabilizers with
  | [] => Ok tableau
  | stabilizer :: rest =>
      tableau <- mark_paulis number_of_qubits i
                   (list_ascii_of_string stabilizer) 0 tableau ;;
      mark_stabilizers number_of_qubits rest (S i) tableau
  end.

(** Everything after [ast.literal_eval]. *)
Definition tableau_of_stabilizers (stabilizers : list string) : M matrix :=
  let stabilizers := map drop_sign stabilizers in
  first <- item stabilizers 0 ;;
  let number_of_qubits := String.length first in
  let tableau :=
    repeat (repeat 0%Z (2 * number_of_qubits + 1)) number_of_qubits in
  mark_stabilizers number_of_qubits stabilizers 0 tableau.

Section Tableau.

Variable stabilizers_of : QuantumCircuit -> M (list string).

Definition get_stabilizer_tableau_representation (circuit : QuantumCircuit)
  : M matrix :=
  stabilizers <- stabilizers_of circuit ;;
  tableau_of_stabilizers stabilizers.

End Tableau.

(** ** map_stabilizer_circuit_to_graph_state_circuit.py

    An instruction of a stim circuit: its name and the qubits it acts on
    ([a.value] for every target [a]). *)

Record stim_instruction := {
  stim_name : string;
  stim_targets : list nat
}.

(** [zip(targets[::2], targets[1::2])] *)
Fixpoint target_pairs (targets : list nat) : list (nat * nat) :=
  match targets with
  | a :: b :: rest => (a, b) :: target_pairs rest
  | _ => []
  end.

(** [for a, b in zip(...): adjacency_matrix[a][b] = 1;
    adjacency_matrix[b][a] = 1] *)
Fixpoint connect (pairs : list (nat * nat)) (adjacency_matrix : matrix)
  : M matrix :=
  match pairs with
  | [] => Ok adjacency_matrix
  | (a, b) :: rest =>
      adjacency_matrix <- set_cell adjacency_matrix a b 1%Z ;;
      adjacency_matrix <- set_cell adjacency_matrix b a 1%Z ;;
      connect rest adjacency_matrix
  end.

(** The loop over the instructions of [g]; the state is
    [(adjacency_matrix, local_unitaries, reached_clifford_gates)]. *)
Fixpoint read_instructions (g : list stim_instruction)
         (st : matrix * list (nat * string) * Z)
  : M (matrix * list (nat * string) * Z) :=
  match g with
  | [] => Ok st
  | instruction :: rest =>
      let '(adjacency_matrix, local_unitaries, reached_clifford_gates) := st in
      st' <-
        (if (stim_name instruction =? "CZ")%string then
           adjacency_matrix <- connect (target_pairs (stim_targets instruction))
                                       adjacency_matrix ;;
           Ok (adjacency_matrix, local_unitaries, reached_clifford_gates)
         else if (stim_name instruction =? "TICK")%string then
           Ok (adjacency_matrix, local_unitaries,
               (reached_clifford_gates + 1)%Z)
         else if (reached_clifford_gates =? 2)%Z then
           Ok (adjacency_matrix,
               local_unitaries
                 ++ map (fun a => (a, stim_name instruction))
                        (stim_targets instruction),
               reached_clifford_gates)
         else Ok st) ;;
      read_instructions rest st'
  end.

(** [circuit.x(qubit)] and the like: one more single-qubit instruction,
    on a qubit of the circuit. *)
Definition circuit_gate (op : string) (c : QuantumCircuit) (q : nat)
  : M QuantumCircuit :=
  if q <? num_qubits c then
    Ok {| num_qubits := num_qubits c; name := name c;
          data := data c ++ [{| operation := op; qubits := [q] |}] |}
  else Raise CircuitError.

Fixpoint append_local_unitaries_to_circuit (circuit : QuantumCircuit)
         (local_unitaries : list (nat * string)) : M QuantumCircuit :=
  match local_unitaries with
  | [] => Ok circuit
  | (qubit, gate) :: rest =>
      circuit <-
        (if (gate =? "X")%string then circuit_gate "x" circuit qubit
         else if (gate =? "Y")%string then circuit_gate "y" circuit qubit
         else if (gate =? "Z")%string then circuit_gate "z" circuit qubit
         else if (gate =? "H")%string then circuit_gate "h" circuit qubit
         else if (gate =? "S")%string then circuit_gate "s" circuit qubit
         else Ok circuit) ;;
      append_local_unitaries_to_circuit circuit rest
  end.

(** ** clifford_synthesis.py

    What the repository takes from other libraries is a parameter:
    [to_graph_state_circuit] is the way through qiskit's [StabilizerState]
    and stim's [Tableau] to the circuit [g] and its [num_qubits],
    [GraphState] is qiskit's circuit of that name, and
    [qmap_optimize_clifford] is [qmap.optimize_clifford].  The circuit is
    given as a [QuantumCircuit]; reading it from a QASM string is qiskit's. *)

Section CliffordSynthesis.

Variable draw : QuantumCircuit -> string.
Variable check : solver.
Variable fuel : nat.
Variable start_time end_time : Z.
Variable to_graph_state_circuit
  : QuantumCircuit -> M (nat * list stim_instruction).
Variable GraphState : matrix -> M QuantumCircuit.
Variable qmap_optimize_clifford
  : QuantumCircuit -> bool -> bool -> M (QuantumCircuit * SynthesisResults).

Definition map_stabilizer_circuit_to_graph_state_circuit
           (circuit : QuantumCircuit)
  : M (QuantumCircuit * list (nat * string)) :=
  ' (g_num_qubits, g) <- to_graph_state_circuit circuit ;;
  let adjacency_matrix := repeat (repeat 0%Z g_num_qubits) g_num_qubits in
  ' (adjacency_matrix, local_unitaries, _) <-
    read_instructions g (adjacency_matrix, [], 0%Z) ;;
  graph_state <- GraphState adjacency_matrix ;;
  Ok (graph_state, local_unitaries).

Definition optimize_clifford (circuit : QuantumCircuit)
           (graph_state map_to_graph_state use_edge_coloring
            use_symmetry_breaking linear_search : bool)
  : M (QuantumCircuit * SynthesisResults) :=
  ' (circuit, unitaries, graph_state) <-
    (if map_to_graph_state then
       ' (circuit, unitaries) <-
         map_stabilizer_circuit_to_graph_state_circuit circuit ;;
       Ok (circuit, unitaries, true)
     else Ok (circuit, [], graph_state)) ;;
  if graph_state : bool then
    ' (circuit, result) <-
      (if use_edge_coloring
       then synthesize_graph_state_edge_colouring
              draw check fuel start_time end_time circuit
              use_symmetry_breaking linear_search
       else synthesize_graph_state_sat_solver
              draw check fuel start_time end_time circuit
              use_symmetry_breaking linear_search) ;;
    circuit <- (if map_to_graph_state
                then append_local_unitaries_to_circuit circuit unitaries
                else Ok circuit) ;;
    Ok (circuit, result)
  else
    qmap_optimize_clifford circuit use_symmetry_breaking linear_search.

End CliffordSynthesis.

(** ** A reference solver

    Exhaustive search over the variables that carry an upper bound; every
    other variable gets a value that is at least every bound.  It is used
    to run the searches on concrete graphs. *)

Definition var_eqb (v w : var) : bool :=
  match v, w with
  | GateVar i j, GateVar i' j' => (i =? i') && (j =? j')
  | IdVar i j, IdVar i' j' => (i =? i') && (j =? j')
  | _, _ => false
  end.

Definition bounded_vars (cs : list constr) : list (var * Z) :=
  flat_map (fun c => match c with LtDepth v d => [(v, d)] | _ => [] end) cs.

Fixpoint assignments (bv : list (var * Z)) : list (list (var * Z)) :=
  match bv with
  | [] => [[]]
  | (v, d) :: bv' =>
      flat_map (fun x => map (cons (v, x)) (assignments bv')) (py_range 0 d)
  end.

Fixpoint assigned (a : list (var * Z)) (v : var) : option Z :=
  match a with
  | [] => None
  | (w, x) :: a' => if var_eqb w v then Some x else assigned a' v
  end.

Definition top_value (bv : list (var * Z)) : Z :=
  fold_right (fun p acc => Z.max (snd p) acc) 0%Z bv.

Definition model_of (top : Z) (a : list (var * Z)) : model :=
  fun v => match assigned a v with Some x => x | None => top end.

Definition brute_force_check : solver :=
  fun cs =>
    let bv := bounded_vars cs in
    option_map (model_of (top_value bv))
      (find (fun a => forallb (holdsb (model_of (top_value bv) a)) cs)
            (assignments bv)).

(** The shape of the instances the reference solver is complete for: the
    left variable of every comparison is bounded, and a bounded variable
    is asserted to be non-negative. *)
Definition is_bounded (cs : list constr) (v : var) : bool :=
  existsb (fun p => var_eqb (fst p) v) (bounded_vars cs).

Definition well_formed_constr (cs : list constr) (c : constr) : bool :=
  match c with
  | Ge0 _ => true
  | LtDepth v _ =>
      existsb (fun c' => match c' with Ge0 w => var_eqb w v | _ => false end) cs
  | Neq v _ | EqColor v _ | Lt v _ => is_bounded cs v
  end.

Definition well_formed (cs : list constr) : bool :=
  forallb (well_formed_constr cs) cs.

(** ** Graphs

    [entry] reads the matrix without failing; on a well-shaped matrix it
    agrees with [cell]. *)

Definition entry (adjacency_matrix : matrix) (i j : nat) : Z :=
  nth j (nth i adjacency_matrix []) 0%Z.

(** A simple undirected graph: a square 0/1 matrix, symmetric, with a zero
    diagonal. *)
Definition simple_graphb (adjacency_matrix : matrix) : bool :=
  let n := length adjacency_matrix in
  forallb (fun row => (length row =? n)
                      && forallb (fun x => (x =? 0)%Z || (x =? 1)%Z) row)
          adjacency_matrix
  && forallb (fun i => (entry adjacency_matrix i i =? 0)%Z
                       && forallb (fun j => (entry adjacency_matrix i j
                                             =? entry adjacency_matrix j i)%Z)
                                  (seq 0 n))
             (seq 0 n).

Definition simple_graph (adjacency_matrix : matrix) : Prop :=
  simple_graphb adjacency_matrix = true.

(** The edges, as pairs [(i, j)] with [j < i], in the order the encoders
    visit them. *)
Definition edge_list (adjacency_matrix : matrix) : list key :=
  flat_map (fun i =>
    flat_map (fun j =>
      if (entry adjacency_matrix i j =? 1)%Z then [(i, j)] else [])
      (seq 0 i))
    (seq 0 (length adjacency_matrix)).

Definition is_edge (adjacency_matrix : matrix) (e : key) : Prop :=
  snd e < fst e < length adjacency_matrix
  /\ entry adjacency_matrix (fst e) (snd e) = 1%Z.

(** The neighbours of a node, in increasing order, and the degrees. *)
Definition neighbours (adjacency_matrix : matrix) (u : nat) : list nat :=
  filter (fun v => (entry adjacency_matrix u v =? 1)%Z)
         (seq 0 (length adjacency_matrix)).

Definition degree (adjacency_matrix : matrix) (u : nat) : nat :=
  length (neighbours adjacency_matrix u).

Definition max_degree (adjacency_matrix : matrix) : nat :=
  fold_right Nat.max 0 (map (degree adjacency_matrix)
                            (seq 0 (length adjacency_matrix))).

(** The neighbours of a node that come before it. *)
Definition lower_degree (adjacency_matrix : matrix) (u : nat) : nat :=
  length (filter (fun v => (entry adjacency_matrix u v =? 1)%Z) (seq 0 u)).

Definition max_lower_degree (adjacency_matrix : matrix) : nat :=
  fold_right Nat.max 0 (map (lower_degree adjacency_matrix)
                            (seq 0 (length adjacency_matrix))).

(** Two edges meet when they have a node in common. *)
Definition share_node (e1 e2 : key) : Prop :=
  fst e1 = fst e2 \/ fst e1 = snd e2 \/ snd e1 = fst e2 \/ snd e1 = snd e2.

(** The colour a model gives to the edge between [u] and [v]. *)
Definition colour (m : model) (u v : nat) : Z :=
  m (GateVar (Nat.max u v) (Nat.min u v)).

Definition proper (adjacency_matrix : matrix) (m : model) : Prop :=
  forall u v w,
    u < length adjacency_matrix -> v < length adjacency_matrix ->
    w < length adjacency_matrix -> v <> w ->
    entry adjacency_matrix u v = 1%Z -> entry adjacency_matrix u w = 1%Z ->
    colour m u v <> colour m u w.

Definition in_range (adjacency_matrix : matrix) (m : model) (d : Z) : Prop :=
  forall e, In e (edge_list adjacency_matrix) ->
            (0 <= m (GateVar (fst e) (snd e)) < d)%Z.

(** The solver meets its contract on the instances of one graph. *)
Definition oracle_ok (s : strategy) (check : solver) (adjacency_matrix : matrix)
  : Prop :=
  forall depth sb inst,
    encode s adjacency_matrix depth sb = Ok inst ->
    solver_answer_ok check (assertions inst).

(** A layer-to-edges dictionary splits the edge list into matchings. *)
Definition partitions_edges (adjacency_matrix : matrix) (d : mapping) : Prop :=
  NoDup (map fst d)
  /\ Permutation (concat (map snd d)) (edge_list adjacency_matrix)
  /\ forall c es e1 e2, In (c, es) d -> In e1 es -> In e2 es -> e1 <> e2 ->
                        ~ share_node e1 e2.

(** ** Vocabulary of the proofs

    The loops of the encoders read the matrix with [cell] and the
    dictionaries with [lookup_var], which can raise.  On a simple graph
    they do not, and what they produce is given by the following lists,
    written with [entry] and [flat_map] (lemmas [ec_conflicts_ok],
    [ds_declare_vars_ok], [ds_conflicts_ok], [ds_symmetry_ok]). *)

(** The assertions of [edge_colouring.conflicts]. *)
Definition ec_conflicts_pure (adj : matrix) : list constr :=
  flat_map (fun i =>
    flat_map (fun j =>
      if (entry adj i j =? 1)%Z then
        flat_map (fun k =>
          if (entry adj i k =? 1)%Z
          then [Neq (GateVar i j) (GateVar i k)] else []) (seq 0 j)
        ++ flat_map (fun k =>
          if (entry adj k j =? 1)%Z then
            if k <? j then [Neq (GateVar i j) (GateVar j k)]
            else [Neq (GateVar i j) (GateVar k j)]
          else []) (seq 0 i)
      else []) (seq 0 i)) (seq 0 (length adj)).

(** The transposition of the colours [a] and [b]. *)
Definition swap (a b x : Z) : Z :=
  if (x =? a)%Z then b else if (x =? b)%Z then a else x.

(** A model with its colours renamed. *)
Definition relabel (sigma : Z -> Z) (m : model) : model :=
  fun v => match v with
           | GateVar _ _ => sigma (m v)
           | IdVar _ _ => m v
           end.

(** [sigma] maps the colours below [d] to one another, one to one. *)
Definition renaming (sigma : Z -> Z) (d : Z) : Prop :=
  (forall c, (0 <= c < d)%Z -> (0 <= sigma c < d)%Z)
  /\ (forall a b, (0 <= a < d)%Z -> (0 <= b < d)%Z -> sigma a = sigma b -> a = b).

(** The variables of [sat_solver.declare_vars]. *)
Definition ds_declared_pure (adj : matrix) : list var :=
  flat_map (fun i =>
    flat_map (fun j =>
      if (entry adj i j =? 1)%Z then [GateVar i j] else [IdVar i j])
      (seq 0 i))
    (seq 0 (length adj)).

(** The pairs [(i, j)] with [j < i] that are not edges: the keys of
    [identities]. *)
Definition non_edge_list (adj : matrix) : list key :=
  flat_map (fun i =>
    flat_map (fun j =>
      if (entry adj i j =? 1)%Z then [] else [(i, j)])
      (seq 0 i))
    (seq 0 (length adj)).

(** The assertions of [sat_solver.conflicts]. *)
Definition ds_conflicts_pure (adj : matrix) : list constr :=
  flat_map (fun i =>
    flat_map (fun j =>
      if (entry adj i j =? 1)%Z then
        flat_map (fun k =>
          if (entry adj i k =? 1)%Z
          then [Neq (GateVar i j) (GateVar i k)]
          else [Neq (GateVar i j) (IdVar i k)]) (seq 0 j)
        ++ flat_map (fun k =>
          if k =? j then []
          else if (entry adj j k =? 1)%Z then
            if k <? j then [Neq (GateVar i j) (GateVar j k)]
            else [Neq (GateVar i j) (GateVar k j)]
          else
            if k <? j then [Neq (GateVar i j) (IdVar j k)]
            else [Neq (GateVar i j) (IdVar k j)]) (seq 0 i)
      else []) (seq 0 i)) (seq 0 (length adj)).

(** The assertions of [sat_solver.symmetry_breaking]. *)
Definition ds_symmetry_pure (adj : matrix) : list constr :=
  flat_map (fun i =>
    flat_map (fun j =>
      if (entry adj i j =? 1)%Z then
        flat_map (fun k =>
          if negb (entry adj i k =? 1)%Z
          then [Lt (GateVar i j) (IdVar i k)] else []) (seq 0 j)
        ++ flat_map (fun k =>
          if k =? j then []
          else if negb (entry adj j k =? 1)%Z then
            if k <? j then [Lt (GateVar i j) (IdVar j k)]
            else [Lt (GateVar i j) (IdVar k j)]
          else []) (seq 0 i)
      else []) (seq 0 i)) (seq 0 (length adj)).

(** Idle slots placed at [top], gates as in [m]. *)
Definition with_idle (top : Z) (m : model) : model :=
  fun v => match v with
           | GateVar _ _ => m v
           | IdVar _ _ => top
           end.

(** A graph can be coloured with [d] colours. *)
Definition colourable (adj : matrix) (d : Z) : Prop :=
  exists m, proper adj m /\ in_range adj m d.

(** The instance of a strategy at a depth has a model. *)
Definition satisfiable (s : strategy) (adj : matrix) (d : Z) (sb : bool)
  : Prop :=
  exists inst m, encode s adj d sb = Ok inst /\ satisfies m (assertions inst).

(** The mapping [_synthesis] returns, with the empty one for a call that
    raises. *)
Definition answer (s : strategy) (check : solver) (adj : matrix) (sb : bool)
           (d : Z) : mapping :=
  match _synthesis s check adj d sb with
  | Ok mp => mp
  | _ => []
  end.

(** The gates of one layer, in the order of its edges. *)
Definition layer_gates (es : list key) : list instruction :=
  map (fun e => cz_gate (fst e) (snd e)) es.

(** The assignment that copies a model on the bounded variables. *)
Definition restrict (m : model) (bv : list (var * Z)) : list (var * Z) :=
  map (fun p => (fst p, m (fst p))) bv.

(** A comparison whose left side is the variable of an edge. *)
Definition gate_headed (adj : matrix) (c : constr) : Prop :=
  match c with
  | Neq (GateVar i j) _ | EqColor (GateVar i j) _ | Lt (GateVar i j) _ =>
      In (i, j) (edge_list adj)
  | _ => False
  end.

(** A square matrix of zeros and ones. *)
Definition binary_square (a : matrix) : bool :=
  forallb (fun row => (length row =? length a)
                      && forallb (fun x => (x =? 0)%Z || (x =? 1)%Z) row) a.

(** The digits of a bit. *)
Definition bit_digits (z : Z) : list ascii :=
  if (z =? 0)%Z then ["0"%char] else ["1"%char].

(** An entry of a 0/1 matrix. *)
Definition is_bit (z : Z) : Prop := z = 0%Z \/ z = 1%Z.

(** What is known of the two searches on a graph with an edge; [chi] is the
    least number of colours and [lo] the first depth tried. *)
Record search_facts (s : strategy) (check : solver) (adj : matrix) (sb : bool)
       (chi lo : Z) : Prop := {
  sf_chi : (0 < chi <= Z.of_nat (length adj))%Z;
  sf_colourable : forall d, colourable adj d <-> (chi <= d)%Z;
  sf_answer : forall d, _synthesis s check adj d sb
                        = Ok (answer s check adj sb d);
  sf_truthy : forall d, truthy (answer s check adj sb d) = true
                        <-> (chi <= d)%Z;
  sf_layers : partitions_edges adj (answer s check adj sb chi);
  sf_minimum : minimum_depth s adj = Ok lo;
  sf_lo : (0 <= lo <= chi)%Z;
  sf_lo_eq : lo = match s with
                  | EdgeColouring => Z.of_nat (max_lower_degree adj)
                  | DirectScheduling => 0%Z
                  end;
  sf_degree : (Z.of_nat (max_degree adj) <= chi)%Z;
  sf_linear :
    linear_search_run s check adj sb
    = Ok {| l_mapping := Dict (answer s check adj sb chi);
            l_depth := chi;
            l_solver_calls := (chi - lo + 1)%Z;
            l_probed := py_range lo (chi + 1) |};
  sf_binary : forall fuel, length adj < fuel ->
    exists st, binary_search_run s check adj sb fuel = Ok st
               /\ b_current st = chi
               /\ b_mapping st = answer s check adj sb chi
               /\ b_solver_calls st = Z.of_nat (length (b_probed st))
}.

(** The graph with two nodes and one edge, as [GraphState] names it. *)
Definition two_nodes : matrix := [[0; 1]; [1; 0]]%Z.

(** The circuit [GraphState] builds for it. *)
Definition two_nodes_circuit : QuantumCircuit :=
  {| num_qubits := 2;
     name := "graph: [[0, 1], [1, 0]]";
     data := [h_gate 0; h_gate 1; cz_gate 0 1] |}.

(** A star: node 0 joined to nodes 1 and 2. *)
Definition star : matrix := [[0; 1; 1]; [1; 0; 0]; [1; 0; 0]]%Z.

(** Two nodes and no edge. *)
Definition no_edge_circuit : QuantumCircuit :=
  {| num_qubits := 2;
     name := "graph: [[0, 0], [0, 0]]";
     data := [h_gate 0; h_gate 1] |}.

(** A stand-in for qiskit's [draw]: a circuit is rendered by its name. *)
Definition draw_name (c : QuantumCircuit) : string := name c.

(** The encoder answers a depth with a non-empty mapping. *)
Definition accepts (s : strategy) (check : solver) (adj : matrix) (d : Z)
           (sb : bool) : Prop :=
  exists mp, _synthesis s check adj d sb = Ok mp /\ truthy mp = true.

(** Every edge lies in exactly one layer, the layers hold nothing but
    edges, and the edges of one layer are pairwise disjoint. *)
Definition layers_cover_edges (adj : matrix) (mp : mapping) : Prop :=
  NoDup (map fst mp)
  /\ Permutation (concat (map snd mp)) (edge_list adj)
  /\ (forall e, is_edge adj e ->
        exists c es, In (c, es) mp /\ In e es
                     /\ forall c' es', In (c', es') mp -> In e es' -> c' = c)
  /\ (forall c es e, In (c, es) mp -> In e es -> is_edge adj e)
  /\ (forall c es e1 e2, In (c, es) mp -> In e1 es -> In e2 es ->
                         e1 <> e2 -> ~ share_node e1 e2).

(** The first depth linear search tries. *)
Definition first_depth (s : strategy) (adj : matrix) : Z :=
  match s with
  | EdgeColouring => Z.of_nat (max_lower_degree adj)
  | DirectScheduling => 0%Z
  end.




(** The number of solver calls on the graph with two nodes. *)
Definition two_nodes_calls (s : strategy) : Z :=
  match s with
  | EdgeColouring => 1%Z
  | DirectScheduling => 2%Z
  end.

(** [graph_circuit_4qubit_1] of the test suite. *)
Definition four_nodes : matrix :=
  [[0; 1; 1; 0]; [1; 0; 1; 1]; [1; 1; 0; 1]; [0; 1; 1; 0]]%Z.

(** Depth, solver calls and number of gates of a search result. *)
Definition outcome (r : M (QuantumCircuit * Z * Z)) : option (Z * Z * nat) :=
  match r with
  | Ok (c, d, k) => Some (d, k, length (data c))
  | _ => None
  end.

(** The colouring [(i + j) mod n] uses [n] colours and is proper. *)
Definition sum_colouring (adj : matrix) : model :=
  fun v => match v with
           | GateVar i j => Z.of_nat ((i + j) mod length adj)
           | IdVar _ _ => Z.of_nat (length adj)
           end.

(** Every mapping held by the cache of the binary search is the one
    [_synthesis] returns at that depth. *)
Definition consistent (s : strategy) (check : solver) (adj : matrix)
           (sb : bool) (c : cache) : Prop :=
  forall d mp, cache_get c d = Some mp -> mp = answer s check adj sb d.

(** A matrix with as many columns as rows. *)
Definition square (a : matrix) : bool :=
  forallb (fun row => length row =? length a) a.

(** No entry of the matrix is 1: whatever the other entries are, the
    encoders see no edge. *)
Definition no_ones (a : matrix) : bool :=
  forallb (forallb (fun x => negb (x =? 1)%Z)) a.

(** Every mapping held by the cache of the binary search is empty. *)
Definition all_empty (c : cache) : Prop :=
  forall d mp, cache_get c d = Some mp -> mp = [].

(** The digits [str] prints for an integer. *)
Definition digits_of (z : Z) : list ascii := list_ascii_of_string (str_int z).

(** A string without a digit. *)
Definition no_digits (s : string) : bool :=
  forallb (fun c => negb (is_digit c)) (list_ascii_of_string s).

(** The value of a decimal numeral read from the left with [acc] read so
    far, as [int_of_digits] computes it. *)
Definition uint_value (d : Decimal.uint) (acc : Z) : Z :=
  fold_left (fun acc c => (10 * acc + Z.of_nat (nat_of_ascii c - 48))%Z)
            (list_ascii_of_string (NilEmpty.string_of_uint d)) acc.

(** The labels [append_local_unitaries_to_circuit] knows, with the name of
    the gate each of them stands for. *)
Definition local_gate (gate : string) : option string :=
  if (gate =? "X")%string then Some "x"%string
  else if (gate =? "Y")%string then Some "y"%string
  else if (gate =? "Z")%string then Some "z"%string
  else if (gate =? "H")%string then Some "h"%string
  else if (gate =? "S")%string then Some "s"%string
  else None.

(** The instructions a list of local unitaries stands for, in order. *)
Definition local_gates (local_unitaries : list (nat * string))
  : list instruction :=
  flat_map (fun u => match local_gate (snd u) with
                     | Some op => [{| operation := op; qubits := [fst u] |}]
                     | None => []
                     end) local_unitaries.

(** A stand-in for qiskit's [GraphState]: Hadamards, then one CZ per edge. *)
Definition graph_state_circuit (adjacency_matrix : matrix) : M QuantumCircuit :=
  Ok {| num_qubits := length adjacency_matrix;
        name := ("graph: " ++ str_matrix adjacency_matrix)%string;
        data := map h_gate (seq 0 (length adjacency_matrix))
                ++ layer_gates (edge_list adjacency_matrix) |}.

(** A stim circuit in the layout of a graph state: the resets, the CZ
    layer and the local gates, with a [TICK] between them; one of the local
    gates carries a label the repository does not know. *)
Definition stim_sample : list stim_instruction :=
  [ {| stim_name := "RX"; stim_targets := [0; 1; 2] |};
    {| stim_name := "TICK"; stim_targets := [] |};
    {| stim_name := "CZ"; stim_targets := [0; 1; 1; 2] |};
    {| stim_name := "TICK"; stim_targets := [] |};
    {| stim_name := "X"; stim_targets := [0] |};
    {| stim_name := "S"; stim_targets := [1; 2] |};
    {| stim_name := "SQRT_X"; stim_targets := [2] |};
    {| stim_name := "H"; stim_targets := [2] |} ].

(** The matrix [[[0 for _ in range(n)] for _ in range(n)]]. *)
Definition zeros (n : nat) : matrix := repeat (repeat 0%Z n) n.

(** The pairs of qubits the CZ instructions of a stim circuit join, in
    order. *)
Definition cz_pairs (g : list stim_instruction) : list (nat * nat) :=
  flat_map (fun instruction =>
              if (stim_name instruction =? "CZ")%string
              then target_pairs (stim_targets instruction) else []) g.

Definition is_tick (instruction : stim_instruction) : bool :=
  (stim_name instruction =? "TICK")%string.

(** The number of [TICK] instructions. *)
Definition ticks (g : list stim_instruction) : nat :=
  length (filter is_tick g).

(** The gates of a stretch of a stim circuit other than CZ, one entry per
    target, in order. *)
Definition local_targets (g : list stim_instruction) : list (nat * string) :=
  flat_map (fun instruction =>
              if (stim_name instruction =? "CZ")%string then []
              else map (fun a => (a, stim_name instruction))
                       (stim_targets instruction)) g.

(** What the loop over a stim circuit adds to [local_unitaries] when it
    starts with [reached] ticks behind it. *)
Fixpoint unitaries_from (g : list stim_instruction) (reached : Z)
  : list (nat * string) :=
  match g with
  | [] => []
  | instruction :: rest =>
      if (stim_name instruction =? "CZ")%string
      then unitaries_from rest reached
      else if (stim_name instruction =? "TICK")%string
           then unitaries_from rest (reached + 1)%Z
      else (if (reached =? 2)%Z then local_targets [instruction] else [])
           ++ unitaries_from rest reached
  end.

(** [m[a][b] = v] on a matrix whose cell [(a, b)] exists. *)
Definition with_cell (m : matrix) (a b : nat) (v : Z) : matrix :=
  update m a (update (nth a m []) b v).

(** The matrix after the CZ pairs have been entered in it. *)
Fixpoint connected (pairs : list (nat * nat)) (m : matrix) : matrix :=
  match pairs with
  | [] => m
  | (a, b) :: rest => connected rest (with_cell (with_cell m a b 1%Z) b a 1%Z)
  end.

(** Some pair joins [i] and [j], in either order. *)
Definition linked (pairs : list (nat * nat)) (i j : nat) : bool :=
  existsb (fun p => ((fst p =? i) && (snd p =? j))
                    || ((fst p =? j) && (snd p =? i))) pairs.

(** Every pair names two of the [n] qubits. *)
Definition pairs_in_range (n : nat) (pairs : list (nat * nat)) : bool :=
  forallb (fun p => (fst p <? n) && (snd p <? n)) pairs.

(** The X and the Z bit of a Pauli letter. *)
Definition x_bit (pauli : ascii) : Z :=
  if ((pauli =? "X") || (pauli =? "Y"))%char then 1%Z else 0%Z.

Definition z_bit (pauli : ascii) : Z :=
  if ((pauli =? "Z") || (pauli =? "Y"))%char then 1%Z else 0%Z.

(** The row of the tableau for a stabilizer without its sign: the X bits,
    the Z bits and the column of the sign. *)
Definition tableau_row (stabilizer : string) : list Z :=
  map x_bit (list_ascii_of_string stabilizer)
  ++ map z_bit (list_ascii_of_string stabilizer) ++ [0%Z].

(** What [mark_paulis] does to the row it writes. *)
Fixpoint mark_row (number_of_qubits : nat) (stabilizer : list ascii) (j : nat)
         (row : list Z) : list Z :=
  match stabilizer with
  | [] => row
  | pauli :: rest =>
      mark_row number_of_qubits rest (S j)
        (if (pauli =? "X")%char then update row j 1%Z
         else if (pauli =? "Z")%char then update row (number_of_qubits + j) 1%Z
         else if (pauli =? "Y")%char
              then update (update row j 1%Z) (number_of_qubits + j) 1%Z
         else row)
  end.

(** The matrix with its diagonal set to zero. *)
Definition without_loops (a : matrix) : matrix :=
  map (fun p => update (snd p) (fst p) 0%Z) (combine (seq 0 (length a)) a).

(** A computation that returns or raises [e], and nothing else. *)
Definition raises_only {A} (e : exn) (c : M A) : Prop :=
  match c with
  | Ok _ => True
  | Raise e' => e' = e
  | OutOfFuel => False
  end.

(** Every local unitary with a known label is on a qubit below [n]. *)
Definition unitaries_in_range (n : nat) (local_unitaries : list (nat * string))
  : bool :=
  forallb (fun u => match local_gate (snd u) with
                    | Some _ => fst u <? n
                    | None => true
                    end) local_unitaries.


(** An edge the circuit accepts: two different qubits below [n]. *)
Definition valid_edge (n : nat) (e : key) : bool :=
  (fst e <? n) && (snd e <? n) && negb (fst e =? snd e).

(** Every edge of every layer is one the circuit accepts. *)
Definition valid_mapping (n : nat) (d : mapping) : bool :=
  forallb (fun layer => forallb (valid_edge n) (snd layer)) d.

(** A circuit under the name qiskit gives by default, [circuit-] followed
    by a counter. *)
Definition default_named_circuit : QuantumCircuit :=
  {| num_qubits := 1; name := "circuit-88"; data := [] |}.

(** ** Loops that do not fail *)

Unset Implicit Arguments.

Lemma for_each_pure {A B} (l : list A) (body : A -> M (list B)) g :
  (forall a, In a l -> body a = Ok (g a)) ->
  for_each l body = Ok (flat_map g l).
Proof.
  induction l as [|a l IH]; simpl; intros H; [reflexivity|].
  rewrite H by auto. simpl. rewrite IH by auto. reflexivity.
Qed.

Lemma for_range_pure {B} n (body : nat -> M (list B)) g :
  (forall i, i < n -> body i = Ok (g i)) ->
  for_range n body = Ok (flat_map g (seq 0 n)).
Proof.
  intros H. apply for_each_pure. intros i Hi.
  apply in_seq in Hi. apply H. lia.
Qed.

Lemma lookup_var_ok mk keys k :
  In k keys -> lookup_var mk keys k = Ok (mk (fst k) (snd k)).
Proof.
  intros H. unfold lookup_var.
  replace (existsb (key_eqb k) keys) with true; [reflexivity|].
  symmetry. apply existsb_exists. exists k. split; [assumption|].
  unfold key_eqb. now rewrite !Nat.eqb_refl.
Qed.

(** ** Facts about simple graphs *)

Section SimpleGraph.

Variable adj : matrix.
Hypothesis Hsimple : simple_graph adj.

Let n := length adj.

Lemma simple_rows i : i < n -> length (nth i adj []) = n.
Proof.
  intros Hi. pose proof Hsimple as Hs. unfold simple_graph, simple_graphb in Hs.
  apply andb_prop in Hs as [H _].
  rewrite forallb_forall in H.
  specialize (H (nth i adj []) (nth_In _ _ Hi)).
  apply andb_prop in H as [H _]. now apply Nat.eqb_eq in H.
Qed.

Lemma simple_cell i j : i < n -> j < n -> cell adj i j = Ok (entry adj i j).
Proof.
  intros Hi Hj. unfold cell, item, entry.
  rewrite (nth_error_nth' adj [] Hi). simpl.
  rewrite (nth_error_nth' (nth i adj []) 0%Z); [reflexivity|].
  now rewrite simple_rows.
Qed.

Lemma simple_01 i j :
  i < n -> j < n -> entry adj i j = 0%Z \/ entry adj i j = 1%Z.
Proof.
  intros Hi Hj. pose proof Hsimple as Hs. unfold simple_graph, simple_graphb in Hs.
  apply andb_prop in Hs as [H _].
  rewrite forallb_forall in H.
  specialize (H (nth i adj []) (nth_In _ _ Hi)).
  apply andb_prop in H as [_ H]. rewrite forallb_forall in H.
  assert (Hin : In (entry adj i j) (nth i adj [])).
  { apply nth_In. now rewrite simple_rows. }
  specialize (H _ Hin). apply orb_prop in H as [H|H];
    apply Z.eqb_eq in H; auto.
Qed.

Lemma simple_diag i : i < n -> entry adj i i = 0%Z.
Proof.
  intros Hi. pose proof Hsimple as Hs. unfold simple_graph, simple_graphb in Hs.
  apply andb_prop in Hs as [_ H].
  rewrite forallb_forall in H.
  assert (Hin : In i (seq 0 (length adj))) by (apply in_seq; fold n; lia).
  specialize (H _ Hin). apply andb_prop in H as [H _].
  now apply Z.eqb_eq in H.
Qed.

Lemma simple_sym i j : i < n -> j < n -> entry adj i j = entry adj j i.
Proof.
  intros Hi Hj. pose proof Hsimple as Hs. unfold simple_graph, simple_graphb in Hs.
  apply andb_prop in Hs as [_ H].
  rewrite forallb_forall in H.
  assert (Hin : In i (seq 0 (length adj))) by (apply in_seq; fold n; lia).
  specialize (H _ Hin). apply andb_prop in H as [_ H].
  rewrite forallb_forall in H.
  assert (Hjn : In j (seq 0 (length adj))) by (apply in_seq; fold n; lia).
  specialize (H _ Hjn). now apply Z.eqb_eq in H.
Qed.

End SimpleGraph.

Lemma in_edge_list adj e : In e (edge_list adj) <-> is_edge adj e.
Proof.
  unfold edge_list, is_edge. rewrite in_flat_map. split.
  - intros (i & Hi & H). apply in_flat_map in H as (j & Hj & H).
    apply in_seq in Hi, Hj.
    destruct (entry adj i j =? 1)%Z eqn:E; [|contradiction].
    destruct H as [<-|[]]. simpl. apply Z.eqb_eq in E. lia.
  - destruct e as [i j]. simpl. intros [Hlt E].
    exists i. split; [apply in_seq; lia|].
    apply in_flat_map. exists j. split; [apply in_seq; lia|].
    apply Z.eqb_eq in E. rewrite E. now left.
Qed.

Lemma NoDup_flat_map_seq {B} (f : nat -> list B) (proj : B -> nat) a len :
  (forall i, NoDup (f i)) ->
  (forall i x, In x (f i) -> proj x = i) ->
  NoDup (flat_map f (seq a len)).
Proof.
  intros Hnd Hproj. revert a. induction len as [|len IH]; intros a; simpl.
  - constructor.
  - apply NoDup_app; [apply Hnd|apply IH|].
    intros x Hx Hx'. apply in_flat_map in Hx' as (i & Hi & Hxi).
    apply in_seq in Hi. apply Hproj in Hx, Hxi. lia.
Qed.

Lemma NoDup_edge_list adj : NoDup (edge_list adj).
Proof.
  unfold edge_list. apply NoDup_flat_map_seq with (proj := fst).
  - intros i. apply NoDup_flat_map_seq with (proj := snd).
    + intros j. destruct (_ =? _)%Z; repeat constructor. intros [].
    + intros j x. destruct (_ =? _)%Z; [|intros []].
      intros [<-|[]]. reflexivity.
  - intros i x Hx. apply in_flat_map in Hx as (j & _ & Hx).
    destruct (_ =? _)%Z; [|destruct Hx].
    destruct Hx as [<-|[]]. reflexivity.
Qed.

Lemma colour_gt m u v : v < u -> colour m u v = m (GateVar u v).
Proof. intros H. unfold colour. now rewrite Nat.max_l, Nat.min_r by lia. Qed.

Lemma colour_lt m u v : u < v -> colour m u v = m (GateVar v u).
Proof. intros H. unfold colour. now rewrite Nat.max_r, Nat.min_l by lia. Qed.

Lemma colour_sym m u v : colour m u v = colour m v u.
Proof. unfold colour. now rewrite Nat.max_comm, Nat.min_comm. Qed.

(** ** The edge colouring instance on a simple graph *)

Lemma satisfies_app m cs1 cs2 :
  satisfies m (cs1 ++ cs2) <-> satisfies m cs1 /\ satisfies m cs2.
Proof. unfold satisfies. rewrite forallb_app. apply andb_true_iff. Qed.

Lemma satisfies_forall m cs :
  satisfies m cs <-> forall c, In c cs -> holdsb m c = true.
Proof. apply forallb_forall. Qed.

Section EdgeColouringInstance.

Variable adj : matrix.
Hypothesis Hsimple : simple_graph adj.

Lemma ec_declare_keys_ok : edge_colouring.declare_keys adj = Ok (edge_list adj).
Proof.
  unfold edge_colouring.declare_keys, edge_list.
  apply for_range_pure. intros i Hi.
  apply for_range_pure. intros j Hj.
  rewrite (simple_cell adj Hsimple) by lia. simpl.
  now destruct (_ =? _)%Z.
Qed.

Lemma ec_conflicts_ok :
  edge_colouring.conflicts adj (edge_list adj) = Ok (ec_conflicts_pure adj).
Proof.
  unfold edge_colouring.conflicts, ec_conflicts_pure.
  apply for_range_pure. intros i Hi.
  apply for_range_pure. intros j Hj.
  rewrite (simple_cell adj Hsimple) by lia. simpl.
  destruct (entry adj i j =? 1)%Z eqn:Eij; [|reflexivity].
  apply Z.eqb_eq in Eij.
  assert (Kij : In (i, j) (edge_list adj)).
  { apply in_edge_list. split; simpl; [lia|assumption]. }
  rewrite (for_range_pure j _ (fun k =>
            if (entry adj i k =? 1)%Z
            then [Neq (GateVar i j) (GateVar i k)] else [])).
  2:{ intros k Hk. rewrite (simple_cell adj Hsimple) by lia. simpl.
      destruct (entry adj i k =? 1)%Z eqn:Eik; [|reflexivity].
      apply Z.eqb_eq in Eik.
      replace (k <? i) with true by (symmetry; apply Nat.ltb_lt; lia).
      rewrite (lookup_var_ok _ _ _ Kij). simpl.
      rewrite lookup_var_ok; [reflexivity|].
      apply in_edge_list. split; simpl; [lia|assumption]. }
  simpl.
  rewrite (for_range_pure i _ (fun k =>
            if (entry adj k j =? 1)%Z then
              if k <? j then [Neq (GateVar i j) (GateVar j k)]
              else [Neq (GateVar i j) (GateVar k j)]
            else [])).
  2:{ intros k Hk. rewrite (simple_cell adj Hsimple) by lia. simpl.
      destruct (entry adj k j =? 1)%Z eqn:Ekj; [|reflexivity].
      apply Z.eqb_eq in Ekj.
      assert (k <> j).
      { intros ->. rewrite (simple_diag adj Hsimple) in Ekj by lia. discriminate. }
      rewrite (lookup_var_ok _ _ _ Kij). simpl.
      destruct (k <? j) eqn:Ekltj.
      - apply Nat.ltb_lt in Ekltj.
        rewrite lookup_var_ok; [reflexivity|].
        apply in_edge_list. split; simpl; [lia|].
        rewrite (simple_sym adj Hsimple) by lia. assumption.
      - apply Nat.ltb_ge in Ekltj.
        rewrite lookup_var_ok; [reflexivity|].
        apply in_edge_list. split; simpl; [lia|assumption]. }
  reflexivity.
Qed.

(** A model of the conflict constraints is a proper colouring. *)
Lemma ec_conflicts_sound m :
  satisfies m (ec_conflicts_pure adj) -> proper adj m.
Proof.
  intros Hsat. rewrite satisfies_forall in Hsat.
  assert (main : forall u v w, u < length adj -> v < length adj ->
            w < length adj -> v < w ->
            entry adj u v = 1%Z -> entry adj u w = 1%Z ->
            colour m u v <> colour m u w).
  { intros u v w Hu Hv Hw Hvw Euv Euw.
    assert (u <> v) by (intros ->; rewrite (simple_diag adj Hsimple) in Euv by lia; discriminate).
    assert (u <> w) by (intros ->; rewrite (simple_diag adj Hsimple) in Euw by lia; discriminate).
    assert (Evu : entry adj v u = 1%Z) by (rewrite (simple_sym adj Hsimple) by lia; assumption).
    assert (Ewu : entry adj w u = 1%Z) by (rewrite (simple_sym adj Hsimple) by lia; assumption).
    destruct (Nat.lt_ge_cases w u) as [Hwu|Hwu].
    - (* v < w < u: edge (u, w), first loop, k = v *)
      rewrite !colour_gt by lia.
      assert (Hc : holdsb m (Neq (GateVar u w) (GateVar u v)) = true).
      { apply Hsat. unfold ec_conflicts_pure.
        apply in_flat_map. exists u. split; [apply in_seq; lia|].
        apply in_flat_map. exists w. split; [apply in_seq; lia|].
        rewrite Euw. simpl. apply in_or_app. left.
        apply in_flat_map. exists v. split; [apply in_seq; lia|].
        rewrite Euv. now left. }
      simpl in Hc. apply negb_true_iff, Z.eqb_neq in Hc. congruence.
    - destruct (Nat.lt_ge_cases v u) as [Hvu|Hvu].
      + (* v < u < w: edge (w, u), second loop, k = v *)
        rewrite (colour_gt m u v), (colour_lt m u w) by lia.
        assert (Hc : holdsb m (Neq (GateVar w u) (GateVar u v)) = true).
        { apply Hsat. unfold ec_conflicts_pure.
          apply in_flat_map. exists w. split; [apply in_seq; lia|].
          apply in_flat_map. exists u. split; [apply in_seq; lia|].
          rewrite Ewu. simpl. apply in_or_app. right.
          apply in_flat_map. exists v. split; [apply in_seq; lia|].
          rewrite Evu.
          replace (v <? u) with true by (symmetry; apply Nat.ltb_lt; lia).
          now left. }
        simpl in Hc. apply negb_true_iff, Z.eqb_neq in Hc. congruence.
      + (* u < v < w: edge (w, u), second loop, k = v *)
        rewrite !colour_lt by lia.
        assert (Hc : holdsb m (Neq (GateVar w u) (GateVar v u)) = true).
        { apply Hsat. unfold ec_conflicts_pure.
          apply in_flat_map. exists w. split; [apply in_seq; lia|].
          apply in_flat_map. exists u. split; [apply in_seq; lia|].
          rewrite Ewu. simpl. apply in_or_app. right.
          apply in_flat_map. exists v. split; [apply in_seq; lia|].
          rewrite Evu.
          replace (v <? u) with false by (symmetry; apply Nat.ltb_ge; lia).
          now left. }
        simpl in Hc. apply negb_true_iff, Z.eqb_neq in Hc. congruence. }
  intros u v w Hu Hv Hw Hne Euv Euw.
  destruct (Nat.lt_ge_cases v w).
  - now apply main.
  - intros E. apply (main u w v); auto; lia.
Qed.

(** A proper colouring is a model of the conflict constraints. *)
Lemma ec_conflicts_complete m :
  proper adj m -> satisfies m (ec_conflicts_pure adj).
Proof.
  intros Hp. apply satisfies_forall. intros c Hc.
  unfold ec_conflicts_pure in Hc.
  apply in_flat_map in Hc as (i & Hi & Hc). apply in_seq in Hi.
  apply in_flat_map in Hc as (j & Hj & Hc). apply in_seq in Hj.
  destruct (entry adj i j =? 1)%Z eqn:Eij; [|contradiction].
  apply Z.eqb_eq in Eij.
  apply in_app_or in Hc as [Hc|Hc];
    apply in_flat_map in Hc as (k & Hk & Hc); apply in_seq in Hk.
  - destruct (entry adj i k =? 1)%Z eqn:Eik; [|contradiction].
    apply Z.eqb_eq in Eik. destruct Hc as [<-|[]]. simpl.
    apply negb_true_iff, Z.eqb_neq.
    rewrite <- (colour_gt m i j), <- (colour_gt m i k) by lia.
    apply Hp; auto; lia.
  - destruct (entry adj k j =? 1)%Z eqn:Ekj; [|contradiction].
    apply Z.eqb_eq in Ekj.
    assert (k <> j).
    { intros ->. rewrite (simple_diag adj Hsimple) in Ekj by lia. discriminate. }
    assert (Eji : entry adj j i = 1%Z) by (rewrite (simple_sym adj Hsimple) by lia; assumption).
    assert (Ejk : entry adj j k = 1%Z) by (rewrite (simple_sym adj Hsimple) by lia; assumption).
    destruct (k <? j) eqn:Ekltj.
    + apply Nat.ltb_lt in Ekltj. destruct Hc as [<-|[]]. simpl.
      apply negb_true_iff, Z.eqb_neq.
      rewrite <- (colour_lt m j i), <- (colour_gt m j k) by lia.
      apply Hp; auto; lia.
    + apply Nat.ltb_ge in Ekltj. destruct Hc as [<-|[]]. simpl.
      apply negb_true_iff, Z.eqb_neq.
      rewrite <- (colour_lt m j i), <- (colour_lt m j k) by lia.
      apply Hp; auto; lia.
Qed.

Lemma declare_bounds_iff m d :
  satisfies m (edge_colouring.declare_bounds d (edge_list adj))
  <-> in_range adj m d.
Proof.
  unfold in_range. rewrite satisfies_forall.
  unfold edge_colouring.declare_bounds. split.
  - intros H e He.
    assert (H1 := H (Ge0 (GateVar (fst e) (snd e)))).
    assert (H2 := H (LtDepth (GateVar (fst e) (snd e)) d)).
    simpl in H1, H2.
    rewrite Z.leb_le in H1. rewrite Z.ltb_lt in H2.
    split; [apply H1|apply H2]; apply in_flat_map; exists e; simpl; auto.
  - intros H c Hc. apply in_flat_map in Hc as (e & He & Hc).
    specialize (H e He).
    destruct Hc as [<-|[<-|[]]]; simpl.
    + apply Z.leb_le. lia.
    + apply Z.ltb_lt. lia.
Qed.

End EdgeColouringInstance.

(** ** Reading a model back into layers *)

Lemma result_append_keys result c e :
  forall c', In c' (map fst (result_append result c e))
             <-> In c' (map fst result) \/ c' = c.
Proof.
  induction result as [|[c0 es] rest IH]; simpl; intros c'.
  - intuition.
  - destruct (c0 =? c)%Z eqn:E; simpl.
    + apply Z.eqb_eq in E. subst. intuition.
    + rewrite IH. intuition.
Qed.

Lemma result_append_NoDup result c e :
  NoDup (map fst result) -> NoDup (map fst (result_append result c e)).
Proof.
  induction result as [|[c0 es] rest IH]; simpl; intros H.
  - repeat constructor. intros [].
  - inversion H as [|? ? Hnin Hnd]; subst.
    destruct (c0 =? c)%Z eqn:E; simpl.
    + now constructor.
    + constructor; [|now apply IH].
      rewrite result_append_keys. intros [Hin| ->]; [contradiction|].
      rewrite Z.eqb_refl in E. discriminate.
Qed.

Lemma result_append_perm result c e :
  Permutation (concat (map snd (result_append result c e)))
              (concat (map snd result) ++ [e]).
Proof.
  induction result as [|[c0 es] rest IH]; simpl.
  - apply Permutation_refl.
  - destruct (c0 =? c)%Z; simpl.
    + rewrite <- !app_assoc. apply Permutation_app_head.
      apply Permutation_app_comm.
    + rewrite <- app_assoc. now apply Permutation_app_head.
Qed.

Lemma result_append_in result c e c' es' e' :
  In (c', es') (result_append result c e) -> In e' es' ->
  (e' = e /\ c' = c) \/ exists es, In (c', es) result /\ In e' es.
Proof.
  induction result as [|[c0 es] rest IH]; simpl.
  - intros [H|[]] Hin. inversion H; subst.
    destruct Hin as [<-|[]]. now left.
  - destruct (c0 =? c)%Z eqn:E; simpl.
    + apply Z.eqb_eq in E. subst c0.
      intros [H|H] Hin.
      * inversion H; subst. apply in_app_or in Hin as [Hin|[<-|[]]].
        -- right. exists es. auto.
        -- now left.
      * right. exists es'. auto.
    + intros [H|H] Hin.
      * inversion H; subst. right. exists es'. auto.
      * destruct (IH H Hin) as [?|(es0 & ? & ?)]; [now left|].
        right. exists es0. auto.
Qed.

Lemma read_model_from m keys result :
  NoDup (map fst result) ->
  (forall c es e, In (c, es) result -> In e es ->
                  m (GateVar (fst e) (snd e)) = c) ->
  let r := fold_left (fun result e =>
                        result_append result (m (GateVar (fst e) (snd e))) e)
                     keys result in
  NoDup (map fst r)
  /\ Permutation (concat (map snd r)) (concat (map snd result) ++ keys)
  /\ (forall c es e, In (c, es) r -> In e es ->
                     m (GateVar (fst e) (snd e)) = c).
Proof.
  revert result. induction keys as [|k keys IH]; simpl; intros result Hnd Hcol.
  - rewrite app_nil_r. auto.
  - destruct (IH (result_append result (m (GateVar (fst k) (snd k))) k))
      as (H1 & H2 & H3).
    + now apply result_append_NoDup.
    + intros c es e Hin He.
      destruct (result_append_in _ _ _ _ _ _ Hin He) as [[-> ->]|(es0 & ? & ?)].
      * reflexivity.
      * eapply Hcol; eauto.
    + split; [assumption|]. split; [|assumption].
      eapply Permutation_trans; [apply H2|].
      eapply Permutation_trans;
        [apply Permutation_app_tail, result_append_perm|].
      rewrite <- app_assoc. apply Permutation_refl.
Qed.

Lemma read_model_spec m keys :
  NoDup (map fst (read_model m keys))
  /\ Permutation (concat (map snd (read_model m keys))) keys
  /\ (forall c es e, In (c, es) (read_model m keys) -> In e es ->
                     m (GateVar (fst e) (snd e)) = c).
Proof.
  unfold read_model.
  destruct (read_model_from m keys []) as (H1 & H2 & H3);
    [constructor|intros ? ? ? []|]. auto.
Qed.

Lemma result_append_truthy result c e : truthy (result_append result c e) = true.
Proof.
  destruct result as [|[c0 es] rest]; simpl; [reflexivity|].
  now destruct (c0 =? c)%Z.
Qed.

Lemma read_model_truthy m keys :
  truthy (read_model m keys) = negb (match keys with [] => true | _ => false end).
Proof.
  unfold read_model.
  assert (H : forall l result, truthy result = true ->
            truthy (fold_left (fun result e =>
              result_append result (m (GateVar (fst e) (snd e))) e) l result)
            = true).
  { induction l as [|k l IH]; simpl; intros result Hr; [assumption|].
    apply IH, result_append_truthy. }
  destruct keys as [|k keys]; simpl; [reflexivity|].
  apply H. reflexivity.
Qed.

(** ** Colourings and degrees *)

Lemma fold_max_le l b : (forall x, In x l -> x <= b) -> fold_right Nat.max 0 l <= b.
Proof.
  induction l as [|x l IH]; simpl; intros H; [lia|].
  apply Nat.max_lub; [apply H; auto|apply IH; auto].
Qed.

Lemma fold_max_ge l x : In x l -> x <= fold_right Nat.max 0 l.
Proof.
  induction l as [|y l IH]; simpl; [intros []|].
  intros [->|H]; [lia|]. specialize (IH H). lia.
Qed.

Lemma fold_max_in l : l <> [] -> In (fold_right Nat.max 0 l) l.
Proof.
  induction l as [|x l IH]; [congruence|]. intros _. simpl.
  destruct l as [|y l'].
  - left. simpl. lia.
  - destruct (Nat.max_spec x (fold_right Nat.max 0 (y :: l'))) as [[_ E]|[_ E]];
      rewrite E.
    + right. apply IH. discriminate.
    + now left.
Qed.

Lemma NoDup_bounded_length (l : list nat) b :
  NoDup l -> (forall x, In x l -> x < b) -> length l <= b.
Proof.
  intros Hnd Hb.
  rewrite <- (length_seq b 0) at 1. apply NoDup_incl_length; [assumption|].
  intros x Hx. apply in_seq. specialize (Hb x Hx). lia.
Qed.

Lemma in_neighbours adj u v :
  In v (neighbours adj u) <-> v < length adj /\ entry adj u v = 1%Z.
Proof.
  unfold neighbours. rewrite filter_In, in_seq, Z.eqb_eq. intuition lia.
Qed.

Lemma NoDup_neighbours adj u : NoDup (neighbours adj u).
Proof. apply NoDup_filter, seq_NoDup. Qed.

Section Colourings.

Variable adj : matrix.
Hypothesis Hsimple : simple_graph adj.

Lemma edge_key_in u v :
  u < length adj -> v < length adj -> entry adj u v = 1%Z ->
  In (Nat.max u v, Nat.min u v) (edge_list adj).
Proof.
  intros Hu Hv E. apply in_edge_list. unfold is_edge. simpl.
  assert (u <> v).
  { intros ->. rewrite (simple_diag adj Hsimple) in E by lia. discriminate. }
  destruct (Nat.lt_ge_cases u v).
  - rewrite Nat.max_r, Nat.min_l by lia. split; [lia|].
    now rewrite (simple_sym adj Hsimple) by lia.
  - rewrite Nat.max_l, Nat.min_r by lia. split; [lia|assumption].
Qed.

Lemma colour_in_range m d u v :
  in_range adj m d -> u < length adj -> v < length adj ->
  entry adj u v = 1%Z -> (0 <= colour m u v < d)%Z.
Proof.
  intros Hr Hu Hv E. apply (Hr (Nat.max u v, Nat.min u v)).
  now apply edge_key_in.
Qed.

(** A proper colouring with [d] colours needs [d] to be at least every
    degree. *)
Lemma degree_le_depth m d u :
  proper adj m -> in_range adj m d -> u < length adj ->
  degree adj u <= Z.to_nat d.
Proof.
  intros Hp Hr Hu. unfold degree.
  rewrite <- (length_map (fun v => Z.to_nat (colour m u v))).
  apply NoDup_bounded_length.
  - assert (H : forall l, NoDup l -> (forall v, In v l -> In v (neighbours adj u)) ->
              NoDup (map (fun v => Z.to_nat (colour m u v)) l)).
    { induction l as [|v l IH]; simpl; intros Hnd Hin; constructor.
      - inversion Hnd as [|? ? Hnin Hnd']; subst.
        intros Hc. apply in_map_iff in Hc as (w & Hw & Hwl).
        assert (Hv := Hin v (or_introl eq_refl)).
        assert (Hw' := Hin w (or_intror Hwl)).
        apply in_neighbours in Hv as [Hv Ev], Hw' as [Hw' Ew].
        assert (v <> w) by (intros ->; contradiction).
        assert (R1 := colour_in_range m d u v Hr Hu Hv Ev).
        assert (R2 := colour_in_range m d u w Hr Hu Hw' Ew).
        apply (Hp u v w); auto. lia.
      - inversion Hnd; subst. apply IH; auto. }
    apply H; [apply NoDup_neighbours|auto].
  - intros x Hx. apply in_map_iff in Hx as (v & <- & Hv).
    apply in_neighbours in Hv as [Hv Ev].
    assert (R := colour_in_range m d u v Hr Hu Hv Ev). lia.
Qed.

Lemma max_degree_le_depth m d :
  proper adj m -> in_range adj m d -> max_degree adj <= Z.to_nat d.
Proof.
  intros Hp Hr. unfold max_degree. apply fold_max_le.
  intros x Hx. apply in_map_iff in Hx as (u & <- & Hu).
  apply in_seq in Hu. apply degree_le_depth with m; auto. lia.
Qed.

Lemma lower_degree_le u : u <= length adj -> lower_degree adj u <= degree adj u.
Proof.
  intros Hu. unfold lower_degree, degree, neighbours.
  replace (length adj) with (u + (length adj - u)) by lia.
  rewrite seq_app, filter_app, length_app. lia.
Qed.

Lemma max_lower_degree_le : max_lower_degree adj <= max_degree adj.
Proof.
  unfold max_lower_degree. apply fold_max_le.
  intros x Hx. apply in_map_iff in Hx as (u & <- & Hu).
  apply in_seq in Hu.
  eapply Nat.le_trans; [apply lower_degree_le; lia|].
  unfold max_degree. apply fold_max_ge.
  apply in_map. apply in_seq. lia.
Qed.

Lemma sum_colouring_proper : proper adj (sum_colouring adj).
Proof.
  intros u v w Hu Hv Hw Hne _ _. unfold colour, sum_colouring.
  intros E. apply Nat2Z.inj in E.
  replace (Nat.max u v + Nat.min u v) with (u + v) in E by lia.
  replace (Nat.max u w + Nat.min u w) with (u + w) in E by lia.
  set (n := length adj) in *.
  assert (Hn : n <> 0) by lia.
  pose proof (Nat.div_mod (u + v) n Hn) as D1.
  pose proof (Nat.div_mod (u + w) n Hn) as D2.
  rewrite E in D1.
  assert (Hq : (u + v) / n = (u + w) / n \/ (u + v) / n < (u + w) / n
               \/ (u + w) / n < (u + v) / n) by lia.
  destruct Hq as [Hq|[Hq|Hq]]; [rewrite Hq in D1; lia|nia|nia].
Qed.

Lemma sum_colouring_in_range :
  in_range adj (sum_colouring adj) (Z.of_nat (length adj)).
Proof.
  intros e He. apply in_edge_list in He as [Hlt _]. simpl.
  assert (length adj <> 0) by lia.
  pose proof (Nat.mod_upper_bound (fst e + snd e) (length adj)). lia.
Qed.

End Colourings.

(** ** Renaming colours

    Symmetry breaking of the edge colouring encoder asks for particular
    colours around one node; any proper colouring can be renamed to
    comply, one transposition of colours per neighbour. *)

Lemma satisfies_ext m m' cs :
  (forall v, m v = m' v) -> satisfies m cs -> satisfies m' cs.
Proof.
  intros E. unfold satisfies. intros H.
  rewrite forallb_forall in *. intros c Hc. specialize (H c Hc).
  destruct c; simpl in *; now rewrite <- ?E.
Qed.

Lemma swap_renaming a b d :
  (0 <= a < d)%Z -> (0 <= b < d)%Z -> renaming (swap a b) d.
Proof.
  intros Ha Hb. split.
  - intros c Hc. unfold swap.
    destruct (c =? a)%Z; [lia|]. destruct (c =? b)%Z; lia.
  - intros x y Hx Hy. unfold swap.
    destruct (Z.eqb_spec x a), (Z.eqb_spec y a),
             (Z.eqb_spec x b), (Z.eqb_spec y b); lia.
Qed.

Lemma renaming_compose s1 s2 d :
  renaming s1 d -> renaming s2 d -> renaming (fun c => s2 (s1 c)) d.
Proof.
  intros [R1 I1] [R2 I2]. split.
  - intros c Hc. apply R2, R1, Hc.
  - intros a b Ha Hb E. apply I1; auto.
Qed.

Lemma biggest_cluster_range rows i st :
  let r := snd (edge_colouring.biggest_cluster rows i st) in
  r = snd st \/ (i <= r < i + Z.of_nat (length rows))%Z.
Proof.
  revert i st. induction rows as [|row rows IH]; intros i st; simpl.
  - now left.
  - destruct (IH (i + 1)%Z
                 (if (fst st <? edge_colouring.sum row)%Z
                  then (edge_colouring.sum row, i) else st)) as [E|R].
    + rewrite E. destruct (fst st <? edge_colouring.sum row)%Z; simpl.
      * right. lia.
      * now left.
    + right. lia.
Qed.

Lemma sum_nonneg row :
  Forall (fun x => (0 <= x)%Z) row -> (0 <= edge_colouring.sum row)%Z.
Proof.
  unfold edge_colouring.sum.
  assert (H : forall l acc, Forall (fun x => (0 <= x)%Z) l -> (0 <= acc)%Z ->
                            (0 <= fold_left Z.add l acc)%Z).
  { induction l as [|x l IH]; simpl; intros acc Hl Hacc; [assumption|].
    inversion Hl; subst. apply IH; auto. lia. }
  intros Hrow. apply H; [assumption|lia].
Qed.

Lemma biggest_cluster_first rows :
  0 < length rows -> (0 <= edge_colouring.sum (nth 0 rows []))%Z ->
  let r := snd (edge_colouring.biggest_cluster rows 0%Z (-1, -1)%Z) in
  (0 <= r < Z.of_nat (length rows))%Z.
Proof.
  destruct rows as [|row rows]; simpl; intros Hn Hrow; [lia|].
  replace (-1 <? edge_colouring.sum row)%Z with true
    by (symmetry; apply Z.ltb_lt; lia).
  pose proof (biggest_cluster_range rows 1%Z (edge_colouring.sum row, 0%Z))
    as H.
  cbv zeta in H. simpl snd in H.
  change (Z.pos (Pos.of_succ_nat (length rows)))
    with (Z.of_nat (S (length rows))).
  lia.
Qed.

Section Renaming.

Variable adj : matrix.
Hypothesis Hsimple : simple_graph adj.

Lemma relabel_valid sigma m d :
  renaming sigma d -> proper adj m -> in_range adj m d ->
  proper adj (relabel sigma m) /\ in_range adj (relabel sigma m) d.
Proof.
  intros [R I] Hp Hr. split.
  - intros u v w Hu Hv Hw Hne Euv Euw. unfold colour, relabel.
    intros E. apply I in E.
    + now apply (Hp u v w).
    + apply (colour_in_range adj Hsimple m d u v); auto.
    + apply (colour_in_range adj Hsimple m d u w); auto.
  - intros e He. simpl. apply R, Hr, He.
Qed.

Lemma biggest_cluster_index :
  0 < length adj ->
  let r := snd (edge_colouring.biggest_cluster adj 0%Z (-1, -1)%Z) in
  (0 <= r < Z.of_nat (length adj))%Z.
Proof.
  intros Hn. apply biggest_cluster_first; [assumption|].
  apply sum_nonneg. apply Forall_forall. intros x Hx.
  destruct (In_nth _ x 0%Z Hx) as (j & Hj & <-).
  rewrite (simple_rows adj Hsimple) in Hj by assumption.
  destruct (simple_01 adj Hsimple 0 j Hn Hj) as [E|E];
    unfold entry in E; rewrite E; lia.
Qed.

Lemma fix_colors_relabel d r row :
  r < length adj ->
  forall i color m,
    length row + i = length adj ->
    (forall p, p < length row -> nth p row 0%Z = entry adj r (i + p)) ->
    proper adj m -> in_range adj m d -> (0 <= color)%Z ->
    (forall v, v < i -> entry adj r v = 1%Z -> (0 <= colour m r v < color)%Z) ->
    (forall c, (0 <= c < color)%Z ->
               exists v, v < i /\ entry adj r v = 1%Z /\ colour m r v = c) ->
    exists sigma cs,
      renaming sigma d /\ (forall c, (c < color)%Z -> sigma c = c)
      /\ edge_colouring.fix_colors (edge_list adj) (Z.of_nat r) row i color
         = Ok cs
      /\ satisfies (relabel sigma m) cs.
Proof.
  intros Hr. induction row as [|value row IH];
    intros i color m Hlen Hrow Hp Hrange Hcolor Hlow Honto.
  - exists (fun c => c), []. split; [|split; [|split]].
    + split; auto.
    + auto.
    + reflexivity.
    + reflexivity.
  - simpl in Hlen.
    assert (Hi : i < length adj) by lia.
    assert (Hvalue : value = entry adj r i).
    { specialize (Hrow 0 ltac:(simpl; lia)). simpl in Hrow.
      now rewrite Nat.add_0_r in Hrow. }
    assert (Hrow' : forall p, p < length row ->
                              nth p row 0%Z = entry adj r (S i + p)).
    { intros p Hp'. specialize (Hrow (S p) ltac:(simpl; lia)). simpl in Hrow.
      rewrite Hrow. f_equal. lia. }
    simpl. destruct (value =? 1)%Z eqn:Ev; simpl.
    + apply Z.eqb_eq in Ev. rewrite Hvalue in Ev.
      assert (Hne : i <> r).
      { intros ->. rewrite (simple_diag adj Hsimple) in Ev by lia.
        discriminate. }
      set (x0 := colour m r i).
      assert (Hx0 : (0 <= x0 < d)%Z)
        by (apply (colour_in_range adj Hsimple); auto).
      assert (Hge : (color <= x0)%Z).
      { destruct (Z.lt_ge_cases x0 color) as [Hlt|]; [|assumption].
        destruct (Honto x0 ltac:(lia)) as (v & Hv & Erv & Ecol).
        exfalso. apply (Hp r v i); auto; lia. }
      set (tau := swap color x0).
      assert (Htau : renaming tau d) by (apply swap_renaming; lia).
      destruct (relabel_valid tau m d Htau Hp Hrange) as [Hp1 Hr1].
      destruct (IH (S i) (color + 1)%Z (relabel tau m)) as
          (sigma & cs & Hren & Hfix & Hcs & Hsat); auto; try lia.
      * intros v Hv Erv. change (colour (relabel tau m) r v)
          with (tau (colour m r v)).
        destruct (Nat.eq_dec v i) as [->|Hvi].
        -- fold x0. unfold tau, swap. destruct (Z.eqb_spec x0 color); [lia|].
           rewrite Z.eqb_refl. lia.
        -- specialize (Hlow v ltac:(lia) Erv). unfold tau, swap.
           destruct (Z.eqb_spec (colour m r v) color); [lia|].
           destruct (Z.eqb_spec (colour m r v) x0); lia.
      * intros c Hc. destruct (Z.eq_dec c color) as [->|Hcc].
        -- exists i. repeat split; [lia|assumption|].
           change (colour (relabel tau m) r i) with (tau x0).
           unfold tau, swap. destruct (Z.eqb_spec x0 color); [lia|].
           now rewrite Z.eqb_refl.
        -- destruct (Honto c ltac:(lia)) as (v & Hv & Erv & Ecol).
           exists v. repeat split; [lia|assumption|].
           change (colour (relabel tau m) r v) with (tau (colour m r v)).
           rewrite Ecol. unfold tau, swap.
           destruct (Z.eqb_spec c color); [lia|].
           destruct (Z.eqb_spec c x0); lia.
      * assert (Hsigma : forall c, (c < color)%Z -> sigma (tau c) = c).
        { intros c Hc. unfold tau, swap.
          destruct (Z.eqb_spec c color); [lia|].
          destruct (Z.eqb_spec c x0); [lia|]. apply Hfix. lia. }
        assert (Hx : exists x,
          (if (Z.of_nat i <? Z.of_nat r)%Z
           then lookup_var GateVar (edge_list adj) (Z.to_nat (Z.of_nat r), i)
           else if (Z.of_nat r <? 0)%Z then Raise KeyError
                else lookup_var GateVar (edge_list adj) (i, Z.to_nat (Z.of_nat r)))
          = Ok x /\ m x = x0 /\ exists a b, x = GateVar a b).
        { rewrite Nat2Z.id.
          destruct (Z.ltb_spec (Z.of_nat i) (Z.of_nat r)).
          - exists (GateVar r i). split; [|split].
            + rewrite lookup_var_ok; [reflexivity|].
              apply in_edge_list. split; simpl; [lia|assumption].
            + unfold x0. now rewrite colour_gt by lia.
            + eauto.
          - destruct (Z.ltb_spec (Z.of_nat r) 0); [lia|].
            exists (GateVar i r). split; [|split].
            + rewrite lookup_var_ok; [reflexivity|].
              apply in_edge_list. split; simpl; [lia|].
              now rewrite (simple_sym adj Hsimple) by lia.
            + unfold x0. now rewrite colour_lt by lia.
            + eauto. }
        destruct Hx as (x & Ex & Emx & a & b & Exab).
        exists (fun c => sigma (tau c)), (EqColor x color :: cs).
        split; [now apply renaming_compose|].
        split; [assumption|]. split.
        -- rewrite Ex. simpl. rewrite Hcs. reflexivity.
        -- unfold satisfies. simpl. apply andb_true_iff. split.
           ++ apply Z.eqb_eq. subst x. unfold relabel. rewrite Emx.
              unfold tau, swap. destruct (Z.eqb_spec x0 color) as [E|E].
              ** rewrite E. apply Hfix. lia.
              ** rewrite Z.eqb_refl. apply Hfix. lia.
           ++ eapply satisfies_ext; [|exact Hsat].
              intros [? ?|? ?]; reflexivity.
    + apply Z.eqb_neq in Ev. rewrite Hvalue in Ev.
      apply (IH (S i) color m); auto; try lia.
      * intros v Hv Erv. apply Hlow; [|assumption].
        assert (v <> i) by congruence. lia.
      * intros c Hc. destruct (Honto c Hc) as (v & ? & ? & ?).
        exists v. repeat split; auto.
Qed.

(** On a graph with a node, symmetry breaking produces assertions, and
    every proper colouring has a renaming that meets them. *)
Lemma ec_symmetry_breaking_relabel m d :
  0 < length adj -> proper adj m -> in_range adj m d ->
  exists m' cs,
    edge_colouring.symmetry_breaking adj (edge_list adj) = Ok cs
    /\ proper adj m' /\ in_range adj m' d /\ satisfies m' cs.
Proof.
  intros Hn Hp Hr. unfold edge_colouring.symmetry_breaking.
  pose proof (biggest_cluster_index Hn) as Hidx. simpl in Hidx.
  set (rz := snd (edge_colouring.biggest_cluster adj 0%Z (-1, -1)%Z)) in *.
  set (r := Z.to_nat rz).
  assert (Erz : rz = Z.of_nat r) by (unfold r; lia).
  assert (Hrn : r < length adj) by lia.
  assert (Eget : getitem adj rz = Ok (nth r adj [])).
  { unfold getitem. destruct (Z.ltb_spec rz 0); [lia|].
    unfold item. fold r. now rewrite (nth_error_nth' adj [] Hrn). }
  rewrite Eget. simpl. rewrite Erz.
  assert (H1 : length (nth r adj []) + 0 = length adj).
  { rewrite (simple_rows adj Hsimple) by assumption. lia. }
  assert (H2 : forall p, p < length (nth r adj []) ->
                         nth p (nth r adj []) 0%Z = entry adj r (0 + p)).
  { intros p _. reflexivity. }
  assert (H3 : forall v, v < 0 -> entry adj r v = 1%Z ->
                         (0 <= colour m r v < 0)%Z) by (intros; lia).
  assert (H4 : forall c, (0 <= c < 0)%Z ->
             exists v, v < 0 /\ entry adj r v = 1%Z /\ colour m r v = c)
    by (intros; lia).
  destruct (fix_colors_relabel d r (nth r adj []) Hrn 0 0%Z m
              H1 H2 Hp Hr (Z.le_refl 0) H3 H4)
    as (sigma & cs & Hren & _ & Hcs & Hsat).
  destruct (relabel_valid sigma m d Hren Hp Hr) as [Hp' Hr'].
  exists (relabel sigma m), cs. auto.
Qed.

End Renaming.

(** ** The scheduling instance on a simple graph *)

Lemma flat_map_flat_map {A B C} (f : B -> list C) (g : A -> list B) l :
  flat_map f (flat_map g l) = flat_map (fun x => flat_map f (g x)) l.
Proof.
  induction l as [|a l IH]; simpl; [reflexivity|].
  now rewrite flat_map_app, IH.
Qed.

Lemma cz_gates_of_declared adj :
  sat_solver.cz_gates_of (ds_declared_pure adj) = edge_list adj.
Proof.
  unfold sat_solver.cz_gates_of, ds_declared_pure, edge_list.
  rewrite flat_map_flat_map. apply flat_map_ext. intros i.
  rewrite flat_map_flat_map. apply flat_map_ext. intros j.
  now destruct (_ =? _)%Z.
Qed.

Lemma identities_of_declared adj :
  sat_solver.identities_of (ds_declared_pure adj) = non_edge_list adj.
Proof.
  unfold sat_solver.identities_of, ds_declared_pure, non_edge_list.
  rewrite flat_map_flat_map. apply flat_map_ext. intros i.
  rewrite flat_map_flat_map. apply flat_map_ext. intros j.
  now destruct (_ =? _)%Z.
Qed.

Lemma in_non_edge_list adj i j :
  j < i < length adj -> entry adj i j <> 1%Z -> In (i, j) (non_edge_list adj).
Proof.
  intros Hlt E. unfold non_edge_list.
  apply in_flat_map. exists i. split; [apply in_seq; lia|].
  apply in_flat_map. exists j. split; [apply in_seq; lia|].
  apply Z.eqb_neq in E. rewrite E. now left.
Qed.

Section SchedulingInstance.

Variable adj : matrix.
Hypothesis Hsimple : simple_graph adj.

Lemma ds_declare_vars_ok : sat_solver.declare_vars adj = Ok (ds_declared_pure adj).
Proof.
  unfold sat_solver.declare_vars, ds_declared_pure.
  apply for_range_pure. intros i Hi.
  apply for_range_pure. intros j Hj.
  rewrite (simple_cell adj Hsimple) by lia. simpl.
  now destruct (_ =? _)%Z.
Qed.

Ltac key_edge := apply in_edge_list; split; simpl; [lia|auto].
Ltac key_idle := apply in_non_edge_list; [lia|auto].

Lemma ds_conflicts_ok :
  sat_solver.conflicts adj (edge_list adj) (non_edge_list adj)
  = Ok (ds_conflicts_pure adj).
Proof.
  unfold sat_solver.conflicts, ds_conflicts_pure.
  apply for_range_pure. intros i Hi.
  apply for_range_pure. intros j Hj.
  rewrite (simple_cell adj Hsimple) by lia. simpl.
  destruct (entry adj i j =? 1)%Z eqn:Eij; [|reflexivity].
  apply Z.eqb_eq in Eij.
  assert (Kij : In (i, j) (edge_list adj)) by key_edge.
  rewrite (for_range_pure j _ (fun k =>
            if (entry adj i k =? 1)%Z
            then [Neq (GateVar i j) (GateVar i k)]
            else [Neq (GateVar i j) (IdVar i k)])).
  2:{ intros k Hk. rewrite (simple_cell adj Hsimple) by lia. simpl.
      rewrite (lookup_var_ok _ _ _ Kij). simpl.
      destruct (entry adj i k =? 1)%Z eqn:Eik.
      - apply Z.eqb_eq in Eik. rewrite lookup_var_ok; [reflexivity|key_edge].
      - apply Z.eqb_neq in Eik. rewrite lookup_var_ok; [reflexivity|key_idle]. }
  simpl.
  rewrite (for_range_pure i _ (fun k =>
            if k =? j then []
            else if (entry adj j k =? 1)%Z then
              if k <? j then [Neq (GateVar i j) (GateVar j k)]
              else [Neq (GateVar i j) (GateVar k j)]
            else
              if k <? j then [Neq (GateVar i j) (IdVar j k)]
              else [Neq (GateVar i j) (IdVar k j)])).
  2:{ intros k Hk. destruct (Nat.eqb_spec k j) as [|Hkj]; [reflexivity|].
      rewrite (simple_cell adj Hsimple) by lia. simpl.
      rewrite (lookup_var_ok _ _ _ Kij). simpl.
      assert (Esym : entry adj k j = entry adj j k)
        by (apply (simple_sym adj Hsimple); lia).
      destruct (entry adj j k =? 1)%Z eqn:Ejk;
        [apply Z.eqb_eq in Ejk|apply Z.eqb_neq in Ejk];
        destruct (Nat.ltb_spec k j);
        (rewrite lookup_var_ok; [reflexivity|]);
        solve [key_edge; congruence | key_idle; congruence]. }
  reflexivity.
Qed.

Lemma ds_symmetry_ok :
  sat_solver.symmetry_breaking adj (edge_list adj) (non_edge_list adj)
  = Ok (ds_symmetry_pure adj).
Proof.
  unfold sat_solver.symmetry_breaking, ds_symmetry_pure.
  apply for_range_pure. intros i Hi.
  apply for_range_pure. intros j Hj.
  rewrite (simple_cell adj Hsimple) by lia. simpl.
  destruct (entry adj i j =? 1)%Z eqn:Eij; [|reflexivity].
  apply Z.eqb_eq in Eij.
  assert (Kij : In (i, j) (edge_list adj)) by key_edge.
  rewrite (for_range_pure j _ (fun k =>
            if negb (entry adj i k =? 1)%Z
            then [Lt (GateVar i j) (IdVar i k)] else [])).
  2:{ intros k Hk. rewrite (simple_cell adj Hsimple) by lia. simpl.
      destruct (entry adj i k =? 1)%Z eqn:Eik; [reflexivity|]. simpl.
      rewrite (lookup_var_ok _ _ _ Kij). simpl.
      apply Z.eqb_neq in Eik. rewrite lookup_var_ok; [reflexivity|key_idle]. }
  simpl.
  rewrite (for_range_pure i _ (fun k =>
            if k =? j then []
            else if negb (entry adj j k =? 1)%Z then
              if k <? j then [Lt (GateVar i j) (IdVar j k)]
              else [Lt (GateVar i j) (IdVar k j)]
            else [])).
  2:{ intros k Hk. destruct (Nat.eqb_spec k j) as [|Hkj]; [reflexivity|].
      rewrite (simple_cell adj Hsimple) by lia. simpl.
      assert (Esym : entry adj k j = entry adj j k)
        by (apply (simple_sym adj Hsimple); lia).
      destruct (entry adj j k =? 1)%Z eqn:Ejk; [reflexivity|]. simpl.
      rewrite (lookup_var_ok _ _ _ Kij). simpl.
      apply Z.eqb_neq in Ejk.
      destruct (Nat.ltb_spec k j);
        (rewrite lookup_var_ok; [reflexivity|]);
        key_idle; congruence. }
  reflexivity.
Qed.

End SchedulingInstance.

Section SchedulingSemantics.

Variable adj : matrix.
Hypothesis Hsimple : simple_graph adj.

Ltac pick i := apply in_flat_map; exists i; split; [apply in_seq; lia|].

Lemma ds_conflicts_sound m :
  satisfies m (ds_conflicts_pure adj) -> proper adj m.
Proof.
  intros Hsat. rewrite satisfies_forall in Hsat.
  assert (main : forall u v w, u < length adj -> v < length adj ->
            w < length adj -> v < w ->
            entry adj u v = 1%Z -> entry adj u w = 1%Z ->
            colour m u v <> colour m u w).
  { intros u v w Hu Hv Hw Hvw Euv Euw.
    assert (u <> v) by (intros ->; rewrite (simple_diag adj Hsimple) in Euv by lia; discriminate).
    assert (u <> w) by (intros ->; rewrite (simple_diag adj Hsimple) in Euw by lia; discriminate).
    assert (Ewu : entry adj w u = 1%Z) by (rewrite (simple_sym adj Hsimple) by lia; assumption).
    destruct (Nat.lt_ge_cases w u) as [Hwu|Hwu].
    - rewrite !colour_gt by lia.
      assert (Hc : holdsb m (Neq (GateVar u w) (GateVar u v)) = true).
      { apply Hsat. unfold ds_conflicts_pure. pick u. pick w.
        rewrite Euw. simpl. apply in_or_app. left. pick v.
        rewrite Euv. now left. }
      simpl in Hc. apply negb_true_iff, Z.eqb_neq in Hc. congruence.
    - destruct (Nat.lt_ge_cases v u) as [Hvu|Hvu].
      + rewrite (colour_gt m u v), (colour_lt m u w) by lia.
        assert (Hc : holdsb m (Neq (GateVar w u) (GateVar u v)) = true).
        { apply Hsat. unfold ds_conflicts_pure. pick w. pick u.
          rewrite Ewu. simpl. apply in_or_app. right. pick v.
          replace (v =? u) with false by (symmetry; apply Nat.eqb_neq; lia).
          rewrite Euv.
          replace (v <? u) with true by (symmetry; apply Nat.ltb_lt; lia).
          now left. }
        simpl in Hc. apply negb_true_iff, Z.eqb_neq in Hc. congruence.
      + rewrite !colour_lt by lia.
        assert (Hc : holdsb m (Neq (GateVar w u) (GateVar v u)) = true).
        { apply Hsat. unfold ds_conflicts_pure. pick w. pick u.
          rewrite Ewu. simpl. apply in_or_app. right. pick v.
          replace (v =? u) with false by (symmetry; apply Nat.eqb_neq; lia).
          rewrite Euv.
          replace (v <? u) with false by (symmetry; apply Nat.ltb_ge; lia).
          now left. }
        simpl in Hc. apply negb_true_iff, Z.eqb_neq in Hc. congruence. }
  intros u v w Hu Hv Hw Hne Euv Euw.
  destruct (Nat.lt_ge_cases v w).
  - now apply main.
  - intros E. apply (main u w v); auto; lia.
Qed.

Lemma ds_bounds_sound m d :
  satisfies m (sat_solver.declare_bounds d (ds_declared_pure adj)) ->
  in_range adj m d.
Proof.
  intros Hsat e He. rewrite satisfies_forall in Hsat.
  apply in_edge_list in He as [Hlt E]. destruct e as [i j]. simpl in *.
  assert (Hin : In (GateVar i j) (ds_declared_pure adj)).
  { unfold ds_declared_pure. pick i. pick j. rewrite E. now left. }
  assert (H1 := Hsat (Ge0 (GateVar i j))).
  assert (H2 := Hsat (LtDepth (GateVar i j) d)).
  simpl in H1, H2. rewrite Z.leb_le in H1. rewrite Z.ltb_lt in H2.
  split; [apply H1|apply H2]; unfold sat_solver.declare_bounds;
    apply in_flat_map; exists (GateVar i j); simpl; auto.
Qed.

Lemma ds_complete m d top sb :
  proper adj m -> in_range adj m d -> (d <= top)%Z -> (0 <= top)%Z ->
  satisfies (with_idle top m)
            (sat_solver.declare_bounds d (ds_declared_pure adj)
             ++ ds_conflicts_pure adj
             ++ (if sb : bool then ds_symmetry_pure adj else [])).
Proof.
  intros Hp Hr Hd Htop.
  assert (Hgate : forall i j, j < i < length adj -> entry adj i j = 1%Z ->
                              (0 <= m (GateVar i j) < d)%Z).
  { intros i j Hlt E. apply (Hr (i, j)). apply in_edge_list. now split. }
  apply satisfies_app. split; [|apply satisfies_app; split].
  - apply satisfies_forall. intros c Hc.
    unfold sat_solver.declare_bounds in Hc.
    apply in_flat_map in Hc as (v & Hv & Hc).
    unfold ds_declared_pure in Hv.
    apply in_flat_map in Hv as (i & Hi & Hv). apply in_seq in Hi.
    apply in_flat_map in Hv as (j & Hj & Hv). apply in_seq in Hj.
    destruct (Z.eqb_spec (entry adj i j) 1) as [E|E];
      destruct Hv as [<-|[]].
    + specialize (Hgate i j ltac:(lia) E).
      destruct Hc as [<-|[<-|[]]]; simpl;
        [apply Z.leb_le|apply Z.ltb_lt]; lia.
    + destruct Hc as [<-|[]]. simpl. apply Z.leb_le. lia.
  - apply satisfies_forall. intros c Hc.
    unfold ds_conflicts_pure in Hc.
    apply in_flat_map in Hc as (i & Hi & Hc). apply in_seq in Hi.
    apply in_flat_map in Hc as (j & Hj & Hc). apply in_seq in Hj.
    destruct (Z.eqb_spec (entry adj i j) 1) as [Eij|Eij]; [|contradiction].
    specialize (Hgate i j ltac:(lia) Eij).
    apply in_app_or in Hc as [Hc|Hc];
      apply in_flat_map in Hc as (k & Hk & Hc); apply in_seq in Hk.
    + destruct (Z.eqb_spec (entry adj i k) 1) as [Eik|Eik];
        destruct Hc as [<-|[]]; simpl; apply negb_true_iff, Z.eqb_neq.
      * rewrite <- (colour_gt m i j), <- (colour_gt m i k) by lia.
        apply Hp; auto; lia.
      * lia.
    + destruct (Nat.eqb_spec k j) as [|Hkj]; [contradiction|].
      assert (Eji : entry adj j i = 1%Z)
        by (rewrite (simple_sym adj Hsimple) by lia; assumption).
      destruct (Z.eqb_spec (entry adj j k) 1) as [Ejk|Ejk];
        destruct (Nat.ltb_spec k j);
        destruct Hc as [<-|[]]; simpl; apply negb_true_iff, Z.eqb_neq;
        try lia.
      * rewrite <- (colour_lt m j i), <- (colour_gt m j k) by lia.
        apply Hp; auto; lia.
      * rewrite <- (colour_lt m j i), <- (colour_lt m j k) by lia.
        apply Hp; auto; lia.
  - destruct sb; [|reflexivity].
    apply satisfies_forall. intros c Hc.
    unfold ds_symmetry_pure in Hc.
    apply in_flat_map in Hc as (i & Hi & Hc). apply in_seq in Hi.
    apply in_flat_map in Hc as (j & Hj & Hc). apply in_seq in Hj.
    destruct (Z.eqb_spec (entry adj i j) 1) as [Eij|Eij]; [|contradiction].
    specialize (Hgate i j ltac:(lia) Eij).
    apply in_app_or in Hc as [Hc|Hc];
      apply in_flat_map in Hc as (k & Hk & Hc); apply in_seq in Hk.
    + destruct (entry adj i k =? 1)%Z; simpl in Hc; [contradiction|].
      destruct Hc as [<-|[]]. simpl. apply Z.ltb_lt. lia.
    + destruct (k =? j); [contradiction|].
      destruct (entry adj j k =? 1)%Z; simpl in Hc; [contradiction|].
      destruct (k <? j); destruct Hc as [<-|[]]; simpl; apply Z.ltb_lt; lia.
Qed.

End SchedulingSemantics.

(** ** What the two encoders have in common *)

Section Encoders.

Variable adj : matrix.
Hypothesis Hsimple : simple_graph adj.

Lemma encode_sound s d sb inst :
  encode s adj d sb = Ok inst ->
  gate_keys inst = edge_list adj
  /\ forall m, satisfies m (assertions inst) ->
               proper adj m /\ in_range adj m d.
Proof.
  destruct s; simpl.
  - unfold edge_colouring.encode.
    rewrite (ec_declare_keys_ok adj Hsimple). simpl.
    rewrite (ec_conflicts_ok adj Hsimple). simpl.
    destruct (if sb then _ else _) as [cs| |]; simpl; try discriminate.
    intros H. inversion H; subst; clear H. simpl. split; [reflexivity|].
    intros m Hm. apply satisfies_app in Hm as [Hb Hm].
    apply satisfies_app in Hm as [Hc _]. split.
    + now apply ec_conflicts_sound.
    + now apply declare_bounds_iff.
  - unfold sat_solver.encode.
    rewrite (ds_declare_vars_ok adj Hsimple). simpl.
    rewrite cz_gates_of_declared, identities_of_declared.
    rewrite (ds_conflicts_ok adj Hsimple). simpl.
    destruct (if sb then _ else _) as [cs| |]; simpl; try discriminate.
    intros H. inversion H; subst; clear H. simpl. split; [reflexivity|].
    intros m Hm. apply satisfies_app in Hm as [Hb Hm].
    apply satisfies_app in Hm as [Hc _]. split.
    + now apply ds_conflicts_sound.
    + now apply ds_bounds_sound.
Qed.

Lemma encode_complete s d sb :
  0 < length adj -> colourable adj d -> satisfiable s adj d sb.
Proof.
  intros Hn (m & Hp & Hr). unfold satisfiable. destruct s; simpl.
  - unfold edge_colouring.encode.
    rewrite (ec_declare_keys_ok adj Hsimple). simpl.
    rewrite (ec_conflicts_ok adj Hsimple). simpl.
    destruct sb.
    + destruct (ec_symmetry_breaking_relabel adj Hsimple m d Hn Hp Hr)
        as (m' & cs & Ecs & Hp' & Hr' & Hsat).
      rewrite Ecs. simpl. eexists. exists m'. split; [reflexivity|]. simpl.
      apply satisfies_app. split; [now apply declare_bounds_iff|].
      apply satisfies_app. split; [now apply ec_conflicts_complete|assumption].
    + simpl. eexists. exists m. split; [reflexivity|]. simpl.
      apply satisfies_app. split; [now apply declare_bounds_iff|].
      apply satisfies_app. split; [now apply ec_conflicts_complete|reflexivity].
  - unfold sat_solver.encode.
    rewrite (ds_declare_vars_ok adj Hsimple). simpl.
    rewrite cz_gates_of_declared, identities_of_declared.
    rewrite (ds_conflicts_ok adj Hsimple). simpl.
    assert (Esb : (if sb
                   then sat_solver.symmetry_breaking adj (edge_list adj)
                          (non_edge_list adj)
                   else Ok [])
                  = Ok (if sb then ds_symmetry_pure adj else [])).
    { destruct sb; [apply (ds_symmetry_ok adj Hsimple)|reflexivity]. }
    rewrite Esb. simpl.
    eexists. exists (with_idle (Z.max d 0) m). split; [reflexivity|]. simpl.
    apply ds_complete; auto; lia.
Qed.

(** On a graph with a node the encoders do not raise, whatever the depth. *)
Lemma encode_total s d sb :
  0 < length adj -> exists inst, encode s adj d sb = Ok inst.
Proof.
  intros Hn. destruct s; simpl.
  - unfold edge_colouring.encode.
    rewrite (ec_declare_keys_ok adj Hsimple). simpl.
    rewrite (ec_conflicts_ok adj Hsimple). simpl.
    destruct sb; [|simpl; eauto].
    destruct (ec_symmetry_breaking_relabel adj Hsimple
                (sum_colouring adj) (Z.of_nat (length adj)) Hn
                (sum_colouring_proper adj)
                (sum_colouring_in_range adj))
      as (m' & cs & Ecs & _).
    rewrite Ecs. simpl. eauto.
  - destruct (encode_complete DirectScheduling (Z.of_nat (length adj)) sb Hn)
      as (inst & _ & E & _).
    { exists (sum_colouring adj). split;
        [apply sum_colouring_proper|apply sum_colouring_in_range]. }
    revert E. simpl. unfold sat_solver.encode.
    destruct (sat_solver.declare_vars adj); simpl; try discriminate.
    destruct (sat_solver.conflicts adj _ _); simpl; try discriminate.
    destruct (if sb then _ else _); simpl; try discriminate.
    eauto.
Qed.

(** The two strategies, with or without symmetry breaking, accept exactly
    the depths at which the graph can be coloured. *)
Lemma satisfiable_iff_colourable s d sb :
  0 < length adj -> satisfiable s adj d sb <-> colourable adj d.
Proof.
  intros Hn. split.
  - intros (inst & m & E & Hsat). exists m.
    now apply (encode_sound s d sb inst E).
  - now apply encode_complete.
Qed.

Lemma colourable_mono d1 d2 :
  (d1 <= d2)%Z -> colourable adj d1 -> colourable adj d2.
Proof.
  intros Hd (m & Hp & Hr). exists m. split; [assumption|].
  intros e He. specialize (Hr e He). lia.
Qed.

Lemma colourable_nodes : colourable adj (Z.of_nat (length adj)).
Proof.
  exists (sum_colouring adj). split;
    [apply sum_colouring_proper|apply sum_colouring_in_range].
Qed.

Lemma colourable_degree d :
  colourable adj d -> max_degree adj <= Z.to_nat d.
Proof.
  intros (m & Hp & Hr). now apply (max_degree_le_depth adj Hsimple m).
Qed.

Lemma proper_edges m e1 e2 :
  proper adj m -> In e1 (edge_list adj) -> In e2 (edge_list adj) ->
  e1 <> e2 -> share_node e1 e2 ->
  m (GateVar (fst e1) (snd e1)) <> m (GateVar (fst e2) (snd e2)).
Proof.
  intros Hp H1 H2 Hne Hshare.
  apply in_edge_list in H1 as [L1 E1], H2 as [L2 E2].
  destruct e1 as [i1 j1], e2 as [i2 j2]. simpl in *.
  assert (S1 : entry adj j1 i1 = 1%Z)
    by (rewrite (simple_sym adj Hsimple) by lia; assumption).
  assert (S2 : entry adj j2 i2 = 1%Z)
    by (rewrite (simple_sym adj Hsimple) by lia; assumption).
  unfold share_node in Hshare. simpl in Hshare.
  destruct Hshare as [E|[E|[E|E]]].
  - rewrite <- (colour_gt m i1 j1), <- E, <- (colour_gt m i1 j2) by lia.
    apply Hp; auto; try lia; congruence.
  - rewrite <- (colour_gt m i1 j1), <- (colour_lt m j2 i2), <- E by lia.
    apply Hp; auto; try lia; congruence.
  - rewrite <- (colour_lt m j1 i1), <- (colour_gt m i2 j2), <- E by lia.
    apply Hp; auto; try lia; congruence.
  - rewrite <- (colour_lt m j1 i1), <- (colour_lt m j2 i2), <- E by lia.
    apply Hp; auto; try lia; congruence.
Qed.

(** What a model read back from the solver looks like. *)
Lemma read_model_partitions m d :
  proper adj m -> in_range adj m d ->
  partitions_edges adj (read_model m (edge_list adj)).
Proof.
  intros Hp Hr.
  destruct (read_model_spec m (edge_list adj)) as (H1 & H2 & H3).
  split; [assumption|]. split; [assumption|].
  intros c es e1 e2 Hin He1 He2 Hne Hshare.
  assert (In1 : In e1 (edge_list adj)).
  { eapply Permutation_in; [exact H2|].
    apply in_concat. exists es. split; [|assumption].
    apply in_map_iff. exists (c, es). auto. }
  assert (In2 : In e2 (edge_list adj)).
  { eapply Permutation_in; [exact H2|].
    apply in_concat. exists es. split; [|assumption].
    apply in_map_iff. exists (c, es). auto. }
  apply (proper_edges m e1 e2 Hp In1 In2 Hne Hshare).
  rewrite (H3 c es e1 Hin He1), (H3 c es e2 Hin He2). reflexivity.
Qed.

End Encoders.

(** ** The encoder as the searches see it *)

Lemma edge_list_nodes adj : edge_list adj <> [] -> 0 < length adj.
Proof.
  intros H. destruct adj; [|simpl; lia]. now elim H.
Qed.

Lemma colourable_positive adj d :
  edge_list adj <> [] -> colourable adj d -> (0 < d)%Z.
Proof.
  intros He (m & _ & Hr). destruct (edge_list adj) as [|e l] eqn:E;
    [congruence|].
  unfold in_range in Hr. rewrite E in Hr.
  specialize (Hr e (or_introl eq_refl)). lia.
Qed.

Section Synthesis.

Variable s : strategy.
Variable check : solver.
Variable adj : matrix.
Hypothesis Hsimple : simple_graph adj.
Hypothesis Hedges : edge_list adj <> [].
Hypothesis Hcheck : oracle_ok s check adj.

Lemma synthesis_spec d sb :
  _synthesis s check adj d sb = Ok (answer s check adj sb d)
  /\ (truthy (answer s check adj sb d) = true <-> colourable adj d)
  /\ (truthy (answer s check adj sb d) = true ->
      partitions_edges adj (answer s check adj sb d)).
Proof.
  pose proof (edge_list_nodes adj Hedges) as Hn.
  destruct (encode_total adj Hsimple s d sb Hn) as (inst & Einst).
  destruct (encode_sound adj Hsimple s d sb inst Einst) as (Ekeys & Hsound).
  pose proof (Hcheck d sb inst Einst) as Hok.
  unfold answer, _synthesis. rewrite Einst. simpl.
  split; [reflexivity|].
  unfold solve, solver_answer_ok in *. rewrite Ekeys.
  destruct (check (assertions inst)) as [m|].
  - destruct (Hsound m Hok) as [Hp Hr]. split.
    + split; [intros _; now exists m|intros _].
      rewrite read_model_truthy.
      destruct (edge_list adj); [congruence|reflexivity].
    + intros _. now apply (read_model_partitions adj Hsimple m d).
  - split; [|discriminate]. split; [discriminate|].
    intros Hcol. exfalso.
    destruct (encode_complete adj Hsimple s d sb Hn Hcol)
      as (inst' & m & E' & Hsat).
    rewrite Einst in E'. inversion E'; subst. now apply (Hok m).
Qed.

(** The least number of colours. *)
Lemma least_depth :
  exists chi, (0 < chi <= Z.of_nat (length adj))%Z
              /\ forall d, colourable adj d <-> (chi <= d)%Z.
Proof.
  assert (Hdec : forall d, colourable adj d \/ ~ colourable adj d).
  { intros d. destruct (synthesis_spec d false) as (_ & H & _).
    destruct (truthy (answer s check adj false d)).
    - left. now apply H.
    - right. intros Hc. apply H in Hc. discriminate. }
  assert (Hsearch : forall k lo, colourable adj (lo + Z.of_nat k) ->
            exists chi, (lo <= chi <= lo + Z.of_nat k)%Z /\ colourable adj chi
                        /\ forall d, (lo <= d < chi)%Z -> ~ colourable adj d).
  { induction k as [|k IH]; intros lo Hk.
    - exists lo. rewrite Z.add_0_r in Hk.
      split; [lia|]. split; [assumption|]. intros d Hd. lia.
    - destruct (Hdec lo) as [Hlo|Hlo].
      + exists lo. split; [lia|]. split; [assumption|]. intros d Hd. lia.
      + destruct (IH (lo + 1)%Z) as (chi & Hr & Hc & Hleast).
        { replace (lo + 1 + Z.of_nat k)%Z with (lo + Z.of_nat (S k))%Z by lia.
          assumption. }
        exists chi. split; [lia|]. split; [assumption|].
        intros d Hd. destruct (Z.eq_dec d lo) as [->|]; [assumption|].
        apply Hleast. lia. }
  destruct (Hsearch (length adj) 0%Z) as (chi & Hr & Hc & Hleast).
  { apply (colourable_nodes adj). }
  exists chi. split.
  - pose proof (colourable_positive adj chi Hedges Hc). lia.
  - intros d. split.
    + intros Hd. destruct (Z.le_gt_cases chi d) as [|Hlt]; [assumption|].
      exfalso. apply (Hleast d); [|assumption].
      pose proof (colourable_positive adj d Hedges Hd). lia.
    + intros Hd. apply (colourable_mono adj chi d); assumption.
Qed.

End Synthesis.

(** ** The two searches *)

Lemma py_range_nil lo hi : (hi <= lo)%Z -> py_range lo hi = [].
Proof.
  intros H. unfold py_range. now replace (Z.to_nat (hi - lo)) with 0 by lia.
Qed.

Lemma py_range_cons lo hi :
  (lo < hi)%Z -> py_range lo hi = lo :: py_range (lo + 1) hi.
Proof.
  intros H. unfold py_range.
  replace (Z.to_nat (hi - lo)) with (S (Z.to_nat (hi - (lo + 1)))) by lia.
  simpl. f_equal; [lia|].
  rewrite <- seq_shift, map_map. apply map_ext. intros k. lia.
Qed.

Lemma py_range_length lo hi : length (py_range lo hi) = Z.to_nat (hi - lo).
Proof. unfold py_range. now rewrite length_map, length_seq. Qed.

Lemma cache_get_set c d m d' :
  cache_get (cache_set c d m) d'
  = if (d =? d')%Z then Some m else cache_get c d'.
Proof.
  induction c as [|[d0 m0] c IH]; simpl.
  - reflexivity.
  - destruct (Z.eqb_spec d0 d) as [->|Hne]; simpl.
    + destruct (d =? d')%Z; reflexivity.
    + rewrite IH. destruct (Z.eqb_spec d0 d'), (Z.eqb_spec d d');
        try reflexivity; lia.
Qed.

Section Loops.

Variable s : strategy.
Variable check : solver.
Variable adj : matrix.
Variable sb : bool.

(** The least depth at which the encoder answers with a non-empty mapping. *)
Variable chi : Z.

Let ans := answer s check adj sb.

Hypothesis Hans : forall d, _synthesis s check adj d sb = Ok (ans d).
Hypothesis Hchi : forall d, truthy (ans d) = true <-> (chi <= d)%Z.

Lemma ans_below d : (d < chi)%Z -> truthy (ans d) = false.
Proof.
  intros H. destruct (truthy (ans d)) eqn:E; [|reflexivity].
  apply Hchi in E. lia.
Qed.

Lemma ans_above d : (chi <= d)%Z -> truthy (ans d) = true.
Proof. intros H. now apply Hchi. Qed.

Lemma linear_loop_spec k :
  forall lo hi st,
    chi = (lo + Z.of_nat k)%Z -> (chi < hi)%Z ->
    linear_loop s check adj sb (py_range lo hi) st
    = Ok {| l_mapping := Dict (ans chi);
            l_depth := chi;
            l_solver_calls := (l_solver_calls st + Z.of_nat k + 1)%Z;
            l_probed := l_probed st ++ py_range lo (chi + 1) |}.
Proof.
  induction k as [|k IH]; intros lo hi st Echi Hhi.
  - assert (chi = lo) by lia. subst lo.
    rewrite py_range_cons by lia. simpl. rewrite Hans. simpl.
    rewrite ans_above by lia.
    rewrite (py_range_cons chi (chi + 1)) by lia.
    rewrite py_range_nil by lia.
    do 2 f_equal. lia.
  - rewrite py_range_cons by lia. simpl linear_loop. rewrite Hans.
    simpl bind. rewrite ans_below by lia.
    rewrite (IH (lo + 1)%Z) by lia. simpl.
    rewrite (py_range_cons lo (chi + 1)) by lia.
    rewrite <- app_assoc. simpl. do 2 f_equal. lia.
Qed.

Lemma probe_spec guard d c calls probed :
  consistent s check adj sb c ->
  exists c' calls' probed',
    probe s check adj sb guard d (c, calls, probed) = Ok (c', calls', probed')
    /\ consistent s check adj sb c'
    /\ (forall d', cache_get c d' <> None -> cache_get c' d' <> None)
    /\ (guard = true -> cache_get c' d <> None)
    /\ (calls' - Z.of_nat (length probed')
        = calls - Z.of_nat (length probed))%Z.
Proof.
  intros Hc. unfold probe.
  destruct guard; simpl.
  - destruct (cache_get c d) as [mp|] eqn:E.
    + exists c, calls, probed. repeat split; auto.
      intros _. congruence.
    + rewrite Hans. simpl.
      exists (cache_set c d (ans d)), (calls + 1)%Z, (probed ++ [d]).
      split; [reflexivity|]. split; [|split; [|split]].
      * intros d' mp. rewrite cache_get_set.
        destruct (Z.eqb_spec d d') as [->|]; [|apply Hc].
        intros H. injection H as <-. reflexivity.
      * intros d'. rewrite cache_get_set.
        destruct (d =? d')%Z; [discriminate|auto].
      * intros _. rewrite cache_get_set, Z.eqb_refl. discriminate.
      * rewrite length_app. simpl. lia.
  - exists c, calls, probed. repeat split; auto. discriminate.
Qed.

Lemma cache_item_spec c d :
  consistent s check adj sb c -> cache_get c d <> None ->
  cache_item c d = Ok (ans d).
Proof.
  intros Hc Hd. unfold cache_item.
  destruct (cache_get c d) as [mp|] eqn:E; [|congruence].
  now rewrite (Hc d mp E).
Qed.

Lemma binary_loop_step fuel st :
  binary_loop s check adj sb (S fuel) st =
  (let cur := ((b_left st + b_right st) / 2)%Z in
   st1 <- probe s check adj sb true cur
            (b_cache st, b_solver_calls st, b_probed st) ;;
   st2 <- probe s check adj sb (negb (cur =? b_left st)%Z) (cur - 1)%Z st1 ;;
   let c2 := fst (fst st2) in
   mp <- cache_item c2 cur ;;
   let next l r :=
     {| b_left := l; b_right := r; b_cache := c2; b_mapping := mp;
        b_current := cur; b_solver_calls := snd (fst st2);
        b_probed := snd st2 |} in
   if negb (truthy mp) then
     binary_loop s check adj sb fuel (next (cur + 1)%Z (b_right st))
   else
     previous <- (if negb (cur =? b_left st)%Z
                  then cache_item c2 (cur - 1)%Z else Ok []) ;;
     if negb (cur =? b_left st)%Z && truthy previous then
       binary_loop s check adj sb fuel (next (b_left st) (cur - 1)%Z)
     else Ok (next (b_left st) (b_right st))).
Proof.
  cbn [binary_loop]. cbv zeta.
  destruct (probe s check adj sb true ((b_left st + b_right st) / 2)
              (b_cache st, b_solver_calls st, b_probed st))
    as [st1| |]; simpl bind; try reflexivity.
  destruct (probe s check adj sb
              (negb ((b_left st + b_right st) / 2 =? b_left st)%Z)
              ((b_left st + b_right st) / 2 - 1) st1)
    as [[[c2 calls2] probed2]| |]; reflexivity.
Qed.

Lemma binary_loop_spec fuel :
  forall st,
    (b_left st <= chi <= b_right st)%Z ->
    consistent s check adj sb (b_cache st) ->
    (b_right st - b_left st < Z.of_nat fuel)%Z ->
    exists st',
      binary_loop s check adj sb fuel st = Ok st'
      /\ b_current st' = chi
      /\ b_mapping st' = ans chi
      /\ (b_solver_calls st' - Z.of_nat (length (b_probed st'))
          = b_solver_calls st - Z.of_nat (length (b_probed st)))%Z.
Proof.
  induction fuel as [|fuel IH]; intros st Hb Hc Hfuel; [lia|].
  rewrite binary_loop_step. cbv zeta.
  set (cur := ((b_left st + b_right st) / 2)%Z).
  assert (Hcur : (b_left st <= cur <= b_right st)%Z).
  { unfold cur. split.
    - apply Z.div_le_lower_bound; lia.
    - apply Z.div_le_upper_bound; lia. }
  destruct (probe_spec true cur (b_cache st) (b_solver_calls st)
              (b_probed st) Hc)
    as (c1 & calls1 & probed1 & E1 & Hc1 & Hkeep1 & Hin1 & Hcount1).
  rewrite E1. cbn [bind].
  destruct (probe_spec (negb (cur =? b_left st)%Z) (cur - 1)%Z
              c1 calls1 probed1 Hc1)
    as (c2 & calls2 & probed2 & E2 & Hc2 & Hkeep2 & Hin2 & Hcount2).
  rewrite E2. cbn [bind]. cbn [fst snd].
  rewrite (cache_item_spec c2 cur Hc2) by (apply Hkeep2, Hin1; reflexivity).
  cbn [bind].
  destruct (truthy (ans cur)) eqn:Ecur; simpl negb; cbv iota.
  - apply Hchi in Ecur.
    destruct (Z.eqb_spec cur (b_left st)) as [Eleft|Hne]; simpl negb.
    + simpl. eexists. split; [reflexivity|]. simpl.
      split; [lia|]. split; [f_equal; lia|lia].
    + rewrite (cache_item_spec c2 (cur - 1)%Z Hc2)
        by (apply Hin2; reflexivity).
      cbn [bind]. simpl andb.
      destruct (truthy (ans (cur - 1)%Z)) eqn:Eprev.
      * apply Hchi in Eprev.
        destruct (IH {| b_left := b_left st; b_right := (cur - 1)%Z;
                        b_cache := c2; b_mapping := ans cur;
                        b_current := cur; b_solver_calls := calls2;
                        b_probed := probed2 |})
          as (st' & E' & H1 & H2 & H3); simpl; auto; try lia.
        rewrite E'. exists st'. split; [reflexivity|].
        split; [exact H1|]. split; [exact H2|]. simpl in H3. lia.
      * eexists. split; [reflexivity|]. simpl.
        assert (cur = chi).
        { destruct (Z.le_gt_cases chi (cur - 1)) as [Hle|]; [|lia].
          apply Hchi in Hle. congruence. }
        split; [assumption|]. split; [congruence|lia].
  - assert (Hlt : (cur < chi)%Z).
    { destruct (Z.lt_ge_cases cur chi) as [|Hge]; [assumption|].
      apply Hchi in Hge. congruence. }
    destruct (IH {| b_left := (cur + 1)%Z; b_right := b_right st;
                    b_cache := c2; b_mapping := ans cur;
                    b_current := cur; b_solver_calls := calls2;
                    b_probed := probed2 |})
      as (st' & E' & H1 & H2 & H3); simpl; auto; try lia.
    rewrite E'. exists st'. split; [reflexivity|].
    split; [exact H1|]. split; [exact H2|]. simpl in H3. lia.
Qed.

End Loops.

(** ** The first depth tried *)

Lemma fold_left_max_nat (f : nat -> nat) l acc :
  fold_left (fun a i => Z.max a (Z.of_nat (f i))) l acc
  = match l with
    | [] => acc
    | _ => Z.max acc (Z.of_nat (fold_right Nat.max 0 (map f l)))
    end.
Proof.
  revert acc. induction l as [|x l IH]; intros acc; [reflexivity|].
  simpl fold_left. rewrite IH. destruct l as [|y l']; simpl; lia.
Qed.

Section MinimumDepth.

Variable adj : matrix.
Hypothesis Hsimple : simple_graph adj.

Lemma count_connections i l acc :
  i < length adj -> (forall j, In j l -> j < length adj) ->
  fold_left (fun acc' j =>
               temp <- acc' ;;
               a <- cell adj i j ;;
               if (a =? 1)%Z then Ok (temp + 1)%Z else Ok temp)
            l (Ok acc)
  = Ok (acc + Z.of_nat (length (filter (fun j => (entry adj i j =? 1)%Z) l)))%Z.
Proof.
  intros Hi. revert acc. induction l as [|j l IH]; intros acc Hl; simpl.
  - f_equal. lia.
  - assert (Hj : j < length adj) by (apply Hl; now left).
    assert (Hl' : forall j', In j' l -> j' < length adj)
      by (intros j' Hj'; apply Hl; now right).
    rewrite (simple_cell adj Hsimple i j Hi Hj). cbn [bind].
    destruct (entry adj i j =? 1)%Z; rewrite (IH _ Hl'); f_equal;
      cbn [length]; lia.
Qed.

Lemma row_connections i :
  i < length adj ->
  fold_left (fun acc' j =>
               temp <- acc' ;;
               a <- cell adj i j ;;
               if (a =? 1)%Z then Ok (temp + 1)%Z else Ok temp)
            (seq 0 (i + 1)) (Ok 0%Z)
  = Ok (Z.of_nat (lower_degree adj i)).
Proof.
  intros Hi. rewrite count_connections; auto.
  - f_equal. unfold lower_degree. rewrite seq_app, filter_app. simpl.
    rewrite (simple_diag adj Hsimple) by assumption. simpl.
    now rewrite app_nil_r.
  - intros j Hj. apply in_seq in Hj. lia.
Qed.

Lemma max_outgoing_connections_spec :
  0 < length adj ->
  edge_colouring._max_outgoing_connections adj
  = Ok (Z.of_nat (max_lower_degree adj)).
Proof.
  intros Hn. unfold edge_colouring._max_outgoing_connections.
  assert (H : forall l acc, (forall i, In i l -> i < length adj) ->
    fold_left (fun acc0 i =>
      max_outgoing_connections <- acc0 ;;
      temp_connections <-
        fold_left (fun acc' j =>
                     temp <- acc' ;;
                     a <- cell adj i j ;;
                     if (a =? 1)%Z then Ok (temp + 1)%Z else Ok temp)
                  (seq 0 (i + 1)) (Ok 0%Z) ;;
      Ok (Z.max max_outgoing_connections temp_connections)) l (Ok acc)
    = Ok (fold_left (fun a i => Z.max a (Z.of_nat (lower_degree adj i))) l acc)).
  { induction l as [|i l IH]; intros acc Hl; simpl; [reflexivity|].
    rewrite row_connections by (apply Hl; now left). simpl.
    apply IH. intros i' Hi'. apply Hl. now right. }
  rewrite H by (intros i Hi; apply in_seq in Hi; lia).
  rewrite fold_left_max_nat. unfold max_lower_degree.
  destruct (seq 0 (length adj)) eqn:E.
  - apply (f_equal (@length nat)) in E. rewrite length_seq in E.
    simpl in E. lia.
  - f_equal. lia.
Qed.

(** The initial bounds of both searches enclose the least depth. *)
Lemma minimum_depth_spec s chi :
  edge_list adj <> [] -> colourable adj chi ->
  exists lo, minimum_depth s adj = Ok lo /\ (0 <= lo <= chi)%Z
             /\ lo = match s with
                     | EdgeColouring => Z.of_nat (max_lower_degree adj)
                     | DirectScheduling => 0%Z
                     end.
Proof.
  intros He Hc. pose proof (colourable_positive adj chi He Hc) as Hpos.
  destruct s; simpl.
  - exists (Z.of_nat (max_lower_degree adj)).
    split; [apply max_outgoing_connections_spec, edge_list_nodes, He|].
    split; [|reflexivity].
    pose proof (max_lower_degree_le adj).
    pose proof (colourable_degree adj Hsimple chi Hc). lia.
  - exists 0%Z. repeat split; lia.
Qed.

End MinimumDepth.

(** ** The materializer *)

Lemma circuit_cz_valid c e :
  circuit_cz c (fst e) (snd e)
  = if valid_edge (num_qubits c) e
    then Ok {| num_qubits := num_qubits c; name := name c;
               data := data c ++ [cz_gate (fst e) (snd e)] |}
    else Raise CircuitError.
Proof. reflexivity. Qed.

Lemma apply_edges_spec es :
  forall c,
    apply_edges c es
    = if forallb (valid_edge (num_qubits c)) es
      then Ok {| num_qubits := num_qubits c; name := name c;
                 data := data c ++ layer_gates es |}
      else Raise CircuitError.
Proof.
  induction es as [|e es IH]; intros c; cbn [apply_edges forallb].
  - simpl. rewrite app_nil_r. now destruct c.
  - rewrite circuit_cz_valid.
    destruct (valid_edge (num_qubits c) e); cbn [bind andb]; [|reflexivity].
    rewrite IH. cbn [num_qubits name data].
    destruct (forallb (valid_edge (num_qubits c)) es); [|reflexivity].
    simpl. now rewrite <- app_assoc.
Qed.

Lemma apply_layers_spec d :
  forall c,
    apply_layers c d
    = if valid_mapping (num_qubits c) d
      then Ok {| num_qubits := num_qubits c; name := name c;
                 data := data c
                         ++ flat_map (fun layer => layer_gates (snd layer)) d |}
      else Raise CircuitError.
Proof.
  unfold valid_mapping.
  induction d as [|layer d IH]; intros c; cbn [apply_layers forallb].
  - simpl. rewrite app_nil_r. now destruct c.
  - rewrite apply_edges_spec.
    destruct (forallb (valid_edge (num_qubits c)) (snd layer));
      cbn [bind andb]; [|reflexivity].
    rewrite IH. cbn [num_qubits name data].
    destruct (forallb _ d); [|reflexivity].
    simpl. now rewrite <- app_assoc.
Qed.

(** The materializer returns exactly when the graph has a node and every
    edge of the mapping joins two different nodes of the graph; it raises
    [CircuitError] otherwise. *)
Lemma materializer_result d adj :
  _map_synthesis_depth_optimal_mapping_to_qcircuit (Dict d) adj
  = if (0 <? length adj) && valid_mapping (length adj) d
    then Ok {| num_qubits := length adj;
               name := ("Depth optimal circuit of Graphstate g: "
                          ++ str_matrix adj)%string;
               data := map h_gate (seq 0 (length adj))
                       ++ flat_map (fun layer => layer_gates (snd layer)) d |}
    else Raise CircuitError.
Proof.
  unfold _map_synthesis_depth_optimal_mapping_to_qcircuit, circuit_h_range.
  cbn [num_qubits name data]. rewrite Nat.leb_refl, andb_true_r.
  destruct (0 <? length adj); cbn [bind andb]; [|reflexivity].
  rewrite apply_layers_spec. cbn [num_qubits name data app]. reflexivity.
Qed.

Lemma materializer_spec d adj :
  0 < length adj -> valid_mapping (length adj) d = true ->
  exists c,
    _map_synthesis_depth_optimal_mapping_to_qcircuit (Dict d) adj = Ok c
    /\ num_qubits c = length adj
    /\ name c = ("Depth optimal circuit of Graphstate g: "
                   ++ str_matrix adj)%string
    /\ data c = map h_gate (seq 0 (length adj))
                ++ flat_map (fun layer => layer_gates (snd layer)) d.
Proof.
  intros Hn Hv. rewrite materializer_result.
  apply Nat.ltb_lt in Hn. rewrite Hn, Hv. cbn [andb].
  eexists. split; [reflexivity|]. cbn. auto.
Qed.

Lemma materializer_returned d adj c :
  _map_synthesis_depth_optimal_mapping_to_qcircuit (Dict d) adj = Ok c ->
  num_qubits c = length adj
  /\ name c = ("Depth optimal circuit of Graphstate g: "
                 ++ str_matrix adj)%string
  /\ data c = map h_gate (seq 0 (length adj))
              ++ flat_map (fun layer => layer_gates (snd layer)) d.
Proof.
  rewrite materializer_result.
  destruct ((0 <? length adj) && valid_mapping (length adj) d);
    [|discriminate].
  intros H. injection H as <-. cbn. auto.
Qed.

(** With the list linear search starts from, the Hadamard layer is still
    built before [items] is looked up. *)
Lemma materializer_list adj :
  _map_synthesis_depth_optimal_mapping_to_qcircuit EmptyList adj
  = if 0 <? length adj then Raise AttributeError else Raise CircuitError.
Proof.
  unfold _map_synthesis_depth_optimal_mapping_to_qcircuit, circuit_h_range.
  cbn [num_qubits]. rewrite Nat.leb_refl, andb_true_r.
  now destruct (0 <? length adj).
Qed.

(** The layers of a mapping that holds the edges of the graph and nothing
    else are accepted by the circuit. *)
Lemma edges_valid adj mp :
  Permutation (concat (map snd mp)) (edge_list adj) ->
  valid_mapping (length adj) mp = true.
Proof.
  intros Hperm. unfold valid_mapping. apply forallb_forall. intros layer Hl.
  apply forallb_forall. intros e He.
  assert (Hin : In e (edge_list adj)).
  { apply (Permutation_in _ Hperm). apply in_concat.
    exists (snd layer). split; [now apply in_map|assumption]. }
  apply in_edge_list in Hin. destruct Hin as [Hlt _].
  unfold valid_edge.
  replace (fst e <? length adj) with true by (symmetry; apply Nat.ltb_lt; lia).
  replace (snd e <? length adj) with true by (symmetry; apply Nat.ltb_lt; lia).
  replace (fst e =? snd e) with false by (symmetry; apply Nat.eqb_neq; lia).
  reflexivity.
Qed.

Lemma materializer_edges mp adj :
  0 < length adj ->
  Permutation (concat (map snd mp)) (edge_list adj) ->
  exists c,
    _map_synthesis_depth_optimal_mapping_to_qcircuit (Dict mp) adj = Ok c
    /\ num_qubits c = length adj
    /\ name c = ("Depth optimal circuit of Graphstate g: "
                   ++ str_matrix adj)%string
    /\ data c = map h_gate (seq 0 (length adj))
                ++ flat_map (fun layer => layer_gates (snd layer)) mp.
Proof.
  intros Hn Hperm. apply materializer_spec; [assumption|].
  now apply edges_valid.
Qed.

(** Counting the gates of a circuit made of Hadamard and CZ gates. *)
Lemma count_gates_from (p : nat -> bool) l acc :
  fold_left (fun k ins => if p (length (qubits ins)) then (k + 1)%Z else k)
            l acc
  = (acc + Z.of_nat (length (filter (fun ins => p (length (qubits ins))) l)))%Z.
Proof.
  revert acc. induction l as [|ins l IH]; intros acc; simpl; [lia|].
  rewrite IH. destruct (p (length (qubits ins))); simpl; lia.
Qed.

Lemma filter_all {A} (p : A -> bool) l :
  (forall x, In x l -> p x = true) -> filter p l = l.
Proof.
  induction l as [|x l IH]; simpl; intros H; [reflexivity|].
  rewrite H by auto. f_equal. apply IH. auto.
Qed.

Lemma filter_none {A} (p : A -> bool) l :
  (forall x, In x l -> p x = false) -> filter p l = [].
Proof.
  induction l as [|x l IH]; simpl; intros H; [reflexivity|].
  rewrite H by auto. apply IH. auto.
Qed.

Lemma count_gates_materialized (c : QuantumCircuit) n (es : list key) :
  data c = map h_gate (seq 0 n) ++ layer_gates es ->
  count_single_qubit_gates c = Z.of_nat n
  /\ count_two_qubit_gates c = Z.of_nat (length es).
Proof.
  intros E. unfold count_single_qubit_gates, count_two_qubit_gates.
  rewrite (count_gates_from (fun k => k =? 1)),
          (count_gates_from (fun k => k =? 2)), E, !filter_app, !length_app.
  rewrite (filter_all _ (map h_gate (seq 0 n))),
          (filter_none _ (layer_gates es)),
          (filter_none _ (map h_gate (seq 0 n))),
          (filter_all _ (layer_gates es)).
  - unfold layer_gates. rewrite !length_map, length_seq. cbn [length].
    rewrite Nat.add_0_r. cbn [Nat.add Z.add]. split; reflexivity.
  - intros x Hx. apply in_map_iff in Hx as (e & <- & _). reflexivity.
  - intros x Hx. apply in_map_iff in Hx as (e & <- & _). reflexivity.
  - intros x Hx. apply in_map_iff in Hx as (e & <- & _). reflexivity.
  - intros x Hx. apply in_map_iff in Hx as (e & <- & _). reflexivity.
Qed.

(** ** The reference solver meets the contract *)

Lemma var_eqb_eq v w : var_eqb v w = true <-> v = w.
Proof.
  destruct v as [i j|i j], w as [i' j'|i' j']; simpl;
    rewrite ?andb_true_iff, ?Nat.eqb_eq; split;
    try discriminate; try (intros [-> ->]; reflexivity);
    intros H; inversion H; auto.
Qed.

Lemma in_py_range lo hi x : In x (py_range lo hi) <-> (lo <= x < hi)%Z.
Proof.
  unfold py_range. rewrite in_map_iff. split.
  - intros (k & <- & Hk). apply in_seq in Hk. lia.
  - intros H. exists (Z.to_nat (x - lo)). split; [lia|]. apply in_seq. lia.
Qed.

Lemma in_bounded_vars cs v d :
  In (v, d) (bounded_vars cs) <-> In (LtDepth v d) cs.
Proof.
  unfold bounded_vars. rewrite in_flat_map. split.
  - intros (c & Hc & H). destruct c; try contradiction.
    destruct H as [H|[]]. now inversion H; subst.
  - intros H. exists (LtDepth v d). split; [assumption|now left].
Qed.

Lemma top_value_ge bv :
  (0 <= top_value bv)%Z /\ forall v d, In (v, d) bv -> (d <= top_value bv)%Z.
Proof.
  induction bv as [|[w x] bv [IH0 IH]]; simpl.
  - split; [lia|intros ? ? []].
  - split; [lia|]. intros v d [H|H].
    + inversion H; subst. lia.
    + specialize (IH v d H). lia.
Qed.

Lemma restrict_in_assignments m bv :
  (forall v d, In (v, d) bv -> (0 <= m v < d)%Z) ->
  In (restrict m bv) (assignments bv).
Proof.
  induction bv as [|[v d] bv IH]; simpl; intros H.
  - now left.
  - apply in_flat_map. exists (m v). split.
    + apply in_py_range. apply (H v d). now left.
    + apply in_map. apply IH. intros w x Hw. apply (H w x). now right.
Qed.

Lemma assigned_restrict m bv v :
  assigned (restrict m bv) v
  = if existsb (fun p => var_eqb (fst p) v) bv then Some (m v) else None.
Proof.
  induction bv as [|[w d] bv IH]; simpl; [reflexivity|].
  destruct (var_eqb w v) eqn:E; simpl.
  - apply var_eqb_eq in E. now subst.
  - exact IH.
Qed.

Lemma brute_force_sound cs m :
  brute_force_check cs = Some m -> satisfies m cs.
Proof.
  unfold brute_force_check.
  destruct (find _ (assignments (bounded_vars cs))) as [a|] eqn:E;
    simpl; [|discriminate].
  intros H. inversion H; subst. apply find_some in E as [_ E]. exact E.
Qed.

Lemma brute_force_complete cs :
  well_formed cs = true ->
  brute_force_check cs = None -> forall m, ~ satisfies m cs.
Proof.
  intros Hwf Hnone m Hsat. unfold brute_force_check in Hnone.
  destruct (find _ (assignments (bounded_vars cs))) as [a|] eqn:E;
    simpl in Hnone; [discriminate|].
  unfold well_formed in Hwf. rewrite forallb_forall in Hwf.
  pose proof Hsat as Hsat'. unfold satisfies in Hsat'.
  rewrite forallb_forall in Hsat'.
  assert (Hrange : forall v d, In (v, d) (bounded_vars cs) -> (0 <= m v < d)%Z).
  { intros v d Hv. apply in_bounded_vars in Hv.
    pose proof (Hsat' _ Hv) as Hlt. simpl in Hlt. apply Z.ltb_lt in Hlt.
    pose proof (Hwf _ Hv) as Hge. simpl in Hge.
    apply existsb_exists in Hge as (c & Hc & Hcv).
    destruct c; try discriminate. apply var_eqb_eq in Hcv. subst.
    pose proof (Hsat' _ Hc) as H0. simpl in H0. apply Z.leb_le in H0. lia. }
  pose proof (find_none _ _ E _
                (restrict_in_assignments m (bounded_vars cs) Hrange)) as Hfail.
  simpl in Hfail.
  assert (Hall : forallb (holdsb (model_of (top_value (bounded_vars cs))
                                           (restrict m (bounded_vars cs)))) cs
                 = true); [|congruence].
  destruct (top_value_ge (bounded_vars cs)) as [Htop0 Htop].
  set (m' := model_of (top_value (bounded_vars cs))
                      (restrict m (bounded_vars cs))).
  assert (Hb : forall v, is_bounded cs v = true ->
                         m' v = m v /\ (m v < top_value (bounded_vars cs))%Z).
  { intros v Hv. unfold m', model_of. rewrite assigned_restrict.
    unfold is_bounded in Hv. rewrite Hv. split; [reflexivity|].
    apply existsb_exists in Hv as ([w d] & Hin & Hw).
    apply var_eqb_eq in Hw. simpl in Hw. subst w.
    specialize (Hrange v d Hin). specialize (Htop v d Hin). lia. }
  assert (Hother : forall v, m' v = m v \/ m' v = top_value (bounded_vars cs)).
  { intros v. unfold m', model_of. rewrite assigned_restrict.
    destruct (existsb _ _); auto. }
  apply forallb_forall. intros c Hc.
  pose proof (Hsat' c Hc) as Hm. pose proof (Hwf c Hc) as Hw.
  destruct c as [v|v d|v w|v x|v w]; simpl in *.
  - apply Z.leb_le. apply Z.leb_le in Hm. destruct (Hother v) as [->| ->]; lia.
  - assert (Hbv : is_bounded cs v = true).
    { unfold is_bounded. apply existsb_exists. exists (v, d). split.
      - now apply in_bounded_vars.
      - now apply var_eqb_eq. }
    destruct (Hb v Hbv) as [-> _]. exact Hm.
  - destruct (Hb v Hw) as [Ev Hv]. rewrite Ev.
    apply negb_true_iff, Z.eqb_neq. apply negb_true_iff, Z.eqb_neq in Hm.
    destruct (Hother w) as [->| ->]; lia.
  - destruct (Hb v Hw) as [-> _]. exact Hm.
  - destruct (Hb v Hw) as [Ev Hv]. rewrite Ev.
    apply Z.ltb_lt. apply Z.ltb_lt in Hm.
    destruct (Hother w) as [->| ->]; lia.
Qed.

Lemma brute_force_ok cs :
  well_formed cs = true -> solver_answer_ok brute_force_check cs.
Proof.
  intros Hwf. unfold solver_answer_ok.
  destruct (brute_force_check cs) as [m|] eqn:E.
  - now apply brute_force_sound.
  - now apply brute_force_complete.
Qed.

(** ** The encoders produce instances the reference solver decides *)

Lemma well_formed_intro cs :
  (forall c, In c cs ->
     match c with
     | Ge0 _ => True
     | LtDepth v _ => In (Ge0 v) cs
     | Neq v _ | EqColor v _ | Lt v _ => exists d, In (LtDepth v d) cs
     end) ->
  well_formed cs = true.
Proof.
  intros H. unfold well_formed. apply forallb_forall. intros c Hc.
  specialize (H c Hc).
  assert (Hb : forall v, (exists d, In (LtDepth v d) cs) ->
                         is_bounded cs v = true).
  { intros v (d & Hd). unfold is_bounded. apply existsb_exists.
    exists (v, d). split; [now apply in_bounded_vars|now apply var_eqb_eq]. }
  destruct c; simpl; auto.
  apply existsb_exists. exists (Ge0 v). split; [assumption|].
  now apply var_eqb_eq.
Qed.

Lemma fix_colors_headed keys r row :
  forall i color cs,
    edge_colouring.fix_colors keys r row i color = Ok cs ->
    forall c, In c cs ->
      exists k x, c = EqColor (GateVar (fst k) (snd k)) x /\ In k keys.
Proof.
  induction row as [|value row IH]; intros i color cs; simpl.
  - intros H. inversion H. intros c [].
  - destruct (negb (value =? 1)%Z); [apply IH|].
    assert (Hlk : forall k x, lookup_var GateVar keys k = Ok x ->
                              x = GateVar (fst k) (snd k) /\ In k keys).
    { intros k x. unfold lookup_var.
      destruct (existsb (key_eqb k) keys) eqn:E; [|discriminate].
      intros H. inversion H. split; [reflexivity|].
      apply existsb_exists in E as (k' & Hk' & E).
      unfold key_eqb in E. apply andb_prop in E as [E1 E2].
      apply Nat.eqb_eq in E1, E2. destruct k, k'. simpl in *. now subst. }
    destruct (if (Z.of_nat i <? r)%Z then _ else _) as [x| |] eqn:Ex;
      simpl; try discriminate.
    destruct (edge_colouring.fix_colors keys r row (S i) (color + 1))
      as [cs'| |] eqn:Ecs; simpl; try discriminate.
    intros H. inversion H; subst. intros c [<-|Hc].
    + assert (Hx : exists k, x = GateVar (fst k) (snd k) /\ In k keys).
      { destruct (Z.of_nat i <? r)%Z.
        - apply Hlk in Ex. eexists. exact Ex.
        - destruct (r <? 0)%Z; [discriminate|].
          apply Hlk in Ex. eexists. exact Ex. }
      destruct Hx as (k & -> & Hk). eauto.
    + eapply IH; eauto.
Qed.

Section WellFormed.

Variable adj : matrix.
Hypothesis Hsimple : simple_graph adj.

Ltac edge_key := apply in_edge_list; split; simpl; [lia|assumption].

Lemma ec_conflicts_headed c :
  In c (ec_conflicts_pure adj) -> gate_headed adj c.
Proof.
  unfold ec_conflicts_pure. intros Hc.
  apply in_flat_map in Hc as (i & Hi & Hc). apply in_seq in Hi.
  apply in_flat_map in Hc as (j & Hj & Hc). apply in_seq in Hj.
  destruct (Z.eqb_spec (entry adj i j) 1) as [Eij|]; [|contradiction].
  apply in_app_or in Hc as [Hc|Hc];
    apply in_flat_map in Hc as (k & Hk & Hc).
  - destruct (_ =? _)%Z; [|contradiction].
    destruct Hc as [<-|[]]. simpl. edge_key.
  - destruct (_ =? _)%Z; [|contradiction].
    destruct (k <? j); destruct Hc as [<-|[]]; simpl; edge_key.
Qed.

Lemma ds_conflicts_headed c :
  In c (ds_conflicts_pure adj) -> gate_headed adj c.
Proof.
  unfold ds_conflicts_pure. intros Hc.
  apply in_flat_map in Hc as (i & Hi & Hc). apply in_seq in Hi.
  apply in_flat_map in Hc as (j & Hj & Hc). apply in_seq in Hj.
  destruct (Z.eqb_spec (entry adj i j) 1) as [Eij|]; [|contradiction].
  apply in_app_or in Hc as [Hc|Hc];
    apply in_flat_map in Hc as (k & Hk & Hc).
  - destruct (_ =? _)%Z; destruct Hc as [<-|[]]; simpl; edge_key.
  - destruct (k =? j); [contradiction|].
    destruct (_ =? _)%Z; destruct (k <? j);
      destruct Hc as [<-|[]]; simpl; edge_key.
Qed.

Lemma ds_symmetry_headed c :
  In c (ds_symmetry_pure adj) -> gate_headed adj c.
Proof.
  unfold ds_symmetry_pure. intros Hc.
  apply in_flat_map in Hc as (i & Hi & Hc). apply in_seq in Hi.
  apply in_flat_map in Hc as (j & Hj & Hc). apply in_seq in Hj.
  destruct (Z.eqb_spec (entry adj i j) 1) as [Eij|]; [|contradiction].
  apply in_app_or in Hc as [Hc|Hc];
    apply in_flat_map in Hc as (k & Hk & Hc).
  - destruct (negb _); [|contradiction].
    destruct Hc as [<-|[]]. simpl. edge_key.
  - destruct (k =? j); [contradiction|].
    destruct (negb _); [|contradiction].
    destruct (k <? j); destruct Hc as [<-|[]]; simpl; edge_key.
Qed.

Lemma in_ds_declared_gate i j :
  In (i, j) (edge_list adj) -> In (GateVar i j) (ds_declared_pure adj).
Proof.
  intros H. apply in_edge_list in H as [Hlt E]. simpl in *.
  unfold ds_declared_pure.
  apply in_flat_map. exists i. split; [apply in_seq; lia|].
  apply in_flat_map. exists j. split; [apply in_seq; lia|].
  rewrite E. now left.
Qed.

Lemma encode_well_formed s d sb inst :
  encode s adj d sb = Ok inst -> well_formed (assertions inst) = true.
Proof.
  destruct s; simpl.
  - unfold edge_colouring.encode.
    rewrite (ec_declare_keys_ok adj Hsimple). simpl.
    rewrite (ec_conflicts_ok adj Hsimple). simpl.
    destruct (if sb then _ else _) as [cs| |] eqn:Esb; simpl;
      try discriminate.
    intros H. inversion H; subst; clear H. simpl.
    assert (Hhead : forall c, In c (ec_conflicts_pure adj ++ cs) ->
                              gate_headed adj c).
    { intros c Hc. apply in_app_or in Hc as [Hc|Hc].
      - now apply ec_conflicts_headed.
      - destruct sb; [|inversion Esb; subst; contradiction].
        unfold edge_colouring.symmetry_breaking in Esb.
        destruct (getitem adj _) as [row| |]; simpl in Esb; try discriminate.
        destruct (fix_colors_headed _ _ _ _ _ _ Esb c Hc)
          as ([i j] & x & -> & Hk). exact Hk. }
    apply well_formed_intro. intros c Hc.
    assert (Hbound : forall i j, In (i, j) (edge_list adj) ->
              In (LtDepth (GateVar i j) d)
                 (edge_colouring.declare_bounds d (edge_list adj)
                  ++ ec_conflicts_pure adj ++ cs)).
    { intros i j Hij. apply in_or_app. left.
      unfold edge_colouring.declare_bounds. apply in_flat_map.
      exists (i, j). simpl. auto. }
    apply in_app_or in Hc as [Hc|Hc].
    + unfold edge_colouring.declare_bounds in Hc.
      apply in_flat_map in Hc as (e & He & Hc).
      destruct Hc as [<-|[<-|[]]]; [exact I|].
      apply in_or_app. left. unfold edge_colouring.declare_bounds.
      apply in_flat_map. exists e. simpl. auto.
    + specialize (Hhead c Hc).
      destruct c as [v|v x|[i j|i j] w|[i j|i j] x|[i j|i j] w];
        simpl in Hhead; try contradiction; exists d; now apply Hbound.
  - unfold sat_solver.encode.
    rewrite (ds_declare_vars_ok adj Hsimple). simpl.
    rewrite cz_gates_of_declared, identities_of_declared.
    rewrite (ds_conflicts_ok adj Hsimple). simpl.
    destruct (if sb then _ else _) as [cs| |] eqn:Esb; simpl;
      try discriminate.
    intros H. inversion H; subst; clear H. simpl.
    assert (Hhead : forall c, In c (ds_conflicts_pure adj ++ cs) ->
                              gate_headed adj c).
    { intros c Hc. apply in_app_or in Hc as [Hc|Hc].
      - now apply ds_conflicts_headed.
      - destruct sb; [|inversion Esb; subst; contradiction].
        rewrite (ds_symmetry_ok adj Hsimple) in Esb. inversion Esb; subst.
        now apply ds_symmetry_headed. }
    apply well_formed_intro. intros c Hc.
    assert (Hbound : forall i j, In (i, j) (edge_list adj) ->
              In (LtDepth (GateVar i j) d)
                 (sat_solver.declare_bounds d (ds_declared_pure adj)
                  ++ ds_conflicts_pure adj ++ cs)).
    { intros i j Hij. apply in_or_app. left.
      unfold sat_solver.declare_bounds. apply in_flat_map.
      exists (GateVar i j). split; [now apply in_ds_declared_gate|].
      simpl. auto. }
    apply in_app_or in Hc as [Hc|Hc].
    + unfold sat_solver.declare_bounds in Hc.
      apply in_flat_map in Hc as (v & Hv & Hc).
      destruct v as [i j|i j].
      * destruct Hc as [<-|[<-|[]]]; [exact I|].
        apply in_or_app. left. unfold sat_solver.declare_bounds.
        apply in_flat_map. exists (GateVar i j). simpl. auto.
      * destruct Hc as [<-|[]]. exact I.
    + specialize (Hhead c Hc).
      destruct c as [v|v x|[i j|i j] w|[i j|i j] x|[i j|i j] w];
        simpl in Hhead; try contradiction; exists d; now apply Hbound.
Qed.

(** The contract assumed of the solver can be met: the reference solver
    meets it on every simple graph. *)
Lemma brute_force_oracle_ok s : oracle_ok s brute_force_check adj.
Proof.
  intros d sb inst E. apply brute_force_ok.
  now apply (encode_well_formed s d sb).
Qed.

End WellFormed.

(** ** Reading a matrix out of a circuit name *)

Lemma firstn_plus {A} a b (l : list A) :
  firstn (a + b) l = firstn a l ++ firstn b (skipn a l).
Proof.
  revert l. induction a as [|a IH]; intros l; simpl; [reflexivity|].
  destruct l as [|x l]; simpl.
  - now rewrite firstn_nil.
  - now rewrite IH.
Qed.

Lemma concat_slices {A} (l : list A) n k :
  concat (map (fun i => slice l (i * n) ((i + 1) * n)) (seq 0 k))
  = firstn (k * n) l.
Proof.
  induction k as [|k IH]; [reflexivity|].
  rewrite seq_S, map_app, concat_app, IH. simpl.
  rewrite app_nil_r. unfold slice.
  replace ((k + 1) * n - k * n) with n by lia.
  replace (n + k * n) with (k * n + n) by lia.
  now rewrite firstn_plus.
Qed.

(** The reshaping step: [n] rows of [n] numbers, the first [n * n] of the
    numbers found, in order. *)
Lemma extract_shape circuit_name :
  let numbers := map int_of_digits (findall_digits circuit_name []) in
  let n := Nat.sqrt (length numbers) in
  let a := extract_adjacency_matrix circuit_name in
  length a = n
  /\ Forall (fun row => length row = n) a
  /\ concat a = firstn (n * n) numbers.
Proof.
  intros numbers n a. unfold a, extract_adjacency_matrix.
  fold numbers. fold n.
  pose proof (Nat.sqrt_spec (length numbers) (Nat.le_0_l _)) as [Hn _].
  fold n in Hn.
  split; [now rewrite length_map, length_seq|]. split.
  - apply Forall_forall. intros row Hrow.
    apply in_map_iff in Hrow as (i & <- & Hi). apply in_seq in Hi.
    unfold slice. rewrite length_firstn, length_skipn. nia.
  - apply concat_slices.
Qed.

Lemma app_inv_length {A} (a b x y : list A) :
  length a = length b -> a ++ x = b ++ y -> a = b /\ x = y.
Proof.
  revert b. induction a as [|u a IH]; intros [|v b]; simpl; try discriminate.
  - auto.
  - intros Hlen H. inversion H; subst.
    destruct (IH b) as [-> ->]; auto.
Qed.

Lemma rows_unique {A} n (a b : list (list A)) :
  Forall (fun row => length row = n) a ->
  Forall (fun row => length row = n) b ->
  length a = length b -> concat a = concat b -> a = b.
Proof.
  revert b. induction a as [|r a IH]; intros [|r' b] Ha Hb; simpl;
    try discriminate; [reflexivity|].
  intros Hlen H. inversion Ha; subst. inversion Hb; subst.
  destruct (app_inv_length r r' (concat a) (concat b)) as [-> Hc];
    [congruence|assumption|].
  f_equal. apply IH; auto.
Qed.

Lemma length_concat_rows {A} n (a : list (list A)) :
  Forall (fun row => length row = n) a -> length (concat a) = length a * n.
Proof.
  induction 1 as [|r a Hr _ IH]; simpl; [reflexivity|].
  rewrite length_app, IH, Hr. lia.
Qed.

Lemma int_of_bit_digits z : is_bit z -> int_of_digits (bit_digits z) = z.
Proof. intros [->| ->]; reflexivity. Qed.

Lemma append_assoc (a b c : string) :
  ((a ++ b) ++ c = a ++ (b ++ c))%string.
Proof. induction a as [|x a IH]; simpl; [reflexivity|now rewrite IH]. Qed.

Lemma findall_bit z c rest :
  is_bit z -> is_digit c = false ->
  findall_digits (str_int z ++ String c rest) []
  = bit_digits z :: findall_digits rest [].
Proof. intros [->| ->] Hc; simpl; rewrite Hc; reflexivity. Qed.

(** A row of bits, followed by a character that is not a digit. *)
Lemma findall_bits row c rest :
  Forall is_bit row -> is_digit c = false ->
  findall_digits (join ", " (map str_int row) ++ String c rest) []
  = map bit_digits row ++ findall_digits rest [].
Proof.
  intros Hrow Hc. induction Hrow as [|z row Hz Hrow IH].
  - simpl. now rewrite Hc.
  - destruct row as [|y row].
    + simpl join. simpl map. now rewrite findall_bit.
    + change (join ", " (map str_int (z :: y :: row)))
        with (str_int z ++ ", " ++ join ", " (map str_int (y :: row)))%string.
      rewrite !append_assoc.
      change (", " ++ join ", " (map str_int (y :: row)) ++ String c rest)%string
        with (String "," (String " "
                (join ", " (map str_int (y :: row)) ++ String c rest)))%string.
      rewrite findall_bit by auto. simpl map. simpl app. f_equal.
      simpl findall_digits at 1. exact IH.
Qed.

Lemma findall_row row c rest :
  Forall is_bit row -> is_digit c = false ->
  findall_digits (str_list str_int row ++ String c rest) []
  = map bit_digits row ++ findall_digits rest [].
Proof.
  intros Hrow Hc. unfold str_list.
  rewrite !append_assoc. simpl.
  change ("]" ++ String c rest)%string with (String "]" (String c rest)).
  rewrite findall_bits by auto. f_equal. simpl. now rewrite Hc.
Qed.

Lemma findall_rows (a : matrix) c rest :
  Forall (Forall is_bit) a -> is_digit c = false ->
  findall_digits (join ", " (map (str_list str_int) a) ++ String c rest) []
  = flat_map (map bit_digits) a ++ findall_digits rest [].
Proof.
  intros Ha Hc. induction Ha as [|row a Hrow Ha IH].
  - simpl. now rewrite Hc.
  - destruct a as [|row' a].
    + simpl join. simpl flat_map. rewrite app_nil_r.
      now rewrite findall_row.
    + change (join ", " (map (str_list str_int) (row :: row' :: a)))
        with (str_list str_int row ++ ", "
              ++ join ", " (map (str_list str_int) (row' :: a)))%string.
      rewrite !append_assoc.
      change (", " ++ join ", " (map (str_list str_int) (row' :: a))
              ++ String c rest)%string
        with (String "," (String " "
                (join ", " (map (str_list str_int) (row' :: a))
                 ++ String c rest)))%string.
      rewrite findall_row by auto.
      simpl flat_map. rewrite <- app_assoc. f_equal.
      simpl findall_digits at 1. exact IH.
Qed.

Lemma findall_matrix (a : matrix) :
  Forall (Forall is_bit) a ->
  findall_digits (str_matrix a) [] = flat_map (map bit_digits) a.
Proof.
  intros Ha. unfold str_matrix, str_list at 1.
  simpl. rewrite findall_rows by auto. simpl. apply app_nil_r.
Qed.

Lemma binary_square_spec a :
  binary_square a = true ->
  Forall (fun row => length row = length a) a /\ Forall (Forall is_bit) a.
Proof.
  unfold binary_square. rewrite forallb_forall. intros H.
  split; apply Forall_forall; intros row Hrow;
    specialize (H row Hrow); apply andb_prop in H as [H1 H2].
  - now apply Nat.eqb_eq.
  - apply Forall_forall. intros x Hx. rewrite forallb_forall in H2.
    specialize (H2 x Hx). apply orb_prop in H2 as [E|E];
      apply Z.eqb_eq in E; [left|right]; assumption.
Qed.

Lemma numbers_of_bits (a : matrix) :
  Forall (Forall is_bit) a ->
  map int_of_digits (flat_map (map bit_digits) a) = concat a.
Proof.
  induction 1 as [|row a Hrow _ IH]; simpl; [reflexivity|].
  rewrite map_app, IH. f_equal.
  rewrite map_map. rewrite <- (map_id row) at 2.
  apply map_ext_in. intros z Hz. apply int_of_bit_digits.
  rewrite Forall_forall in Hrow. auto.
Qed.

Lemma findall_prefix s :
  findall_digits ("Depth optimal circuit of Graphstate g: " ++ s) []
  = findall_digits s [].
Proof. reflexivity. Qed.

(** The name given by the materializer reads back as the matrix. *)
Lemma extract_materialized_name (a : matrix) :
  binary_square a = true ->
  extract_adjacency_matrix
    ("Depth optimal circuit of Graphstate g: " ++ str_matrix a)%string = a.
Proof.
  intros Hsq. destruct (binary_square_spec a Hsq) as [Hrows Hbits].
  pose proof (extract_shape
    ("Depth optimal circuit of Graphstate g: " ++ str_matrix a)%string) as H.
  cbv zeta in H.
  assert (Enum : map int_of_digits
            (findall_digits
               ("Depth optimal circuit of Graphstate g: " ++ str_matrix a) [])
            = concat a).
  { rewrite findall_prefix, findall_matrix by assumption.
    now apply numbers_of_bits. }
  rewrite Enum in H.
  rewrite (length_concat_rows (length a)) in H by assumption.
  rewrite Nat.sqrt_square in H. destruct H as (Hlen & Hr & Hc).
  apply (rows_unique (length a)); auto.
  rewrite Hc. apply firstn_all2.
  rewrite (length_concat_rows (length a)) by assumption. lia.
Qed.

(** ** The searches on a graph with an edge *)

Lemma forallb_false {A} (p : A -> bool) l :
  forallb p l = false -> exists x, In x l /\ p x = false.
Proof.
  induction l as [|x l IH]; simpl; [discriminate|].
  destruct (p x) eqn:E; simpl.
  - intros H. destruct (IH H) as (y & Hy & Ey). eauto.
  - intros _. eauto.
Qed.

Lemma all_zero_false_edges adj :
  simple_graph adj -> all_zero adj = false -> edge_list adj <> [].
Proof.
  intros Hs Hz. unfold all_zero in Hz.
  apply forallb_false in Hz as (row & Hrow & Hz).
  apply forallb_false in Hz as (x & Hx & Hz).
  apply Z.eqb_neq in Hz.
  destruct (In_nth adj row [] Hrow) as (i & Hi & Ei).
  subst row.
  destruct (In_nth _ x 0%Z Hx) as (j & Hj & Ej).
  rewrite (simple_rows adj Hs i Hi) in Hj.
  change (entry adj i j = x) in Ej.
  assert (E : entry adj i j = 1%Z).
  { destruct (simple_01 adj Hs i j Hi Hj); lia. }
  assert (Hin : In (Nat.max i j, Nat.min i j) (edge_list adj))
    by (apply (edge_key_in adj Hs); assumption).
  intros Hnil. rewrite Hnil in Hin. contradiction.
Qed.

Lemma no_edges_no_mapping s check adj d sb mp :
  simple_graph adj -> edge_list adj = [] ->
  _synthesis s check adj d sb = Ok mp -> truthy mp = false.
Proof.
  intros Hs He. unfold _synthesis.
  destruct (encode s adj d sb) as [inst| |] eqn:E; simpl; try discriminate.
  destruct (encode_sound adj Hs s d sb inst E) as [Hk _].
  intros H. inversion H; subst. unfold solve. rewrite Hk, He.
  now destruct (check (assertions inst)).
Qed.

Section Loops2.

Variable s : strategy.
Variable check : solver.
Variable adj : matrix.
Variable sb : bool.
Variable chi : Z.

Let ans := answer s check adj sb.

Hypothesis Hans : forall d, _synthesis s check adj d sb = Ok (ans d).
Hypothesis Hchi : forall d, truthy (ans d) = true <-> (chi <= d)%Z.

(** When the first midpoint is the least depth the loop stops at once,
    after one call, or two if the midpoint is above the left bound. *)
Lemma binary_loop_midpoint fuel l r :
  chi = ((l + r) / 2)%Z ->
  exists st,
    binary_loop s check adj sb (S fuel)
      {| b_left := l; b_right := r; b_cache := []; b_mapping := [];
         b_current := 0%Z; b_solver_calls := 0%Z; b_probed := [] |} = Ok st
    /\ b_current st = chi /\ b_mapping st = ans chi
    /\ b_solver_calls st = (if (chi =? l)%Z then 1 else 2)%Z
    /\ b_probed st = if (chi =? l)%Z then [chi] else [chi; (chi - 1)%Z].
Proof.
  intros Emid. rewrite binary_loop_step. cbv zeta. cbn [b_left b_right
    b_cache b_solver_calls b_probed]. rewrite <- Emid.
  unfold probe at 1. cbn [cache_get andb]. rewrite Hans. cbn [bind cache_set].
  assert (Htrue : truthy (ans chi) = true) by (apply Hchi; lia).
  destruct (Z.eqb_spec chi l) as [El|Hne]; cbn [negb].
  - unfold probe. cbn [andb bind fst snd].
    unfold cache_item. cbn [cache_get]. rewrite Z.eqb_refl. cbn [bind].
    rewrite Htrue. cbn [negb bind andb app].
    eexists. split; [reflexivity|]. cbn. auto.
  - unfold probe. cbn [andb cache_get].
    replace (chi =? chi - 1)%Z with false by (symmetry; apply Z.eqb_neq; lia).
    rewrite Hans. cbn [bind cache_set fst snd].
    replace (chi =? chi - 1)%Z with false by (symmetry; apply Z.eqb_neq; lia).
    unfold cache_item. cbn [cache_get]. rewrite Z.eqb_refl. cbn [bind].
    rewrite Htrue. cbn [negb].
    replace (chi =? chi - 1)%Z with false by (symmetry; apply Z.eqb_neq; lia).
    rewrite Z.eqb_refl. cbn [bind andb].
    assert (Hfalse : truthy (ans (chi - 1)%Z) = false).
    { destruct (truthy (ans (chi - 1)%Z)) eqn:E; [|reflexivity].
      apply Hchi in E. lia. }
    rewrite Hfalse.
    eexists. split; [reflexivity|]. cbn. auto.
Qed.

End Loops2.

Lemma searches_spec s check adj sb :
  simple_graph adj -> all_zero adj = false -> oracle_ok s check adj ->
  exists chi lo, search_facts s check adj sb chi lo.
Proof.
  intros Hs Hz Hok.
  pose proof (all_zero_false_edges adj Hs Hz) as He.
  destruct (least_depth s check adj Hs He Hok) as (chi & Hchi & Hcol).
  assert (Hc : colourable adj chi) by (apply Hcol; lia).
  destruct (minimum_depth_spec adj Hs s chi He Hc) as (lo & Emin & Hlo & Elo).
  assert (Hans : forall d, _synthesis s check adj d sb
                           = Ok (answer s check adj sb d)).
  { intros d. apply (synthesis_spec s check adj Hs He Hok d sb). }
  assert (Htr : forall d, truthy (answer s check adj sb d) = true
                          <-> (chi <= d)%Z).
  { intros d. rewrite <- Hcol.
    apply (synthesis_spec s check adj Hs He Hok d sb). }
  exists chi, lo. constructor; auto.
  - apply (synthesis_spec s check adj Hs He Hok chi sb). apply Htr. lia.
  - pose proof (colourable_degree adj Hs chi Hc). lia.
  - unfold linear_search_run. rewrite Emin. cbn [bind].
    rewrite (linear_loop_spec s check adj sb chi Hans Htr
               (Z.to_nat (chi - lo))) by lia.
    cbn [l_solver_calls l_probed app]. do 2 f_equal. lia.
  - intros fuel Hfuel. unfold binary_search_run. rewrite Emin. cbn [bind].
    destruct (binary_loop_spec s check adj sb chi Hans Htr fuel
                {| b_left := lo; b_right := Z.of_nat (length adj);
                   b_cache := []; b_mapping := []; b_current := 0%Z;
                   b_solver_calls := 0%Z; b_probed := [] |})
      as (st & E & H1 & H2 & H3); cbn; try lia.
    + intros d mp H. discriminate.
    + exists st. repeat split; auto. cbn in H3. lia.
Qed.

Lemma flat_map_layer_gates (mp : mapping) :
  flat_map (fun layer => layer_gates (snd layer)) mp
  = layer_gates (concat (map snd mp)).
Proof.
  induction mp as [|layer mp IH]; simpl; [reflexivity|].
  unfold layer_gates in *. now rewrite map_app, IH.
Qed.

(** The entry point on a graph with an edge. *)
Lemma synthesize_spec draw s check adj sb chi lo fuel t0 t1 c lin :
  simple_graph adj -> all_zero adj = false ->
  search_facts s check adj sb chi lo ->
  extract_adjacency_matrix (name c) = adj -> length adj < fuel ->
  exists c' res,
    synthesize draw s check fuel t0 t1 c sb lin = Ok (c', res)
    /\ depth res = chi
    /\ single_qubit_gates res = Z.of_nat (length adj)
    /\ two_qubit_gates res = Z.of_nat (length (edge_list adj))
    /\ gates res = (single_qubit_gates res + two_qubit_gates res)%Z
    /\ runtime res = (t1 - t0)%Z
    /\ (lin = true -> solver_calls res = (chi - lo + 1)%Z)
    /\ (lin = false ->
        exists st, binary_search_run s check adj sb fuel = Ok st
                   /\ solver_calls res = b_solver_calls st)
    /\ data c' = map h_gate (seq 0 (length adj))
                 ++ flat_map (fun layer => layer_gates (snd layer))
                             (answer s check adj sb chi).
Proof.
  intros Hs Hz F Ex Hfuel. unfold synthesize. rewrite Ex, Hz.
  destruct F as [Fchi Fcol Fans Ftr Flay Fmin Flo Floeq Fdeg Flin Fbin].
  destruct (materializer_edges (answer s check adj sb chi) adj)
    as (c' & Ec' & _ & _ & Edata); [lia|apply Flay|].
  assert (Hcount : count_single_qubit_gates c' = Z.of_nat (length adj)
                   /\ count_two_qubit_gates c'
                      = Z.of_nat (length (edge_list adj))).
  { pose proof Edata as Edata'. rewrite flat_map_layer_gates in Edata'.
    destruct (count_gates_materialized c' _ _ Edata') as [H1 H2].
    split; [assumption|]. rewrite H2. f_equal.
    apply Permutation_length. apply Flay. }
  destruct Hcount as [H1 H2].
  destruct lin.
  - unfold _linear_search. rewrite Flin. cbn [bind l_mapping].
    rewrite Ec'. cbn [bind l_depth l_solver_calls].
    eexists. eexists. split; [reflexivity|]. cbn.
    rewrite H1, H2. repeat split; auto. discriminate.
  - unfold _binary_search.
    destruct (Fbin fuel Hfuel) as (st & Est & Hcur & Hmp & Hcalls).
    rewrite Est. cbn [bind]. rewrite Hmp, Ec'. cbn [bind].
    eexists. eexists. split; [reflexivity|]. cbn.
    rewrite H1, H2. repeat split; auto; [discriminate|].
    intros _. exists st. auto.
Qed.

(** * Properties of the program *)

Lemma NoDup_app_disjoint {A} (a b : list A) x :
  NoDup (a ++ b) -> In x a -> In x b -> False.
Proof.
  induction a as [|y a IH]; simpl; [intros _ []|].
  intros H [->|Hx] Hb; inversion H as [|? ? Hnin Hnd]; subst.
  - apply Hnin. apply in_or_app. now right.
  - now apply IH.
Qed.

Lemma layer_unique (mp : mapping) c1 es1 c2 es2 e :
  NoDup (concat (map snd mp)) ->
  In (c1, es1) mp -> In (c2, es2) mp -> In e es1 -> In e es2 -> c1 = c2.
Proof.
  induction mp as [|[c0 es0] mp IH]; simpl; [intros _ []|].
  intros Hnd [H1|H1] [H2|H2] He1 He2.
  - congruence.
  - inversion H1; subst. exfalso.
    apply (NoDup_app_disjoint _ _ e Hnd He1).
    apply in_concat. exists es2. split; [|assumption].
    apply in_map_iff. exists (c2, es2). auto.
  - inversion H2; subst. exfalso.
    apply (NoDup_app_disjoint _ _ e Hnd He2).
    apply in_concat. exists es1. split; [|assumption].
    apply in_map_iff. exists (c1, es1). auto.
  - apply IH; auto. now apply NoDup_app_remove_l in Hnd.
Qed.

Lemma partitions_cover adj mp :
  partitions_edges adj mp -> layers_cover_edges adj mp.
Proof.
  intros (Hkeys & Hperm & Hmatch).
  assert (Hnd : NoDup (concat (map snd mp))).
  { apply (Permutation_NoDup (Permutation_sym Hperm)), NoDup_edge_list. }
  split; [assumption|]. split; [assumption|]. split; [|split].
  - intros e He. apply in_edge_list in He.
    apply (Permutation_in _ (Permutation_sym Hperm)) in He.
    apply in_concat in He as (es & Hes & He).
    apply in_map_iff in Hes as ([c es'] & E & Hin). simpl in E. subst es'.
    exists c, es. split; [assumption|]. split; [assumption|].
    intros c' es' Hin' He'. now apply (layer_unique mp c' es' c es e).
  - intros c es e Hin He. apply in_edge_list.
    apply (Permutation_in _ Hperm).
    apply in_concat. exists es. split; [|assumption].
    apply in_map_iff. exists (c, es). auto.
  - exact Hmatch.
Qed.

(** C1: on a simple graph with an edge, a non-empty mapping returned by
    either encoder puts every edge in exactly one layer, never two edges
    with a common node in the same layer, and nothing but the edges of the
    graph in the layers; and the depth [synthesize] returns is at least the
    maximum degree. *)
Theorem encoder_layers_partition_edges s check adj :
  simple_graph adj -> all_zero adj = false -> oracle_ok s check adj ->
  (forall d sb mp,
      _synthesis s check adj d sb = Ok mp -> truthy mp = true ->
      layers_cover_edges adj mp)
  /\ (forall draw fuel t0 t1 c sb lin,
        extract_adjacency_matrix (name c) = adj -> length adj < fuel ->
        exists c' res,
          synthesize draw s check fuel t0 t1 c sb lin = Ok (c', res)
          /\ (Z.of_nat (max_degree adj) <= depth res)%Z).
Proof.
  intros Hs Hz Hok. split.
  - intros d sb mp E Ht.
    pose proof (all_zero_false_edges adj Hs Hz) as He.
    destruct (synthesis_spec s check adj Hs He Hok d sb) as (Ea & _ & Hp).
    rewrite Ea in E. inversion E; subst.
    apply partitions_cover, Hp, Ht.
  - intros draw fuel t0 t1 c sb lin Ex Hfuel.
    destruct (searches_spec s check adj sb Hs Hz Hok) as (chi & lo & F).
    destruct (synthesize_spec draw s check adj sb chi lo fuel t0 t1 c lin
                Hs Hz F Ex Hfuel) as (c' & res & E & Hd & _).
    exists c', res. split; [assumption|]. rewrite Hd.
    now destruct F.
Qed.

Lemma encoder_layers_partition_edges_witness :
  layers_cover_edges two_nodes [(0%Z, [(1, 0)])]
  /\ exists c' res,
       synthesize draw_name EdgeColouring brute_force_check 3 0 1
                  two_nodes_circuit true false = Ok (c', res)
       /\ (Z.of_nat (max_degree two_nodes) <= depth res)%Z.
Proof.
  destruct (encoder_layers_partition_edges EdgeColouring brute_force_check
              two_nodes) as [H1 H2].
  - reflexivity.
  - reflexivity.
  - apply brute_force_oracle_ok. reflexivity.
  - split.
    + apply (H1 1%Z true); reflexivity.
    + apply H2; [reflexivity|simpl; lia].
Defined.

(** C2: satisfiability is monotone in the depth, for either strategy and
    either symmetry breaking setting, both for the instance the encoder
    builds and for the answer the search sees. *)
Theorem satisfiability_monotone_in_depth s adj sb d1 d2 :
  simple_graph adj -> (d1 < d2)%Z ->
  (satisfiable s adj d1 sb -> satisfiable s adj d2 sb)
  /\ (forall check, oracle_ok s check adj ->
        accepts s check adj d1 sb -> accepts s check adj d2 sb).
Proof.
  intros Hs Hd. split.
  - destruct adj as [|row rows] eqn:Eadj.
    + unfold satisfiable. destruct s, sb; cbn; intros H; exact H.
    + rewrite <- Eadj in *.
      assert (Hn : 0 < length adj) by (rewrite Eadj; simpl; lia).
      rewrite !(satisfiable_iff_colourable adj Hs) by assumption.
      apply colourable_mono. lia.
  - intros check Hok (m1 & E1 & T1).
    destruct (edge_list adj) as [|e l] eqn:He.
    + rewrite (no_edges_no_mapping s check adj d1 sb m1 Hs He E1) in T1.
      discriminate.
    + assert (Hne : edge_list adj <> []) by (rewrite He; discriminate).
      destruct (synthesis_spec s check adj Hs Hne Hok d1 sb) as (A1 & C1 & _).
      destruct (synthesis_spec s check adj Hs Hne Hok d2 sb) as (A2 & C2 & _).
      rewrite A1 in E1. inversion E1; subst.
      exists (answer s check adj sb d2). split; [assumption|].
      apply C2. apply (colourable_mono adj d1 d2); [lia|]. now apply C1.
Qed.

Lemma satisfiability_monotone_in_depth_witness :
  satisfiable EdgeColouring two_nodes 2 true
  /\ accepts EdgeColouring brute_force_check two_nodes 2 true.
Proof.
  destruct (satisfiability_monotone_in_depth EdgeColouring two_nodes true
              1 2) as [H1 H2].
  - reflexivity.
  - lia.
  - split.
    + apply H1. eexists. exists (fun _ => 0%Z). split; reflexivity.
    + apply H2.
      * apply brute_force_oracle_ok. reflexivity.
      * exists [(0%Z, [(1, 0)])]. split; reflexivity.
Defined.

(** C3: on a simple graph with an edge, linear and binary search return
    the same depth, and it is the least depth the encoder accepts. *)
Theorem binary_and_linear_search_agree s check adj sb fuel :
  simple_graph adj -> all_zero adj = false -> oracle_ok s check adj ->
  length adj < fuel ->
  exists cl cb d kl kb,
    _linear_search s check adj sb = Ok (cl, d, kl)
    /\ _binary_search s check adj sb fuel = Ok (cb, d, kb)
    /\ accepts s check adj d sb
    /\ forall d', (d' < d)%Z -> ~ accepts s check adj d' sb.
Proof.
  intros Hs Hz Hok Hfuel.
  destruct (searches_spec s check adj sb Hs Hz Hok) as (chi & lo & F).
  destruct F as [Fchi Fcol Fans Ftr Flay Fmin Flo Floeq Fdeg Flin Fbin].
  destruct (materializer_edges (answer s check adj sb chi) adj)
    as (c & Ec & _); [lia|apply Flay|].
  destruct (Fbin fuel Hfuel) as (st & Est & Hcur & Hmp & _).
  exists c, c, chi, (chi - lo + 1)%Z, (b_solver_calls st).
  split; [|split; [|split]].
  - unfold _linear_search. rewrite Flin. cbn [bind l_mapping].
    rewrite Ec. reflexivity.
  - unfold _binary_search. rewrite Est. cbn [bind].
    rewrite Hmp, Ec, Hcur. reflexivity.
  - exists (answer s check adj sb chi). split; [apply Fans|].
    apply Ftr. lia.
  - intros d' Hd' (mp & E & T). rewrite Fans in E. inversion E; subst.
    apply Ftr in T. lia.
Qed.

Lemma binary_and_linear_search_agree_witness :
  exists cl cb d kl kb,
    _linear_search DirectScheduling brute_force_check two_nodes false
    = Ok (cl, d, kl)
    /\ _binary_search DirectScheduling brute_force_check two_nodes false 3
       = Ok (cb, d, kb)
    /\ accepts DirectScheduling brute_force_check two_nodes d false
    /\ forall d', (d' < d)%Z ->
                  ~ accepts DirectScheduling brute_force_check two_nodes d' false.
Proof.
  apply binary_and_linear_search_agree.
  - reflexivity.
  - reflexivity.
  - apply brute_force_oracle_ok. reflexivity.
  - simpl. lia.
Defined.

(** C4: symmetry breaking does not change the depths that are accepted:
    the search sees a non-empty mapping with it exactly when it does
    without it, and on a graph with a node the two instances are
    satisfiable together. *)
Theorem symmetry_breaking_preserves_satisfiability s adj d :
  simple_graph adj ->
  (forall check, oracle_ok s check adj ->
     (accepts s check adj d true <-> accepts s check adj d false))
  /\ (0 < length adj ->
      (satisfiable s adj d true <-> satisfiable s adj d false)).
Proof.
  intros Hs. split.
  - intros check Hok.
    destruct (edge_list adj) as [|e l] eqn:He.
    + split; intros (mp & E & T);
        rewrite (no_edges_no_mapping s check adj d _ mp Hs He E) in T;
        discriminate.
    + assert (Hne : edge_list adj <> []) by (rewrite He; discriminate).
      destruct (synthesis_spec s check adj Hs Hne Hok d true) as (A1 & C1 & _).
      destruct (synthesis_spec s check adj Hs Hne Hok d false) as (A2 & C2 & _).
      split; intros (mp & E & T).
      * rewrite A1 in E. inversion E; subst.
        exists (answer s check adj false d). split; [assumption|].
        apply C2. now apply C1.
      * rewrite A2 in E. inversion E; subst.
        exists (answer s check adj true d). split; [assumption|].
        apply C1. now apply C2.
  - intros Hn. now rewrite !(satisfiable_iff_colourable adj Hs).
Qed.

Lemma symmetry_breaking_preserves_satisfiability_witness :
  accepts EdgeColouring brute_force_check star 2 false
  /\ satisfiable EdgeColouring star 2 false.
Proof.
  destruct (symmetry_breaking_preserves_satisfiability EdgeColouring star 2)
    as [H1 H2].
  - reflexivity.
  - split.
    + apply H1.
      * apply brute_force_oracle_ok. reflexivity.
      * exists [(0%Z, [(1, 0)]); (1%Z, [(2, 0)])]. split; reflexivity.
    + apply H2.
      * simpl. lia.
      * eexists.
        exists (fun v => match v with GateVar 2 _ => 1%Z | _ => 0%Z end).
        split; reflexivity.
Defined.

(** C5: on a simple graph with an edge the instance at depth equal to the
    number of nodes is satisfiable, so linear search finds a non-empty
    mapping before its range ends, binary search stops with one, and the
    entry point returns a result. *)
Theorem search_never_exhausts s check adj sb :
  simple_graph adj -> all_zero adj = false -> oracle_ok s check adj ->
  satisfiable s adj (Z.of_nat (length adj)) sb
  /\ accepts s check adj (Z.of_nat (length adj)) sb
  /\ (exists st mp,
        linear_search_run s check adj sb = Ok st
        /\ l_mapping st = Dict mp /\ truthy mp = true
        /\ (l_depth st <= Z.of_nat (length adj))%Z)
  /\ (forall fuel, length adj < fuel ->
        exists st,
          binary_search_run s check adj sb fuel = Ok st
          /\ truthy (b_mapping st) = true
          /\ (b_current st <= Z.of_nat (length adj))%Z)
  /\ (forall draw fuel t0 t1 c lin,
        extract_adjacency_matrix (name c) = adj -> length adj < fuel ->
        exists c' res,
          synthesize draw s check fuel t0 t1 c sb lin = Ok (c', res)).
Proof.
  intros Hs Hz Hok.
  pose proof (all_zero_false_edges adj Hs Hz) as He.
  pose proof (edge_list_nodes adj He) as Hn.
  destruct (searches_spec s check adj sb Hs Hz Hok) as (chi & lo & F).
  pose proof F as F'.
  destruct F as [Fchi Fcol Fans Ftr Flay Fmin Flo Floeq Fdeg Flin Fbin].
  split; [|split; [|split; [|split]]].
  - apply (satisfiable_iff_colourable adj Hs); [assumption|].
    apply colourable_nodes.
  - exists (answer s check adj sb (Z.of_nat (length adj))).
    split; [apply Fans|]. apply Ftr. lia.
  - eexists. exists (answer s check adj sb chi).
    split; [exact Flin|]. cbn. split; [reflexivity|].
    split; [apply Ftr|]; lia.
  - intros fuel Hfuel.
    destruct (Fbin fuel Hfuel) as (st & Est & Hcur & Hmp & _).
    exists st. split; [assumption|]. rewrite Hmp, Hcur.
    split; [apply Ftr|]; lia.
  - intros draw fuel t0 t1 c lin Ex Hfuel.
    destruct (synthesize_spec draw s check adj sb chi lo fuel t0 t1 c lin
                Hs Hz F' Ex Hfuel) as (c' & res & E & _).
    eauto.
Qed.

Lemma search_never_exhausts_witness :
  satisfiable DirectScheduling star 3 true
  /\ accepts DirectScheduling brute_force_check star 3 true.
Proof.
  destruct (search_never_exhausts DirectScheduling brute_force_check star true)
    as (H1 & H2 & _).
  - reflexivity.
  - reflexivity.
  - apply brute_force_oracle_ok. reflexivity.
  - split; [exact H1|exact H2].
Defined.

(** C6, as stated, fails: on the star the edge colouring search starts at
    depth 1 although node 0 has degree 2. *)
Lemma linear_search_first_probe_not_max_degree :
  ~ (forall check adj sb,
        simple_graph adj -> all_zero adj = false ->
        oracle_ok EdgeColouring check adj ->
        exists st,
          linear_search_run EdgeColouring check adj sb = Ok st
          /\ hd_error (l_probed st) = Some (Z.of_nat (max_degree adj))).
Proof.
  intros H.
  destruct (H brute_force_check star false) as (st & E & Hhd).
  - reflexivity.
  - reflexivity.
  - apply brute_force_oracle_ok. reflexivity.
  - vm_compute in E. inversion E; subst. vm_compute in Hhd. discriminate.
Qed.

(** C6, amended: on a simple graph with an edge, linear search first tries
    the largest number of neighbours that any node has among the nodes
    before it (edge colouring; never more than the maximum degree) or zero
    (scheduling), then every next depth in turn, one solver call each,
    every depth before the last answered with the empty mapping and the
    last with the mapping it returns. *)
Theorem linear_search_probes s check adj sb :
  simple_graph adj -> all_zero adj = false -> oracle_ok s check adj ->
  exists st mp,
    linear_search_run s check adj sb = Ok st
    /\ minimum_depth s adj = Ok (first_depth s adj)
    /\ hd_error (l_probed st) = Some (first_depth s adj)
    /\ l_probed st = py_range (first_depth s adj) (l_depth st + 1)
    /\ l_solver_calls st = Z.of_nat (length (l_probed st))
    /\ (forall d, (first_depth s adj <= d < l_depth st)%Z ->
                  _synthesis s check adj d sb = Ok [])
    /\ _synthesis s check adj (l_depth st) sb = Ok mp
    /\ truthy mp = true /\ l_mapping st = Dict mp
    /\ max_lower_degree adj <= max_degree adj.
Proof.
  intros Hs Hz Hok.
  destruct (searches_spec s check adj sb Hs Hz Hok) as (chi & lo & F).
  destruct F as [Fchi Fcol Fans Ftr Flay Fmin Flo Floeq Fdeg Flin Fbin].
  fold (first_depth s adj) in Floeq. subst lo.
  eexists. exists (answer s check adj sb chi).
  split; [exact Flin|]. cbn.
  split; [exact Fmin|]. split; [|split; [reflexivity|]].
  { rewrite py_range_cons by lia. reflexivity. }
  split; [|split; [|split; [|split]]].
  - rewrite py_range_length. lia.
  - intros d Hd. rewrite Fans. f_equal.
    destruct (answer s check adj sb d) eqn:E; [reflexivity|].
    assert (T : truthy (answer s check adj sb d) = true) by now rewrite E.
    apply Ftr in T. lia.
  - apply Fans.
  - apply Ftr. lia.
  - split; [reflexivity|]. now apply max_lower_degree_le.
Qed.

Lemma linear_search_probes_witness :
  exists st mp,
    linear_search_run EdgeColouring brute_force_check star true = Ok st
    /\ minimum_depth EdgeColouring star = Ok (first_depth EdgeColouring star)
    /\ hd_error (l_probed st) = Some (first_depth EdgeColouring star)
    /\ l_probed st = py_range (first_depth EdgeColouring star) (l_depth st + 1)
    /\ l_solver_calls st = Z.of_nat (length (l_probed st))
    /\ (forall d, (first_depth EdgeColouring star <= d < l_depth st)%Z ->
                  _synthesis EdgeColouring brute_force_check star d true = Ok [])
    /\ _synthesis EdgeColouring brute_force_check star (l_depth st) true = Ok mp
    /\ truthy mp = true /\ l_mapping st = Dict mp
    /\ max_lower_degree star <= max_degree star.
Proof.
  apply linear_search_probes.
  - reflexivity.
  - reflexivity.
  - apply brute_force_oracle_ok. reflexivity.
Defined.




(** C8: an all-zero matrix makes the entry point return the input circuit
    and its gate counts at once, with depth, solver calls and runtime 0,
    whatever the solver. *)
Theorem all_zero_short_circuit draw s check fuel t0 t1 c sb lin :
  all_zero (extract_adjacency_matrix (name c)) = true ->
  synthesize draw s check fuel t0 t1 c sb lin
  = Ok (c, {| circuit := draw c;
              depth := 0%Z;
              gates := (count_single_qubit_gates c + count_two_qubit_gates c)%Z;
              runtime := 0%Z;
              single_qubit_gates := count_single_qubit_gates c;
              solver_calls := 0%Z;
              tableau := "Not available yet"%string;
              two_qubit_gates := count_two_qubit_gates c;
              _is_sat := true |}).
Proof. intros H. unfold synthesize. now rewrite H. Qed.

Lemma all_zero_short_circuit_witness :
  synthesize draw_name DirectScheduling (fun _ => None) 0 5 9
             no_edge_circuit true false
  = Ok (no_edge_circuit,
        {| circuit := "graph: [[0, 0], [0, 0]]"%string; depth := 0%Z; gates := 2%Z; runtime := 0%Z;
           single_qubit_gates := 2%Z; solver_calls := 0%Z;
           tableau := "Not available yet"%string; two_qubit_gates := 0%Z;
           _is_sat := true |}).
Proof.
  apply (all_zero_short_circuit draw_name DirectScheduling
           (fun _ => None) 0 5 9 no_edge_circuit true false).
  reflexivity.
Defined.

Lemma two_nodes_colourable : colourable two_nodes 1.
Proof.
  exists (fun _ => 0%Z). split.
  - intros u v w Hu Hv Hw Hne Euv Euw. simpl in Hu, Hv, Hw.
    destruct u as [|[|u]], v as [|[|v]], w as [|[|w]];
      try lia; try discriminate; congruence.
  - intros e [<-|[]]. simpl. lia.
Qed.

(** C9, as stated, fails for the scheduling strategy: it tries depth 0
    too, which makes two solver calls. *)
Lemma two_nodes_scheduling_calls :
  ~ (forall s check lin c' res,
        oracle_ok s check two_nodes ->
        synthesize draw_name s check 3 0 0 two_nodes_circuit
                   false lin = Ok (c', res) ->
        depth res = 1%Z /\ two_qubit_gates res = 1%Z /\ gates res = 3%Z
        /\ solver_calls res = 1%Z).
Proof.
  intros H.
  destruct (synthesize draw_name DirectScheduling brute_force_check
                       3 0 0 two_nodes_circuit false true)
    as [[c' res]| |] eqn:E; try (vm_compute in E; discriminate).
  destruct (H DirectScheduling brute_force_check true c' res) as (_ & _ & _ & Hc).
  - apply brute_force_oracle_ok. reflexivity.
  - exact E.
  - vm_compute in E. inversion E; subst. discriminate.
Qed.

(** C9, amended: on the graph with two nodes, without symmetry breaking
    and with either search, the result has depth 1, one pairwise gate and
    two single-node gates, three gates in all, after one solver call with
    the edge colouring strategy and two with the scheduling strategy. *)
Theorem two_nodes_scenario draw s check fuel t0 t1 c lin :
  extract_adjacency_matrix (name c) = two_nodes -> 2 < fuel ->
  oracle_ok s check two_nodes ->
  exists c' res,
    synthesize draw s check fuel t0 t1 c false lin = Ok (c', res)
    /\ depth res = 1%Z
    /\ two_qubit_gates res = 1%Z
    /\ single_qubit_gates res = 2%Z
    /\ gates res = 3%Z
    /\ solver_calls res = two_nodes_calls s.
Proof.
  intros Ex Hfuel Hok.
  assert (Hs : simple_graph two_nodes) by reflexivity.
  assert (Hz : all_zero two_nodes = false) by reflexivity.
  destruct (searches_spec s check two_nodes false Hs Hz Hok) as (chi & lo & F).
  pose proof F as F'.
  destruct F as [Fchi Fcol Fans Ftr Flay Fmin Flo Floeq Fdeg Flin Fbin].
  assert (Echi : chi = 1%Z).
  { pose proof (proj1 (Fcol 1%Z) two_nodes_colourable). lia. }
  subst chi.
  assert (Elo : (lo = 2 - two_nodes_calls s)%Z)
    by (rewrite Floeq; destruct s; reflexivity).
  destruct (synthesize_spec draw s check two_nodes false 1%Z lo fuel t0 t1 c lin
              Hs Hz F' Ex Hfuel)
    as (c' & res & E & Hd & H1 & H2 & Hg & _ & Hlin & Hbin & _).
  exists c', res. split; [assumption|]. split; [assumption|].
  split; [assumption|]. split; [assumption|].
  split; [rewrite Hg, H1, H2; reflexivity|].
  destruct lin.
  - rewrite Hlin by reflexivity. lia.
  - destruct (Hbin eq_refl) as (st & Est & ->).
    unfold binary_search_run in Est. rewrite Fmin in Est. cbn [bind] in Est.
    destruct fuel as [|fuel]; [lia|].
    destruct (binary_loop_midpoint s check two_nodes false 1%Z Fans Ftr
                fuel lo (Z.of_nat (length two_nodes)))
      as (st' & Est' & _ & _ & Hcalls & _).
    { rewrite Elo. destruct s; reflexivity. }
    rewrite Est' in Est. inversion Est; subst st'.
    rewrite Hcalls, Elo. destruct s; reflexivity.
Qed.

Lemma two_nodes_scenario_witness :
  exists c' res,
    synthesize draw_name DirectScheduling brute_force_check 3 0 7
               two_nodes_circuit false false = Ok (c', res)
    /\ depth res = 1%Z
    /\ two_qubit_gates res = 1%Z
    /\ single_qubit_gates res = 2%Z
    /\ gates res = 3%Z
    /\ solver_calls res = two_nodes_calls DirectScheduling.
Proof.
  apply two_nodes_scenario.
  - reflexivity.
  - lia.
  - apply brute_force_oracle_ok. reflexivity.
Defined.

(** C10: the matrix is read from the name alone: the digit runs of the
    name, the first [n * n] of them cut into [n] rows of [n], with [n] the
    integer square root of their number; the name the materializer gives a
    circuit reads back as the matrix it was built from; and two circuits
    with the same name are synthesized alike, whatever their gates. *)
Theorem adjacency_matrix_from_name :
  (forall circuit_name,
      let numbers := map int_of_digits (findall_digits circuit_name []) in
      let n := Nat.sqrt (length numbers) in
      let a := extract_adjacency_matrix circuit_name in
      length a = n /\ Forall (fun row => length row = n) a
      /\ concat a = firstn (n * n) numbers)
  /\ (forall mp a c,
        binary_square a = true ->
        _map_synthesis_depth_optimal_mapping_to_qcircuit (Dict mp) a = Ok c ->
        extract_adjacency_matrix (name c) = a)
  /\ (forall draw s check fuel t0 t1 c1 c2 sb lin,
        name c1 = name c2 ->
        all_zero (extract_adjacency_matrix (name c1)) = false ->
        synthesize draw s check fuel t0 t1 c1 sb lin
        = synthesize draw s check fuel t0 t1 c2 sb lin).
Proof.
  split; [exact extract_shape|]. split.
  - intros mp a c Hsq E.
    destruct (materializer_returned mp a c E) as (_ & Hname & _).
    rewrite Hname. now apply extract_materialized_name.
  - intros draw s check fuel t0 t1 c1 c2 sb lin Hname Hz.
    unfold synthesize. rewrite <- Hname, Hz. reflexivity.
Qed.

Lemma adjacency_matrix_from_name_witness :
  extract_adjacency_matrix
    ("Depth optimal circuit of Graphstate g: " ++ str_matrix two_nodes)
  = two_nodes
  /\ synthesize draw_name EdgeColouring brute_force_check 3 0 1
                two_nodes_circuit false true
     = synthesize draw_name EdgeColouring brute_force_check 3 0 1
                  {| num_qubits := 2; name := name two_nodes_circuit;
                     data := [] |} false true.
Proof.
  destruct adjacency_matrix_from_name as (_ & H2 & H3). split.
  - apply (H2 [(0%Z, [(1, 0)])] two_nodes
              {| num_qubits := 2;
                 name := "Depth optimal circuit of Graphstate g: "
                         ++ str_matrix two_nodes;
                 data := [h_gate 0; h_gate 1; cz_gate 1 0] |}); reflexivity.
  - apply H3; reflexivity.
Defined.

(** ** Checks on the graphs of the test suite *)

Example extract_graph_state_name :
  extract_adjacency_matrix "graph: [[0, 1], [1, 0]]" = two_nodes.
Proof. reflexivity. Qed.

Example str_matrix_two_nodes : str_matrix two_nodes = "[[0, 1], [1, 0]]"%string.
Proof. reflexivity. Qed.

Example four_nodes_edge_colouring :
  outcome (_linear_search EdgeColouring brute_force_check four_nodes false)
  = Some (3%Z, 2%Z, 9)
  /\ outcome (_binary_search EdgeColouring brute_force_check four_nodes false 5)
     = Some (3%Z, 2%Z, 9).
Proof. split; vm_compute; reflexivity. Qed.

Example four_nodes_scheduling :
  outcome (_linear_search DirectScheduling brute_force_check four_nodes false)
  = Some (3%Z, 4%Z, 9)
  /\ outcome (_binary_search DirectScheduling brute_force_check four_nodes false 5)
     = Some (3%Z, 3%Z, 9).
Proof. split; vm_compute; reflexivity. Qed.

(** A mapping the edge colouring encoder returns with its layers out of
    index order. *)
Example four_nodes_layers_out_of_order :
  _synthesis EdgeColouring brute_force_check four_nodes 3 true
  = Ok [(0%Z, [(1, 0); (3, 2)]); (2%Z, [(2, 0); (3, 1)]); (1%Z, [(2, 1)])].
Proof. vm_compute. reflexivity. Qed.

(** Without the short circuit binary search would not end on a graph
    without edges. *)
Example no_edges_binary_search_runs_out :
  _binary_search EdgeColouring brute_force_check [[0; 0]; [0; 0]]%Z false 50
  = OutOfFuel.
Proof. vm_compute. reflexivity. Qed.

(** On the matrix without rows the edge colouring encoder raises under
    symmetry breaking. *)
Example no_nodes_symmetry_breaking_raises :
  encode EdgeColouring [] 1 true = Raise IndexError.
Proof. reflexivity. Qed.

(** * Further properties of the program *)

(** ** Matrices without a 1
 
    The name of a circuit can yield any square matrix of numbers.  The
    encoders only ever compare an entry with 1, so a matrix without a 1 is
    a graph without edges to them even when it is not all zero. *)

Lemma flat_map_empty {A B} (l : list A) :
  flat_map (fun _ => @nil B) l = [].
Proof. induction l; simpl; auto. Qed.

Section NoOnes.

Variable a : matrix.
Hypothesis Hsquare : square a = true.
Hypothesis Hones : no_ones a = true.

Lemma square_rows i : i < length a -> length (nth i a []) = length a.
Proof.
  intros Hi. pose proof Hsquare as Hs. unfold square in Hs.
  rewrite forallb_forall in Hs.
  specialize (Hs (nth i a []) (nth_In _ _ Hi)). now apply Nat.eqb_eq in Hs.
Qed.

Lemma square_cell i j :
  i < length a -> j < length a -> cell a i j = Ok (entry a i j).
Proof.
  intros Hi Hj. unfold cell, item, entry.
  rewrite (nth_error_nth' a [] Hi). simpl.
  rewrite (nth_error_nth' (nth i a []) 0%Z); [reflexivity|].
  now rewrite square_rows.
Qed.

Lemma no_ones_row row x : In row a -> In x row -> (x =? 1)%Z = false.
Proof.
  intros Hrow Hx. pose proof Hones as H. unfold no_ones in H.
  rewrite forallb_forall in H. specialize (H row Hrow).
  rewrite forallb_forall in H. specialize (H x Hx).
  now apply negb_true_iff in H.
Qed.

Lemma no_ones_entry i j : (entry a i j =? 1)%Z = false.
Proof.
  unfold entry.
  destruct (Nat.lt_ge_cases i (length a)) as [Hi|Hi].
  - destruct (Nat.lt_ge_cases j (length (nth i a []))) as [Hj|Hj].
    + apply (no_ones_row (nth i a [])); apply nth_In; assumption.
    + now rewrite (nth_overflow (nth i a []) 0%Z Hj).
  - rewrite (nth_overflow a [] Hi). now destruct j.
Qed.

Lemma no_ones_cell i j :
  j <= i -> i < length a ->
  cell a i j = Ok (entry a i j) /\ (entry a i j =? 1)%Z = false.
Proof.
  intros Hj Hi. split; [apply square_cell; lia|apply no_ones_entry].
Qed.

Lemma no_ones_declare_keys : edge_colouring.declare_keys a = Ok [].
Proof.
  unfold edge_colouring.declare_keys.
  rewrite (for_range_pure _ _ (fun _ => [])).
  - now rewrite flat_map_empty.
  - intros i Hi. rewrite (for_range_pure _ _ (fun _ => [])).
    + now rewrite flat_map_empty.
    + intros j Hj. destruct (no_ones_cell i j) as [-> E]; try lia.
      simpl. now rewrite E.
Qed.

Lemma no_ones_conflicts keys : edge_colouring.conflicts a keys = Ok [].
Proof.
  unfold edge_colouring.conflicts.
  rewrite (for_range_pure _ _ (fun _ => [])).
  - now rewrite flat_map_empty.
  - intros i Hi. rewrite (for_range_pure _ _ (fun _ => [])).
    + now rewrite flat_map_empty.
    + intros j Hj. destruct (no_ones_cell i j) as [-> E]; try lia.
      simpl. now rewrite E.
Qed.

Lemma no_ones_fix_colors keys r row :
  (forall x, In x row -> (x =? 1)%Z = false) ->
  forall i color, edge_colouring.fix_colors keys r row i color = Ok [].
Proof.
  induction row as [|x row IH]; intros Hrow i color; simpl; [reflexivity|].
  rewrite (Hrow x) by now left. simpl. apply IH.
  intros y Hy. apply Hrow. now right.
Qed.

Lemma getitem_chosen_row (r : Z) :
  0 < length a -> (r = -1 \/ 0 <= r < Z.of_nat (length a))%Z ->
  exists row, getitem a r = Ok row /\ In row a.
Proof.
  intros Hn Hr. unfold getitem, item.
  destruct (Z.ltb_spec r 0) as [Hneg|Hpos].
  - assert (r = -1)%Z by lia. subst r.
    destruct (Z.ltb_spec (-1 + Z.of_nat (length a)) 0); [lia|].
    destruct (nth_error a (Z.to_nat (-1 + Z.of_nat (length a)))) as [row|] eqn:E.
    + exists row. split; [reflexivity|]. eapply nth_error_In; eassumption.
    + apply nth_error_None in E. lia.
  - destruct (nth_error a (Z.to_nat r)) as [row|] eqn:E.
    + exists row. split; [reflexivity|]. eapply nth_error_In; eassumption.
    + apply nth_error_None in E. lia.
Qed.

Lemma no_ones_symmetry_breaking keys :
  0 < length a -> edge_colouring.symmetry_breaking a keys = Ok [].
Proof.
  intros Hn. unfold edge_colouring.symmetry_breaking.
  destruct (getitem_chosen_row
              (snd (edge_colouring.biggest_cluster a 0%Z (-1, -1)%Z)) Hn)
    as (row & -> & Hrow).
  - pose proof (biggest_cluster_range a 0%Z (-1, -1)%Z) as H.
    cbv zeta in H. simpl snd in H at 2. lia.
  - simpl. apply no_ones_fix_colors. intros x Hx.
    now apply (no_ones_row row).
Qed.

Lemma no_ones_declare_vars :
  exists declared,
    sat_solver.declare_vars a = Ok declared
    /\ sat_solver.cz_gates_of declared = [].
Proof.
  unfold sat_solver.declare_vars.
  rewrite (for_range_pure _ _
             (fun i => flat_map (fun j => [IdVar i j]) (seq 0 i))).
  - eexists. split; [reflexivity|].
    unfold sat_solver.cz_gates_of. rewrite flat_map_concat_map.
    apply concat_nil_Forall. apply Forall_forall. intros l Hl.
    apply in_map_iff in Hl as (v & <- & Hv).
    apply in_flat_map in Hv as (i & _ & Hv).
    apply in_flat_map in Hv as (j & _ & [<-|[]]). reflexivity.
  - intros i Hi. rewrite (for_range_pure _ _ (fun j => [IdVar i j])).
    + reflexivity.
    + intros j Hj. destruct (no_ones_cell i j) as [-> E]; try lia.
      simpl. now rewrite E.
Qed.

Lemma no_ones_ds_conflicts cz idn : sat_solver.conflicts a cz idn = Ok [].
Proof.
  unfold sat_solver.conflicts.
  rewrite (for_range_pure _ _ (fun _ => [])).
  - now rewrite flat_map_empty.
  - intros i Hi. rewrite (for_range_pure _ _ (fun _ => [])).
    + now rewrite flat_map_empty.
    + intros j Hj. destruct (no_ones_cell i j) as [-> E]; try lia.
      simpl. now rewrite E.
Qed.

Lemma no_ones_ds_symmetry_breaking cz idn :
  sat_solver.symmetry_breaking a cz idn = Ok [].
Proof.
  unfold sat_solver.symmetry_breaking.
  rewrite (for_range_pure _ _ (fun _ => [])).
  - now rewrite flat_map_empty.
  - intros i Hi. rewrite (for_range_pure _ _ (fun _ => [])).
    + now rewrite flat_map_empty.
    + intros j Hj. destruct (no_ones_cell i j) as [-> E]; try lia.
      simpl. now rewrite E.
Qed.

Lemma no_ones_synthesis s check d sb :
  0 < length a -> _synthesis s check a d sb = Ok [].
Proof.
  intros Hn. unfold _synthesis, solve. destruct s; simpl.
  - unfold edge_colouring.encode.
    rewrite no_ones_declare_keys. simpl.
    rewrite no_ones_conflicts. simpl.
    replace (if sb then edge_colouring.symmetry_breaking a [] else Ok [])
      with (@Ok (list constr) [])
      by (destruct sb; [now rewrite no_ones_symmetry_breaking|reflexivity]).
    simpl. now destruct (check []).
  - unfold sat_solver.encode.
    destruct no_ones_declare_vars as (declared & -> & E). simpl.
    rewrite no_ones_ds_conflicts. simpl.
    replace (if sb
             then sat_solver.symmetry_breaking a
                    (sat_solver.cz_gates_of declared)
                    (sat_solver.identities_of declared)
             else Ok [])
      with (@Ok (list constr) [])
      by (destruct sb; [now rewrite no_ones_ds_symmetry_breaking|reflexivity]).
    simpl. rewrite E.
    now destruct (check _).
Qed.

Lemma no_ones_row_connections i l acc :
  i < length a -> (forall j, In j l -> j <= i) ->
  fold_left (fun acc' j =>
               temp <- acc' ;;
               x <- cell a i j ;;
               if (x =? 1)%Z then Ok (temp + 1)%Z else Ok temp)
            l (Ok acc)
  = Ok acc.
Proof.
  intros Hi. revert acc. induction l as [|j l IH]; intros acc Hl; simpl.
  - reflexivity.
  - destruct (no_ones_cell i j) as [-> E]; [apply Hl; now left|assumption|].
    simpl. rewrite E. apply IH. intros j' Hj'. apply Hl. now right.
Qed.

Lemma no_ones_minimum_depth s : exists lo, minimum_depth s a = Ok lo.
Proof.
  destruct s; simpl; [|now exists 0%Z].
  unfold edge_colouring._max_outgoing_connections.
  assert (H : forall l acc,
             (forall i, In i l -> i < length a) ->
             exists lo,
               fold_left (fun acc i =>
                 max_outgoing_connections <- acc ;;
                 temp_connections <-
                   fold_left (fun acc' j =>
                     temp <- acc' ;;
                     x <- cell a i j ;;
                     if (x =? 1)%Z then Ok (temp + 1)%Z else Ok temp)
                     (seq 0 (i + 1)) (Ok 0%Z) ;;
                 Ok (Z.max max_outgoing_connections temp_connections))
                 l (Ok acc) = Ok lo).
  { induction l as [|i l IH]; intros acc Hl; simpl.
    - now exists acc.
    - rewrite no_ones_row_connections.
      + simpl. apply IH. intros i' Hi'. apply Hl. now right.
      + apply Hl. now left.
      + intros j Hj. apply in_seq in Hj. lia. }
  apply H. intros i Hi. apply in_seq in Hi. lia.
Qed.

Lemma no_ones_linear_loop s check sb depths :
  0 < length a ->
  forall st, exists st',
    linear_loop s check a sb depths st = Ok st'
    /\ l_mapping st' = l_mapping st.
Proof.
  intros Hn. induction depths as [|d depths IH]; intros st; simpl.
  - now exists st.
  - rewrite no_ones_synthesis by assumption. simpl.
    destruct (IH {| l_mapping := l_mapping st; l_depth := d;
                    l_solver_calls := (l_solver_calls st + 1)%Z;
                    l_probed := l_probed st ++ [d] |})
      as (st' & -> & E).
    now exists st'.
Qed.

Lemma no_ones_probe s check sb guard d c calls probed :
  0 < length a -> all_empty c ->
  exists c' calls' probed',
    probe s check a sb guard d (c, calls, probed) = Ok (c', calls', probed')
    /\ all_empty c'
    /\ (forall d', cache_get c d' <> None -> cache_get c' d' <> None)
    /\ (guard = true -> cache_get c' d <> None).
Proof.
  intros Hn Hc. unfold probe.
  destruct guard; simpl.
  - destruct (cache_get c d) as [mp|] eqn:E.
    + exists c, calls, probed. repeat split; auto.
      intros _. congruence.
    + rewrite no_ones_synthesis by assumption. simpl.
      exists (cache_set c d []), (calls + 1)%Z, (probed ++ [d]).
      split; [reflexivity|]. split; [|split].
      * intros d' mp. rewrite cache_get_set.
        destruct (Z.eqb_spec d d') as [->|]; [|apply Hc].
        intros H. now injection H as <-.
      * intros d'. rewrite cache_get_set.
        destruct (d =? d')%Z; [discriminate|auto].
      * intros _. rewrite cache_get_set, Z.eqb_refl. discriminate.
  - exists c, calls, probed. repeat split; auto. discriminate.
Qed.

Lemma no_ones_binary_loop s check sb fuel :
  0 < length a ->
  forall st, all_empty (b_cache st) ->
             binary_loop s check a sb fuel st = OutOfFuel.
Proof.
  intros Hn. induction fuel as [|fuel IH]; intros st Hc; [reflexivity|].
  rewrite binary_loop_step. cbv zeta.
  set (cur := ((b_left st + b_right st) / 2)%Z).
  destruct (no_ones_probe s check sb true cur (b_cache st)
              (b_solver_calls st) (b_probed st) Hn Hc)
    as (c1 & calls1 & probed1 & -> & Hc1 & Hkeep1 & Hin1).
  cbn [bind].
  destruct (no_ones_probe s check sb (negb (cur =? b_left st)%Z)
              (cur - 1)%Z c1 calls1 probed1 Hn Hc1)
    as (c2 & calls2 & probed2 & -> & Hc2 & Hkeep2 & Hin2).
  cbn [bind fst snd].
  unfold cache_item.
  destruct (cache_get c2 cur) as [mp|] eqn:E.
  - rewrite (Hc2 _ _ E). cbn [bind truthy negb].
    apply IH. exact Hc2.
  - exfalso. apply (Hkeep2 cur); [|assumption]. now apply Hin1.
Qed.

End NoOnes.

Lemma extract_square circuit_name :
  square (extract_adjacency_matrix circuit_name) = true.
Proof.
  destruct (extract_shape circuit_name) as (Hlen & Hrows & _).
  unfold square. apply forallb_forall. intros row Hrow.
  rewrite Forall_forall in Hrows. apply Nat.eqb_eq.
  rewrite (Hrows row Hrow). symmetry. exact Hlen.
Qed.

Lemma all_zero_false_rows a : all_zero a = false -> 0 < length a.
Proof. destruct a; simpl; [discriminate|lia]. Qed.

(** X1: on a square matrix with a row and without an entry equal to 1 the
    encoders see no edge: [_synthesis] returns the empty mapping at every
    depth whatever the solver says, so linear search ends its range with
    the list it started from and fails in the materializer, and the loop
    of binary search never ends. *)
Theorem searches_on_matrix_without_ones s check a sb :
  square a = true -> 0 < length a -> no_ones a = true ->
  (forall d, _synthesis s check a d sb = Ok [])
  /\ _linear_search s check a sb = Raise AttributeError
  /\ forall fuel, _binary_search s check a sb fuel = OutOfFuel.
Proof.
  intros Hsq Hn Hones. split; [|split].
  - intros d. now apply no_ones_synthesis.
  - unfold _linear_search, linear_search_run.
    destruct (no_ones_minimum_depth a Hsq Hones s) as (lo & ->). cbn [bind].
    destruct (no_ones_linear_loop a Hsq Hones s check sb
                (py_range lo (Z.of_nat (length a) + 1)) Hn
                {| l_mapping := EmptyList; l_depth := 0%Z;
                   l_solver_calls := 0%Z; l_probed := [] |})
      as (st' & -> & E).
    cbn [bind]. rewrite E. cbn [l_mapping]. rewrite materializer_list.
    apply Nat.ltb_lt in Hn. now rewrite Hn.
  - intros fuel. unfold _binary_search, binary_search_run.
    destruct (no_ones_minimum_depth a Hsq Hones s) as (lo & ->). cbn [bind].
    rewrite (no_ones_binary_loop a Hsq Hones); [reflexivity|assumption|].
    intros d mp H. discriminate.
Qed.

Lemma searches_on_matrix_without_ones_witness :
  (forall d, _synthesis DirectScheduling brute_force_check [[0; 2]; [2; 0]]%Z
                        d true = Ok [])
  /\ _linear_search DirectScheduling brute_force_check [[0; 2]; [2; 0]]%Z true
     = Raise AttributeError
  /\ forall fuel,
       _binary_search DirectScheduling brute_force_check [[0; 2]; [2; 0]]%Z
                      true fuel = OutOfFuel.
Proof.
  apply (searches_on_matrix_without_ones DirectScheduling brute_force_check
           [[0; 2]; [2; 0]]%Z true); [reflexivity|simpl; lia|reflexivity].
Defined.

(** X2: a circuit whose name holds a number other than 0 and no number 1
    (qiskit's default name [circuit-88], say) is not short-circuited as a
    graph without edges, and no depth is ever accepted for it: with linear
    search the entry point raises [AttributeError], with binary search it
    does not return. *)
Theorem synthesize_on_name_without_ones draw s check t0 t1 c sb :
  no_ones (extract_adjacency_matrix (name c)) = true ->
  all_zero (extract_adjacency_matrix (name c)) = false ->
  (forall fuel,
      synthesize draw s check fuel t0 t1 c sb true = Raise AttributeError)
  /\ (forall fuel, synthesize draw s check fuel t0 t1 c sb false = OutOfFuel).
Proof.
  intros Hones Hzero.
  pose proof (extract_square (name c)) as Hsq.
  pose proof (all_zero_false_rows _ Hzero) as Hn.
  split; intros fuel; unfold synthesize; rewrite Hzero.
  - unfold _linear_search, linear_search_run.
    destruct (no_ones_minimum_depth _ Hsq Hones s) as (lo & ->). cbn [bind].
    destruct (no_ones_linear_loop _ Hsq Hones s check sb
                (py_range lo
                   (Z.of_nat (length (extract_adjacency_matrix (name c))) + 1))
                Hn
                {| l_mapping := EmptyList; l_depth := 0%Z;
                   l_solver_calls := 0%Z; l_probed := [] |})
      as (st' & -> & E).
    cbn [bind]. rewrite E. cbn [l_mapping]. rewrite materializer_list.
    apply Nat.ltb_lt in Hn. now rewrite Hn.
  - unfold _binary_search, binary_search_run.
    destruct (no_ones_minimum_depth _ Hsq Hones s) as (lo & ->). cbn [bind].
    rewrite (no_ones_binary_loop _ Hsq Hones); [reflexivity|assumption|].
    intros d mp H. discriminate.
Qed.

Lemma synthesize_on_name_without_ones_witness :
  (forall fuel,
      synthesize draw_name EdgeColouring brute_force_check fuel 0 1
                 default_named_circuit false true = Raise AttributeError)
  /\ (forall fuel,
        synthesize draw_name EdgeColouring brute_force_check fuel 0 1
                   default_named_circuit false false = OutOfFuel).
Proof.
  apply (synthesize_on_name_without_ones draw_name EdgeColouring
           brute_force_check 0 1 default_named_circuit false);
    reflexivity.
Defined.

(** ** The depths binary search asks the solver about *)

Lemma NoDup_within lo hi (l : list Z) :
  NoDup l -> (forall d, In d l -> (lo <= d <= hi)%Z) ->
  (Z.of_nat (length l) <= Z.max 0 (hi - lo + 1))%Z.
Proof.
  intros Hnd Hin.
  assert (H : length l <= length (py_range lo (hi + 1))).
  { apply NoDup_incl_length; [assumption|].
    intros d Hd. apply in_py_range. specialize (Hin d Hd). lia. }
  rewrite py_range_length in H. lia.
Qed.

Section Probes.

Variable s : strategy.
Variable check : solver.
Variable adj : matrix.
Variable sb : bool.
Variable chi : Z.

Let ans := answer s check adj sb.

Hypothesis Hans : forall d, _synthesis s check adj d sb = Ok (ans d).
Hypothesis Hchi : forall d, truthy (ans d) = true <-> (chi <= d)%Z.

Lemma probe_probed guard d c calls probed :
  consistent s check adj sb c ->
  (forall x, In x probed <-> cache_get c x <> None) ->
  NoDup probed ->
  exists c' calls' probed',
    probe s check adj sb guard d (c, calls, probed) = Ok (c', calls', probed')
    /\ consistent s check adj sb c'
    /\ (forall x, In x probed' <-> cache_get c' x <> None)
    /\ NoDup probed'
    /\ (forall x, In x probed' <-> In x probed \/ (guard = true /\ x = d))
    /\ (calls' - Z.of_nat (length probed')
        = calls - Z.of_nat (length probed))%Z.
Proof.
  intros Hc Hkeys Hnd. unfold probe.
  destruct guard; simpl.
  - destruct (cache_get c d) as [mp|] eqn:E.
    + exists c, calls, probed. repeat split; auto.
      * apply Hkeys.
      * apply Hkeys.
      * intros [H|[_ ->]]; [assumption|]. apply Hkeys. congruence.
    + rewrite Hans. simpl.
      exists (cache_set c d (ans d)), (calls + 1)%Z, (probed ++ [d]).
      split; [reflexivity|]. split; [|split; [|split; [|split]]].
      * intros d' mp. rewrite cache_get_set.
        destruct (Z.eqb_spec d d') as [->|]; [|apply Hc].
        intros H. injection H as <-. reflexivity.
      * intros x. rewrite cache_get_set, in_app_iff. simpl.
        destruct (Z.eqb_spec d x) as [->|Hne].
        -- split; [discriminate|auto].
        -- rewrite Hkeys. split; [intros [H|[H|[]]]; [assumption|contradiction]|auto].
      * apply NoDup_app; [assumption|constructor; [intros []|constructor]|].
        intros x Hx [<-|[]]. apply Hkeys in Hx. congruence.
      * intros x. rewrite in_app_iff. simpl.
        split; [intros [H|[<-|[]]]; auto|intros [H|[_ ->]]; auto].
      * rewrite length_app. simpl. lia.
  - exists c, calls, probed.
    split; [reflexivity|]. split; [assumption|]. split; [assumption|].
    split; [assumption|]. split; [|reflexivity].
    intros x. split; [auto|].
    intros [H|[H _]]; [assumption|discriminate].
Qed.

Lemma binary_loop_probes lo hi fuel :
  forall st,
    (b_left st <= chi <= b_right st)%Z ->
    (lo <= b_left st)%Z -> (b_right st <= hi)%Z ->
    consistent s check adj sb (b_cache st) ->
    (forall x, In x (b_probed st) <-> cache_get (b_cache st) x <> None) ->
    NoDup (b_probed st) ->
    (forall x, In x (b_probed st) -> (lo <= x <= hi)%Z) ->
    (b_left st = lo \/ In (b_left st - 1)%Z (b_probed st)) ->
    (b_right st - b_left st < Z.of_nat fuel)%Z ->
    exists st',
      binary_loop s check adj sb fuel st = Ok st'
      /\ b_current st' = chi
      /\ NoDup (b_probed st')
      /\ (forall x, In x (b_probed st') -> (lo <= x <= hi)%Z)
      /\ In chi (b_probed st')
      /\ (chi = lo \/ In (chi - 1)%Z (b_probed st'))
      /\ (b_solver_calls st' - Z.of_nat (length (b_probed st'))
          = b_solver_calls st - Z.of_nat (length (b_probed st)))%Z.
Proof.
  induction fuel as [|fuel IH];
    intros st Hb Hlo Hhi Hc Hkeys Hnd Hrange Hleft Hfuel; [lia|].
  rewrite binary_loop_step. cbv zeta.
  set (cur := ((b_left st + b_right st) / 2)%Z).
  assert (Hcur : (b_left st <= cur <= b_right st)%Z).
  { unfold cur. split.
    - apply Z.div_le_lower_bound; lia.
    - apply Z.div_le_upper_bound; lia. }
  destruct (probe_probed true cur (b_cache st) (b_solver_calls st)
              (b_probed st) Hc Hkeys Hnd)
    as (c1 & calls1 & probed1 & E1 & Hc1 & Hkeys1 & Hnd1 & Hin1 & Hcount1).
  rewrite E1. cbn [bind].
  destruct (probe_probed (negb (cur =? b_left st)%Z) (cur - 1)%Z
              c1 calls1 probed1 Hc1 Hkeys1 Hnd1)
    as (c2 & calls2 & probed2 & E2 & Hc2 & Hkeys2 & Hnd2 & Hin2 & Hcount2).
  rewrite E2. cbn [bind]. cbn [fst snd].
  assert (Hcur2 : In cur probed2).
  { apply Hin2. left. apply Hin1. right. split; reflexivity. }
  assert (Hold : forall x, In x (b_probed st) -> In x probed2).
  { intros x Hx. apply Hin2. left. apply Hin1. now left. }
  assert (Hrange2 : forall x, In x probed2 -> (lo <= x <= hi)%Z).
  { intros x Hx. apply Hin2 in Hx as [Hx|[Hg ->]].
    - apply Hin1 in Hx as [Hx|[_ ->]]; [now apply Hrange|lia].
    - apply negb_true_iff, Z.eqb_neq in Hg. lia. }
  rewrite (cache_item_spec s check adj sb c2 cur Hc2)
    by (apply Hkeys2; assumption).
  cbn [bind]. fold ans.
  destruct (truthy (ans cur)) eqn:Ecur; simpl negb; cbv iota.
  - apply Hchi in Ecur.
    destruct (Z.eqb_spec cur (b_left st)) as [Eleft|Hne]; simpl negb.
    + simpl. eexists. split; [reflexivity|]. simpl.
      assert (cur = chi) by lia.
      split; [assumption|]. split; [assumption|]. split; [assumption|].
      split; [congruence|]. split; [|lia].
      destruct Hleft as [H0|H0]; [left; lia|right].
      apply Hold. replace (chi - 1)%Z with (b_left st - 1)%Z by lia.
      assumption.
    + assert (Hprev : In (cur - 1)%Z probed2).
      { apply Hin2. right. split; reflexivity. }
      rewrite (cache_item_spec s check adj sb c2 (cur - 1)%Z Hc2)
        by (apply Hkeys2; assumption).
      cbn [bind]. simpl andb. fold ans.
      destruct (truthy (ans (cur - 1)%Z)) eqn:Eprev.
      * apply Hchi in Eprev.
        destruct (IH {| b_left := b_left st; b_right := (cur - 1)%Z;
                        b_cache := c2; b_mapping := ans cur;
                        b_current := cur; b_solver_calls := calls2;
                        b_probed := probed2 |})
          as (st' & E' & H1 & H2 & H3 & H4 & H5 & H6); simpl; auto; try lia.
        { destruct Hleft as [H0|H0]; [now left|right; now apply Hold]. }
        rewrite E'. exists st'. split; [reflexivity|].
        repeat (split; [assumption|]). simpl in H6. lia.
      * eexists. split; [reflexivity|]. simpl.
        assert (cur = chi).
        { destruct (Z.le_gt_cases chi (cur - 1)) as [Hle|]; [|lia].
          apply Hchi in Hle. congruence. }
        split; [assumption|]. split; [assumption|]. split; [assumption|].
        split; [congruence|]. split; [right; congruence|lia].
  - assert (Hlt : (cur < chi)%Z).
    { destruct (Z.lt_ge_cases cur chi) as [|Hge]; [assumption|].
      apply Hchi in Hge. congruence. }
    destruct (IH {| b_left := (cur + 1)%Z; b_right := b_right st;
                    b_cache := c2; b_mapping := ans cur;
                    b_current := cur; b_solver_calls := calls2;
                    b_probed := probed2 |})
      as (st' & E' & H1 & H2 & H3 & H4 & H5 & H6); simpl; auto; try lia.
    { right. replace (cur + 1 - 1)%Z with cur by lia. assumption. }
    rewrite E'. exists st'. split; [reflexivity|].
    repeat (split; [assumption|]). simpl in H6. lia.
Qed.

End Probes.

(** X3: on a simple graph with an edge binary search never asks the solver
    twice about one depth, asks only about depths between the first depth
    and the number of nodes, counts one solver call per depth asked, hence
    at most one per depth of that range, and has asked about the depth it
    returns and, unless that is the first depth, about the depth below. *)
Theorem binary_search_probes s check adj sb fuel :
  simple_graph adj -> all_zero adj = false -> oracle_ok s check adj ->
  length adj < fuel ->
  exists st,
    binary_search_run s check adj sb fuel = Ok st
    /\ NoDup (b_probed st)
    /\ (forall d, In d (b_probed st) ->
                  (first_depth s adj <= d <= Z.of_nat (length adj))%Z)
    /\ b_solver_calls st = Z.of_nat (length (b_probed st))
    /\ (b_solver_calls st
        <= Z.of_nat (length adj) - first_depth s adj + 1)%Z
    /\ In (b_current st) (b_probed st)
    /\ (b_current st = first_depth s adj
        \/ In (b_current st - 1)%Z (b_probed st)).
Proof.
  intros Hsimple Hzero Hcheck Hfuel.
  destruct (searches_spec s check adj sb Hsimple Hzero Hcheck)
    as (chi & lo & F).
  assert (Elo : first_depth s adj = lo)
    by (symmetry; exact (sf_lo_eq F)).
  rewrite Elo.
  pose proof (sf_chi F) as Hchi.
  pose proof (sf_lo F) as Hlo.
  unfold binary_search_run. rewrite (sf_minimum F). cbn [bind].
  set (st0 := {| b_left := lo; b_right := Z.of_nat (length adj);
                 b_cache := []; b_mapping := []; b_current := 0%Z;
                 b_solver_calls := 0%Z; b_probed := [] |}).
  assert (H1 : consistent s check adj sb (b_cache st0))
    by (intros d mp H; discriminate).
  assert (H2 : forall x, In x (b_probed st0)
                         <-> cache_get (b_cache st0) x <> None)
    by (intros x; split; [intros []|intros H; now apply H]).
  assert (H3 : NoDup (b_probed st0)) by constructor.
  assert (H4 : forall x, In x (b_probed st0)
                         -> (lo <= x <= Z.of_nat (length adj))%Z)
    by (intros x []).
  destruct (binary_loop_probes s check adj sb chi
              (sf_answer F) (sf_truthy F)
              lo (Z.of_nat (length adj)) fuel st0)
    as (st & E & Hcur & Hnd & Hrange & Hin & Hprev & Hcount);
    try assumption; try (simpl; lia); try (now left).
  exists st. split; [exact E|]. split; [exact Hnd|].
  split; [exact Hrange|]. simpl in Hcount.
  assert (Ecalls : b_solver_calls st = Z.of_nat (length (b_probed st)))
    by lia.
  split; [exact Ecalls|]. rewrite Hcur.
  split; [|split; assumption].
  rewrite Ecalls.
  pose proof (NoDup_within lo (Z.of_nat (length adj)) _ Hnd Hrange). lia.
Qed.

Lemma binary_search_probes_witness :
  exists st,
    binary_search_run DirectScheduling brute_force_check four_nodes true 5
    = Ok st
    /\ NoDup (b_probed st)
    /\ (forall d, In d (b_probed st) ->
                  (first_depth DirectScheduling four_nodes <= d
                   <= Z.of_nat (length four_nodes))%Z)
    /\ b_solver_calls st = Z.of_nat (length (b_probed st))
    /\ (b_solver_calls st
        <= Z.of_nat (length four_nodes)
           - first_depth DirectScheduling four_nodes + 1)%Z
    /\ In (b_current st) (b_probed st)
    /\ (b_current st = first_depth DirectScheduling four_nodes
        \/ In (b_current st - 1)%Z (b_probed st)).
Proof.
  apply (binary_search_probes DirectScheduling brute_force_check four_nodes
           true 5);
    [reflexivity|reflexivity|apply brute_force_oracle_ok; reflexivity
    |simpl; lia].
Defined.

(** ** The circuit the entry point returns *)

Lemma synthesize_materialized draw s check adj sb chi lo fuel t0 t1 c lin :
  simple_graph adj -> all_zero adj = false ->
  search_facts s check adj sb chi lo ->
  extract_adjacency_matrix (name c) = adj -> length adj < fuel ->
  exists c' res,
    synthesize draw s check fuel t0 t1 c sb lin = Ok (c', res)
    /\ _map_synthesis_depth_optimal_mapping_to_qcircuit
         (Dict (answer s check adj sb chi)) adj = Ok c'
    /\ depth res = chi
    /\ circuit res = draw c'
    /\ single_qubit_gates res = count_single_qubit_gates c'
    /\ two_qubit_gates res = count_two_qubit_gates c'
    /\ gates res = (single_qubit_gates res + two_qubit_gates res)%Z.
Proof.
  intros Hs Hz F Ex Hfuel. unfold synthesize. rewrite Ex, Hz.
  destruct (materializer_edges (answer s check adj sb chi) adj)
    as (c' & Ec' & _);
    [pose proof (sf_chi F); lia|apply (sf_layers F)|].
  destruct lin.
  - unfold _linear_search. rewrite (sf_linear F). cbn [bind l_mapping].
    rewrite Ec'. cbn [bind l_depth l_solver_calls].
    eexists. eexists. split; [reflexivity|]. cbn. repeat split; auto.
  - unfold _binary_search.
    pose proof (sf_binary F) as Fbin.
    destruct (Fbin fuel Hfuel) as (st & Est & Hcur & Hmp & Hcalls).
    rewrite Est. cbn [bind]. rewrite Hmp, Ec'. cbn [bind].
    eexists. eexists. split; [reflexivity|]. cbn. repeat split; auto.
Qed.

(** X4: on a simple graph with an edge the circuit the entry point returns
    has one qubit per node, carries the matrix in its name, and holds one
    Hadamard per node followed by exactly one CZ per edge of the graph, on
    the two nodes of that edge, which are two different qubits of the
    circuit; the result reports these counts. *)
Theorem synthesized_circuit_gates draw s check adj sb fuel t0 t1 c lin :
  simple_graph adj -> all_zero adj = false -> oracle_ok s check adj ->
  extract_adjacency_matrix (name c) = adj -> length adj < fuel ->
  exists c' res gs,
    synthesize draw s check fuel t0 t1 c sb lin = Ok (c', res)
    /\ num_qubits c' = length adj
    /\ name c' = ("Depth optimal circuit of Graphstate g: "
                    ++ str_matrix adj)%string
    /\ data c' = map h_gate (seq 0 (length adj)) ++ gs
    /\ Permutation gs (layer_gates (edge_list adj))
    /\ Forall (fun ins => exists a b, ins = cz_gate a b
                                       /\ b < a < num_qubits c') gs
    /\ single_qubit_gates res = Z.of_nat (length adj)
    /\ two_qubit_gates res = Z.of_nat (length (edge_list adj))
    /\ gates res = Z.of_nat (length (data c'))
    /\ circuit res = draw c'.
Proof.
  intros Hs Hz Hok Ex Hfuel.
  destruct (searches_spec s check adj sb Hs Hz Hok) as (chi & lo & F).
  destruct (synthesize_materialized draw s check adj sb chi lo fuel t0 t1 c
              lin Hs Hz F Ex Hfuel)
    as (c' & res & E & Ec' & _ & Hdraw & H1 & H2 & Hg).
  destruct (materializer_returned _ _ _ Ec') as (Hq & Hname & Hdata).
  rewrite flat_map_layer_gates in Hdata.
  destruct (count_gates_materialized c' _ _ Hdata) as [S1 S2].
  pose proof (sf_layers F) as (_ & Hperm & _).
  exists c', res, (layer_gates (concat (map snd (answer s check adj sb chi)))).
  split; [exact E|]. split; [exact Hq|]. split; [exact Hname|].
  split; [exact Hdata|].
  split; [unfold layer_gates; now apply Permutation_map|].
  split.
  { apply Forall_forall. intros ins Hin. unfold layer_gates in Hin.
    apply in_map_iff in Hin as (e & <- & He).
    apply (Permutation_in _ Hperm), in_edge_list in He.
    exists (fst e), (snd e). split; [reflexivity|].
    rewrite Hq. apply He. }
  assert (E2 : length (concat (map snd (answer s check adj sb chi)))
               = length (edge_list adj))
    by now apply Permutation_length.
  split; [congruence|]. split; [congruence|]. split; [|exact Hdraw].
  rewrite Hg, H1, H2, S1, S2, Hdata, length_app, length_map, length_seq.
  unfold layer_gates. rewrite length_map. now rewrite Nat2Z.inj_add.
Qed.

Lemma synthesized_circuit_gates_witness :
  exists c' res gs,
    synthesize draw_name EdgeColouring brute_force_check 5 0 1
               {| num_qubits := 4; name := str_matrix four_nodes; data := [] |}
               true false = Ok (c', res)
    /\ num_qubits c' = length four_nodes
    /\ name c' = ("Depth optimal circuit of Graphstate g: "
                    ++ str_matrix four_nodes)%string
    /\ data c' = map h_gate (seq 0 (length four_nodes)) ++ gs
    /\ Permutation gs (layer_gates (edge_list four_nodes))
    /\ Forall (fun ins => exists a b, ins = cz_gate a b
                                       /\ b < a < num_qubits c') gs
    /\ single_qubit_gates res = Z.of_nat (length four_nodes)
    /\ two_qubit_gates res = Z.of_nat (length (edge_list four_nodes))
    /\ gates res = Z.of_nat (length (data c'))
    /\ circuit res = draw_name c'.
Proof.
  apply (synthesized_circuit_gates draw_name EdgeColouring brute_force_check
           four_nodes true 5 0 1
           {| num_qubits := 4; name := str_matrix four_nodes; data := [] |}
           false);
    [reflexivity|reflexivity|apply brute_force_oracle_ok; reflexivity
    |reflexivity|simpl; lia].
Defined.

(** X5: the two strategies return the same depth on a simple graph with an
    edge, whatever the search and the symmetry breaking setting of either:
    both find the least number of layers. *)
Theorem strategies_agree_on_depth draw check1 check2 adj fuel t0 t1 c
        sb1 sb2 lin1 lin2 :
  simple_graph adj -> all_zero adj = false ->
  oracle_ok EdgeColouring check1 adj -> oracle_ok DirectScheduling check2 adj ->
  extract_adjacency_matrix (name c) = adj -> length adj < fuel ->
  exists c1 res1 c2 res2,
    synthesize_graph_state_edge_colouring draw check1 fuel t0 t1 c sb1 lin1
    = Ok (c1, res1)
    /\ synthesize_graph_state_sat_solver draw check2 fuel t0 t1 c sb2 lin2
       = Ok (c2, res2)
    /\ depth res1 = depth res2
    /\ gates res1 = gates res2.
Proof.
  intros Hs Hz Hok1 Hok2 Ex Hfuel.
  destruct (searches_spec EdgeColouring check1 adj sb1 Hs Hz Hok1)
    as (chi1 & lo1 & F1).
  destruct (searches_spec DirectScheduling check2 adj sb2 Hs Hz Hok2)
    as (chi2 & lo2 & F2).
  destruct (synthesize_spec draw EdgeColouring check1 adj sb1 chi1 lo1 fuel
              t0 t1 c lin1 Hs Hz F1 Ex Hfuel)
    as (c1 & res1 & E1 & D1 & S1 & T1 & G1 & _).
  destruct (synthesize_spec draw DirectScheduling check2 adj sb2 chi2 lo2 fuel
              t0 t1 c lin2 Hs Hz F2 Ex Hfuel)
    as (c2 & res2 & E2 & D2 & S2 & T2 & G2 & _).
  exists c1, res1, c2, res2.
  split; [exact E1|]. split; [exact E2|]. split; [|congruence].
  rewrite D1, D2.
  pose proof (sf_chi F1) as B1. pose proof (sf_chi F2) as B2.
  assert (H12 : (chi2 <= chi1)%Z)
    by (apply (sf_colourable F2), (sf_colourable F1); lia).
  assert (H21 : (chi1 <= chi2)%Z)
    by (apply (sf_colourable F1), (sf_colourable F2); lia).
  lia.
Qed.

Lemma strategies_agree_on_depth_witness :
  exists c1 res1 c2 res2,
    synthesize_graph_state_edge_colouring draw_name brute_force_check 5 0 1
      {| num_qubits := 4; name := str_matrix four_nodes; data := [] |}
      true true = Ok (c1, res1)
    /\ synthesize_graph_state_sat_solver draw_name brute_force_check 5 0 1
         {| num_qubits := 4; name := str_matrix four_nodes; data := [] |}
         false false = Ok (c2, res2)
    /\ depth res1 = depth res2
    /\ gates res1 = gates res2.
Proof.
  apply (strategies_agree_on_depth draw_name brute_force_check
           brute_force_check four_nodes 5 0 1
           {| num_qubits := 4; name := str_matrix four_nodes; data := [] |}
           true false true false);
    [reflexivity|reflexivity|apply brute_force_oracle_ok; reflexivity
    |apply brute_force_oracle_ok; reflexivity|reflexivity|simpl; lia].
Defined.

(** ** The layers of the mapping the searches return *)

Lemma result_append_nonempty result c e :
  (forall c' es, In (c', es) result -> es <> []) ->
  forall c' es, In (c', es) (result_append result c e) -> es <> [].
Proof.
  induction result as [|[c0 es0] result IH]; simpl; intros H c' es Hin.
  - destruct Hin as [Hin|[]]. injection Hin as _ <-. discriminate.
  - destruct (c0 =? c)%Z.
    + destruct Hin as [Hin|Hin].
      * injection Hin as _ <-. now destruct es0.
      * apply (H c' es). now right.
    + destruct Hin as [Hin|Hin].
      * apply (H c' es). now left.
      * apply (IH (fun c1 es1 H1 => H c1 es1 (or_intror H1)) c' es Hin).
Qed.

Lemma read_model_nonempty m keys c es :
  In (c, es) (read_model m keys) -> es <> [].
Proof.
  unfold read_model.
  assert (H : forall result,
             (forall c' es', In (c', es') result -> es' <> []) ->
             forall c' es',
               In (c', es')
                  (fold_left (fun result e =>
                                result_append result
                                  (m (GateVar (fst e) (snd e))) e)
                             keys result) -> es' <> []).
  { induction keys as [|e keys IH]; simpl; intros result Hr; [exact Hr|].
    apply IH. now apply result_append_nonempty. }
  apply H. intros c' es' [].
Qed.

Lemma read_model_keys m keys c :
  In c (map fst (read_model m keys))
  <-> exists e, In e keys /\ m (GateVar (fst e) (snd e)) = c.
Proof.
  destruct (read_model_spec m keys) as (_ & Hperm & Hcol). split.
  - intros Hc. apply in_map_iff in Hc as ([c' es] & <- & Hin). simpl.
    destruct es as [|e es'].
    + exfalso. now apply (read_model_nonempty m keys c' []).
    + exists e. split.
      * apply (Permutation_in _ Hperm). apply in_concat.
        exists (e :: es'). split; [|now left].
        apply in_map_iff. now exists (c', e :: es').
      * apply (Hcol c' (e :: es')); [assumption|now left].
  - intros (e & He & <-).
    apply (Permutation_in _ (Permutation_sym Hperm)) in He.
    apply in_concat in He as (es & Hes & He).
    apply in_map_iff in Hes as ([c' es'] & <- & Hin). simpl in He.
    apply in_map_iff. exists (c', es'). split; [|assumption].
    simpl. symmetry. now apply (Hcol c' es').
Qed.

Section Layers.

Variable s : strategy.
Variable check : solver.
Variable adj : matrix.
Hypothesis Hsimple : simple_graph adj.
Hypothesis Hedges : edge_list adj <> [].
Hypothesis Hcheck : oracle_ok s check adj.

Lemma answer_model d sb :
  truthy (answer s check adj sb d) = true ->
  exists m, answer s check adj sb d = read_model m (edge_list adj)
            /\ proper adj m /\ in_range adj m d.
Proof.
  pose proof (edge_list_nodes adj Hedges) as Hn.
  destruct (encode_total adj Hsimple s d sb Hn) as (inst & Einst).
  destruct (encode_sound adj Hsimple s d sb inst Einst) as (Ekeys & Hsound).
  pose proof (Hcheck d sb inst Einst) as Hok.
  unfold answer, _synthesis. rewrite Einst. simpl.
  unfold solve, solver_answer_ok in *. rewrite Ekeys.
  destruct (check (assertions inst)) as [m|]; [|discriminate].
  intros _. exists m. split; [reflexivity|]. now apply Hsound.
Qed.

(** A colouring that leaves a colour out can do with one colour less. *)
Lemma unused_colour m d c0 :
  proper adj m -> in_range adj m d -> (0 <= c0 < d)%Z ->
  (forall e, In e (edge_list adj) -> m (GateVar (fst e) (snd e)) <> c0) ->
  colourable adj (d - 1).
Proof.
  intros Hp Hr Hc0 Hun.
  assert (Hren : renaming (swap c0 (d - 1)) d)
    by (apply swap_renaming; lia).
  destruct (relabel_valid adj Hsimple _ m d Hren Hp Hr) as [Hp' Hr'].
  exists (relabel (swap c0 (d - 1)) m). split; [assumption|].
  intros e He. specialize (Hr' e He). specialize (Hun e He).
  specialize (Hr e He). simpl in *. unfold swap in *.
  destruct (Z.eqb_spec (m (GateVar (fst e) (snd e))) c0); [contradiction|].
  destruct (Z.eqb_spec (m (GateVar (fst e) (snd e))) (d - 1)); lia.
Qed.

Lemma least_colouring_uses_all m chi c :
  (forall d, colourable adj d <-> (chi <= d)%Z) ->
  proper adj m -> in_range adj m chi ->
  (In c (map fst (read_model m (edge_list adj))) <-> (0 <= c < chi)%Z).
Proof.
  intros Hchi Hp Hr. rewrite read_model_keys. split.
  - intros (e & He & <-). now apply Hr.
  - intros Hc.
    destruct (in_dec Z.eq_dec c
                (map (fun e => m (GateVar (fst e) (snd e))) (edge_list adj)))
      as [Hin|Hout].
    + apply in_map_iff in Hin as (e & <- & He). now exists e.
    + exfalso.
      assert (Hcol : colourable adj (chi - 1)).
      { apply (unused_colour m chi c Hp Hr Hc).
        intros e He E. apply Hout. apply in_map_iff. now exists e. }
      apply Hchi in Hcol. lia.
Qed.

End Layers.

Lemma NoDup_range_length (l : list Z) d :
  NoDup l -> (forall c, In c l <-> (0 <= c < d)%Z) ->
  Z.of_nat (length l) = Z.max 0 d.
Proof.
  intros Hnd Hl.
  assert (H1 : length l <= length (py_range 0 d)).
  { apply NoDup_incl_length; [assumption|].
    intros c Hc. apply in_py_range. now apply Hl. }
  assert (H2 : length (py_range 0 d) <= length l).
  { apply NoDup_incl_length.
    - unfold py_range. apply Finite.Injective_map_NoDup; [|apply seq_NoDup].
      intros x y. lia.
    - intros c Hc. apply Hl. now apply in_py_range. }
  rewrite py_range_length in H1, H2. lia.
Qed.

(** X6: on a simple graph with an edge the mapping both searches return
    has exactly as many layers as the depth they return: its layer indices
    are the numbers below the depth, each once, and no layer is empty. *)
Theorem optimal_mapping_uses_every_layer s check adj sb fuel :
  simple_graph adj -> all_zero adj = false -> oracle_ok s check adj ->
  length adj < fuel ->
  exists stl stb mp,
    linear_search_run s check adj sb = Ok stl
    /\ binary_search_run s check adj sb fuel = Ok stb
    /\ l_mapping stl = Dict mp /\ b_mapping stb = mp
    /\ l_depth stl = b_current stb
    /\ Z.of_nat (length mp) = l_depth stl
    /\ NoDup (map fst mp)
    /\ (forall c, In c (map fst mp) <-> (0 <= c < l_depth stl)%Z)
    /\ (forall c es, In (c, es) mp -> es <> []).
Proof.
  intros Hs Hz Hok Hfuel.
  pose proof (all_zero_false_edges adj Hs Hz) as He.
  destruct (searches_spec s check adj sb Hs Hz Hok) as (chi & lo & F).
  pose proof (sf_binary F) as Fbin.
  destruct (Fbin fuel Hfuel) as (stb & Eb & Hcur & Hmp & _).
  assert (Htr : truthy (answer s check adj sb chi) = true)
    by (apply (sf_truthy F); lia).
  destruct (answer_model s check adj Hs He Hok chi sb Htr)
    as (m & Em & Hp & Hr).
  pose proof (least_colouring_uses_all adj Hs m chi) as Hall.
  destruct (read_model_spec m (edge_list adj)) as (Hnd & _).
  eexists. exists stb, (answer s check adj sb chi).
  split; [exact (sf_linear F)|]. split; [exact Eb|]. cbn [l_mapping l_depth].
  split; [reflexivity|]. split; [exact Hmp|]. split; [now symmetry|].
  rewrite Em.
  assert (Hkeys : forall c, In c (map fst (read_model m (edge_list adj)))
                            <-> (0 <= c < chi)%Z).
  { intros c. apply Hall; [exact (sf_colourable F)|assumption|assumption]. }
  split; [|split; [exact Hnd|split; [exact Hkeys|]]].
  - pose proof (NoDup_range_length _ chi Hnd Hkeys) as Hlen.
    rewrite length_map in Hlen. pose proof (sf_chi F). lia.
  - intros c es. apply read_model_nonempty.
Qed.

Lemma optimal_mapping_uses_every_layer_witness :
  exists stl stb mp,
    linear_search_run EdgeColouring brute_force_check four_nodes true = Ok stl
    /\ binary_search_run EdgeColouring brute_force_check four_nodes true 5
       = Ok stb
    /\ l_mapping stl = Dict mp /\ b_mapping stb = mp
    /\ l_depth stl = b_current stb
    /\ Z.of_nat (length mp) = l_depth stl
    /\ NoDup (map fst mp)
    /\ (forall c, In c (map fst mp) <-> (0 <= c < l_depth stl)%Z)
    /\ (forall c es, In (c, es) mp -> es <> []).
Proof.
  apply (optimal_mapping_uses_every_layer EdgeColouring brute_force_check
           four_nodes true 5);
    [reflexivity|reflexivity|apply brute_force_oracle_ok; reflexivity
    |simpl; lia].
Defined.

(** ** Names of matrices of numbers *)

Lemma uint_digits_are_digits d :
  Forall (fun c => is_digit c = true)
         (list_ascii_of_string (NilEmpty.string_of_uint d)).
Proof. induction d; simpl; constructor; auto. Qed.

Lemma uint_value_pos d p :
  uint_value d (Z.pos p) = Z.pos (Pos.of_uint_acc d p).
Proof.
  unfold uint_value. revert p.
  induction d; intros p;
    cbn [NilEmpty.string_of_uint list_ascii_of_string fold_left
         Pos.of_uint_acc];
    try reflexivity; rewrite <- IHd; f_equal;
    match goal with
    | |- context [Z.of_nat ?n] =>
        let k := eval vm_compute in (Z.of_nat n) in
        change (Z.of_nat n) with k
    end; lia.
Qed.

Lemma uint_value_zero d : uint_value d 0 = Z.of_N (Pos.of_uint d).
Proof.
  induction d; try reflexivity;
    try (unfold uint_value; simpl;
         match goal with
         | |- _ = Z.pos (Pos.of_uint_acc d ?q) =>
             rewrite <- uint_value_pos; reflexivity
         end).
  exact IHd.
Qed.

(** Reading on through a run of digits. *)
Lemma findall_digit_run s t run :
  Forall (fun c => is_digit c = true) (list_ascii_of_string s) ->
  findall_digits (s ++ t) run
  = findall_digits t (rev (list_ascii_of_string s) ++ run).
Proof.
  revert run. induction s as [|c s IH]; intros run H; simpl.
  - reflexivity.
  - inversion H as [|? ? Hc Hs]; subst. rewrite Hc.
    rewrite IH by assumption. now rewrite <- app_assoc.
Qed.

Lemma str_int_digits z :
  (0 <= z)%Z ->
  Forall (fun c => is_digit c = true) (digits_of z)
  /\ digits_of z <> []
  /\ int_of_digits (digits_of z) = z.
Proof.
  intros Hz. unfold digits_of, str_int.
  destruct z as [|p|p]; [|clear Hz|lia].
  - simpl. repeat split; [repeat constructor|discriminate].
  - simpl Z.to_int. simpl NilZero.string_of_int.
    assert (E : NilZero.string_of_uint (Pos.to_uint p)
                = NilEmpty.string_of_uint (Pos.to_uint p)).
    { pose proof (DecimalPos.Unsigned.to_uint_nonnil p) as Hnil.
      now destruct (Pos.to_uint p). }
    rewrite E. split; [apply uint_digits_are_digits|]. split.
    + pose proof (DecimalPos.Unsigned.to_uint_nonnil p) as Hnil.
      destruct (Pos.to_uint p); try discriminate.
    + change (uint_value (Pos.to_uint p) 0 = Z.pos p).
      now rewrite uint_value_zero, DecimalPos.Unsigned.of_to.
Qed.

Lemma findall_number z c rest :
  (0 <= z)%Z -> is_digit c = false ->
  findall_digits (str_int z ++ String c rest) []
  = digits_of z :: findall_digits rest [].
Proof.
  intros Hz Hc. destruct (str_int_digits z Hz) as (Hd & Hne & _).
  rewrite findall_digit_run by exact Hd.
  simpl. rewrite Hc, app_nil_r. fold (digits_of z).
  unfold close_run.
  destruct (rev (digits_of z)) eqn:E.
  - exfalso. apply Hne. rewrite <- (rev_involutive (digits_of z)), E.
    reflexivity.
  - rewrite <- E, rev_involutive. reflexivity.
Qed.

(** A row of numbers, followed by a character that is not a digit. *)
Lemma findall_numbers row c rest :
  Forall (fun z => (0 <= z)%Z) row -> is_digit c = false ->
  findall_digits (join ", " (map str_int row) ++ String c rest) []
  = map digits_of row ++ findall_digits rest [].
Proof.
  intros Hrow Hc. induction Hrow as [|z row Hz Hrow IH].
  - simpl. now rewrite Hc.
  - destruct row as [|y row].
    + simpl join. simpl map. now rewrite findall_number.
    + change (join ", " (map str_int (z :: y :: row)))
        with (str_int z ++ ", " ++ join ", " (map str_int (y :: row)))%string.
      rewrite !append_assoc.
      change (", " ++ join ", " (map str_int (y :: row)) ++ String c rest)%string
        with (String "," (String " "
                (join ", " (map str_int (y :: row)) ++ String c rest)))%string.
      rewrite findall_number by auto. simpl map. simpl app. f_equal.
      simpl findall_digits at 1. exact IH.
Qed.

Lemma findall_number_row row c rest :
  Forall (fun z => (0 <= z)%Z) row -> is_digit c = false ->
  findall_digits (str_list str_int row ++ String c rest) []
  = map digits_of row ++ findall_digits rest [].
Proof.
  intros Hrow Hc. unfold str_list.
  rewrite !append_assoc. simpl.
  change ("]" ++ String c rest)%string with (String "]" (String c rest)).
  rewrite findall_numbers by auto. f_equal. simpl. now rewrite Hc.
Qed.

Lemma findall_number_rows (a : matrix) c rest :
  Forall (Forall (fun z => (0 <= z)%Z)) a -> is_digit c = false ->
  findall_digits (join ", " (map (str_list str_int) a) ++ String c rest) []
  = flat_map (map digits_of) a ++ findall_digits rest [].
Proof.
  intros Ha Hc. induction Ha as [|row a Hrow Ha IH].
  - simpl. now rewrite Hc.
  - destruct a as [|row' a].
    + simpl join. simpl flat_map. rewrite app_nil_r.
      now rewrite findall_number_row.
    + change (join ", " (map (str_list str_int) (row :: row' :: a)))
        with (str_list str_int row ++ ", "
              ++ join ", " (map (str_list str_int) (row' :: a)))%string.
      rewrite !append_assoc.
      change (", " ++ join ", " (map (str_list str_int) (row' :: a))
              ++ String c rest)%string
        with (String "," (String " "
                (join ", " (map (str_list str_int) (row' :: a))
                 ++ String c rest)))%string.
      rewrite findall_number_row by auto.
      simpl flat_map. rewrite <- app_assoc. f_equal.
      simpl findall_digits at 1. exact IH.
Qed.

Lemma findall_number_matrix (a : matrix) :
  Forall (Forall (fun z => (0 <= z)%Z)) a ->
  findall_digits (str_matrix a) [] = flat_map (map digits_of) a.
Proof.
  intros Ha. unfold str_matrix, str_list at 1.
  simpl. rewrite findall_number_rows by auto. simpl. apply app_nil_r.
Qed.

Lemma numbers_of_digits (a : matrix) :
  Forall (Forall (fun z => (0 <= z)%Z)) a ->
  map int_of_digits (flat_map (map digits_of) a) = concat a.
Proof.
  induction 1 as [|row a Hrow _ IH]; simpl; [reflexivity|].
  rewrite map_app, IH. f_equal.
  rewrite map_map. rewrite <- (map_id row) at 2.
  apply map_ext_in. intros z Hz. apply str_int_digits.
  rewrite Forall_forall in Hrow. auto.
Qed.

Lemma findall_no_digits prefix s :
  no_digits prefix = true ->
  findall_digits (prefix ++ s) [] = findall_digits s [].
Proof.
  unfold no_digits. induction prefix as [|c prefix IH]; simpl; intros H.
  - reflexivity.
  - apply andb_prop in H as [Hc H]. apply negb_true_iff in Hc.
    rewrite Hc. simpl. now apply IH.
Qed.

Lemma int_of_digits_nonneg ds : (0 <= int_of_digits ds)%Z.
Proof.
  unfold int_of_digits.
  assert (H : forall acc, (0 <= acc)%Z ->
                          (0 <= fold_left
                                  (fun acc c =>
                                     (10 * acc
                                      + Z.of_nat (nat_of_ascii c - 48))%Z)
                                  ds acc)%Z).
  { induction ds as [|c ds IH]; cbn [fold_left]; intros acc Hacc;
      [assumption|].
    apply IH. pose proof (Nat2Z.is_nonneg (nat_of_ascii c - 48)). lia. }
  apply H. lia.
Qed.

Lemma in_firstn {A} n (l : list A) x : In x (firstn n l) -> In x l.
Proof.
  revert l. induction n as [|n IH]; intros l; simpl; [intros []|].
  destruct l as [|y l]; simpl; [intros []|].
  intros [E|H]; [now left|right; now apply IH].
Qed.

Lemma in_skipn {A} n (l : list A) x : In x (skipn n l) -> In x l.
Proof.
  revert l. induction n as [|n IH]; intros [|y l]; simpl; auto.
Qed.

Lemma extract_nonneg circuit_name row x :
  In row (extract_adjacency_matrix circuit_name) -> In x row -> (0 <= x)%Z.
Proof.
  unfold extract_adjacency_matrix. intros Hrow Hx.
  apply in_map_iff in Hrow as (i & <- & _).
  unfold slice in Hx. apply in_firstn, in_skipn in Hx.
  apply in_map_iff in Hx as (ds & <- & _). apply int_of_digits_nonneg.
Qed.

Lemma extract_printed prefix (a : matrix) :
  no_digits prefix = true -> square a = true ->
  Forall (Forall (fun z => (0 <= z)%Z)) a ->
  extract_adjacency_matrix (prefix ++ str_matrix a)%string = a.
Proof.
  intros Hp Hsq Hpos.
  assert (Hrows : Forall (fun row => length row = length a) a).
  { apply Forall_forall. intros row Hrow. unfold square in Hsq.
    rewrite forallb_forall in Hsq. now apply Nat.eqb_eq, Hsq. }
  pose proof (extract_shape (prefix ++ str_matrix a)%string) as H.
  cbv zeta in H.
  assert (Enum : map int_of_digits
                   (findall_digits (prefix ++ str_matrix a) [])
                 = concat a).
  { rewrite findall_no_digits, findall_number_matrix by assumption.
    now apply numbers_of_digits. }
  rewrite Enum in H.
  rewrite (length_concat_rows (length a)) in H by assumption.
  rewrite Nat.sqrt_square in H. destruct H as (Hlen & Hr & Hc).
  apply (rows_unique (length a)); auto.
  rewrite Hc. apply firstn_all2.
  rewrite (length_concat_rows (length a)) by assumption. lia.
Qed.

(** X7: a square matrix is read back from a name that ends with its
    printed form and has no digit before it exactly when none of its
    entries is negative; the sign of a negative entry is lost. *)
Theorem name_round_trip prefix a :
  no_digits prefix = true -> square a = true ->
  (extract_adjacency_matrix (prefix ++ str_matrix a)%string = a
   <-> forall row x, In row a -> In x row -> (0 <= x)%Z).
Proof.
  intros Hp Hsq. split.
  - intros E row x Hrow Hx. rewrite <- E in Hrow.
    exact (extract_nonneg _ row x Hrow Hx).
  - intros Hpos. apply extract_printed; try assumption.
    apply Forall_forall. intros row Hrow.
    apply Forall_forall. intros x Hx. now apply (Hpos row).
Qed.

Lemma name_round_trip_witness :
  extract_adjacency_matrix ("graph: " ++ str_matrix [[0; 12]; [305; 7]]%Z)
  = [[0; 12]; [305; 7]]%Z
  <-> forall row x, In row [[0; 12]; [305; 7]]%Z -> In x row -> (0 <= x)%Z.
Proof.
  apply (name_round_trip "graph: " [[0; 12]; [305; 7]]%Z); reflexivity.
Defined.

(** ** Running the entry point on its own result *)

Lemma materialized_name d adj c :
  _map_synthesis_depth_optimal_mapping_to_qcircuit d adj = Ok c ->
  name c = ("Depth optimal circuit of Graphstate g: " ++ str_matrix adj)%string.
Proof.
  destruct d as [|mp].
  - rewrite materializer_list. now destruct (0 <? length adj).
  - intros H. now destruct (materializer_returned mp adj c H) as (_ & E & _).
Qed.

Lemma search_circuit_name s check adj sb lin fuel c d k :
  (if lin : bool then _linear_search s check adj sb
   else _binary_search s check adj sb fuel) = Ok (c, d, k) ->
  name c = ("Depth optimal circuit of Graphstate g: " ++ str_matrix adj)%string.
Proof.
  destruct lin.
  - unfold _linear_search.
    destruct (linear_search_run s check adj sb) as [st| |]; try discriminate.
    cbn [bind].
    destruct (_map_synthesis_depth_optimal_mapping_to_qcircuit
                (l_mapping st) adj) as [c'| |] eqn:E; try discriminate.
    cbn [bind]. intros H. injection H as <- _ _.
    exact (materialized_name _ _ _ E).
  - unfold _binary_search.
    destruct (binary_search_run s check adj sb fuel) as [st| |];
      try discriminate.
    cbn [bind].
    destruct (_map_synthesis_depth_optimal_mapping_to_qcircuit
                (Dict (b_mapping st)) adj) as [c'| |] eqn:E; try discriminate.
    cbn [bind]. intros H. injection H as <- _ _.
    exact (materialized_name _ _ _ E).
Qed.

Lemma extract_is_printable circuit_name :
  Forall (Forall (fun z => (0 <= z)%Z)) (extract_adjacency_matrix circuit_name).
Proof.
  apply Forall_forall. intros row Hrow. apply Forall_forall. intros x Hx.
  exact (extract_nonneg circuit_name row x Hrow Hx).
Qed.

(** X8: the entry point is idempotent: whenever it returns, running it
    again on the circuit it returned, with the same arguments, returns the
    same circuit and the same result.  No assumption is made on the solver
    or on the name of the circuit. *)
Theorem synthesize_idempotent draw s check fuel t0 t1 c sb lin c' res :
  synthesize draw s check fuel t0 t1 c sb lin = Ok (c', res) ->
  synthesize draw s check fuel t0 t1 c' sb lin = Ok (c', res).
Proof.
  intros H. pose proof H as H0. unfold synthesize in H.
  destruct (all_zero (extract_adjacency_matrix (name c))) eqn:Ez.
  - injection H as <- _. exact H0.
  - destruct (if lin
              then _linear_search s check (extract_adjacency_matrix (name c)) sb
              else _binary_search s check (extract_adjacency_matrix (name c))
                                  sb fuel)
      as [[[c1 d] k]| |] eqn:Es; try discriminate.
    cbn [bind] in H. injection H as <- _.
    pose proof (search_circuit_name _ _ _ _ _ _ _ _ _ Es) as Hname.
    assert (Ex : extract_adjacency_matrix (name c1)
                 = extract_adjacency_matrix (name c)).
    { rewrite Hname. apply extract_printed.
      - reflexivity.
      - apply extract_square.
      - apply extract_is_printable. }
    rewrite <- H0. unfold synthesize. rewrite Ex, Ez. reflexivity.
Qed.

Lemma synthesize_idempotent_witness :
  synthesize draw_name DirectScheduling brute_force_check 5 0 1
    {| num_qubits := 4;
       name := "Depth optimal circuit of Graphstate g: [[0, 1, 1, 0], [1, 0, 1, 1], [1, 1, 0, 1], [0, 1, 1, 0]]";
       data := map h_gate (seq 0 4)
               ++ layer_gates [(1, 0); (3, 2); (2, 0); (3, 1); (2, 1)] |}
    true false
  = Ok ({| num_qubits := 4;
           name := "Depth optimal circuit of Graphstate g: [[0, 1, 1, 0], [1, 0, 1, 1], [1, 1, 0, 1], [0, 1, 1, 0]]";
           data := map h_gate (seq 0 4)
                   ++ layer_gates [(1, 0); (3, 2); (2, 0); (3, 1); (2, 1)] |},
        {| circuit := "Depth optimal circuit of Graphstate g: [[0, 1, 1, 0], [1, 0, 1, 1], [1, 1, 0, 1], [0, 1, 1, 0]]"%string;
           depth := 3%Z; gates := 9%Z; runtime := 1%Z;
           single_qubit_gates := 4%Z; solver_calls := 3%Z;
           tableau := "Not available yet"%string; two_qubit_gates := 5%Z;
           _is_sat := true |}).
Proof.
  apply (synthesize_idempotent draw_name DirectScheduling brute_force_check
           5 0 1
           {| num_qubits := 4; name := str_matrix four_nodes; data := [] |}
           true false).
  vm_compute. reflexivity.
Defined.

(** ** Local unitaries *)

Lemma append_step circuit qubit gate :
  (if (gate =? "X")%string then circuit_gate "x" circuit qubit
   else if (gate =? "Y")%string then circuit_gate "y" circuit qubit
   else if (gate =? "Z")%string then circuit_gate "z" circuit qubit
   else if (gate =? "H")%string then circuit_gate "h" circuit qubit
   else if (gate =? "S")%string then circuit_gate "s" circuit qubit
   else Ok circuit)
  = match local_gate gate with
    | Some op => circuit_gate op circuit qubit
    | None => Ok circuit
    end.
Proof.
  unfold local_gate.
  destruct (gate =? "X")%string; [reflexivity|].
  destruct (gate =? "Y")%string; [reflexivity|].
  destruct (gate =? "Z")%string; [reflexivity|].
  destruct (gate =? "H")%string; [reflexivity|].
  destruct (gate =? "S")%string; reflexivity.
Qed.

(** The function returns exactly when every entry with a known label
    names a qubit of the circuit; it raises [CircuitError] otherwise. *)
Lemma append_local_unitaries_result us :
  forall c,
    append_local_unitaries_to_circuit c us
    = if unitaries_in_range (num_qubits c) us
      then Ok {| num_qubits := num_qubits c; name := name c;
                 data := data c ++ local_gates us |}
      else Raise CircuitError.
Proof.
  unfold unitaries_in_range, local_gates.
  induction us as [|[qubit gate] us IH]; intros c;
    cbn [append_local_unitaries_to_circuit forallb flat_map fst snd].
  - rewrite app_nil_r. now destruct c.
  - rewrite append_step. unfold circuit_gate.
    destruct (local_gate gate) as [op|].
    + destruct (qubit <? num_qubits c); cbn [bind andb]; [|reflexivity].
      rewrite IH. cbn [num_qubits name data].
      destruct (forallb _ us); [|reflexivity].
      now rewrite <- app_assoc.
    + cbn [bind andb app]. apply IH.
Qed.

Lemma append_local_unitaries_data us c c' :
  append_local_unitaries_to_circuit c us = Ok c' ->
  c' = {| num_qubits := num_qubits c; name := name c;
          data := data c ++ local_gates us |}.
Proof.
  rewrite append_local_unitaries_result.
  destruct (unitaries_in_range (num_qubits c) us); [|discriminate].
  intros H. now injection H as <-.
Qed.

Lemma local_gates_single us :
  Forall (fun ins => length (qubits ins) = 1) (local_gates us).
Proof.
  apply Forall_forall. intros ins Hin. unfold local_gates in Hin.
  apply in_flat_map in Hin as (u & _ & Hin).
  destruct (local_gate (snd u)); [|destruct Hin].
  destruct Hin as [<-|[]]. reflexivity.
Qed.

Lemma count_single_app c l :
  count_single_qubit_gates
    {| num_qubits := num_qubits c; name := name c; data := data c ++ l |}
  = (count_single_qubit_gates c
     + Z.of_nat (length (filter (fun ins => (length (qubits ins) =? 1)%nat) l)))%Z.
Proof.
  unfold count_single_qubit_gates. simpl. rewrite fold_left_app.
  apply (count_gates_from (fun n => n =? 1)).
Qed.

Lemma count_two_app c l :
  count_two_qubit_gates
    {| num_qubits := num_qubits c; name := name c; data := data c ++ l |}
  = (count_two_qubit_gates c
     + Z.of_nat (length (filter (fun ins => (length (qubits ins) =? 2)%nat) l)))%Z.
Proof.
  unfold count_two_qubit_gates. simpl. rewrite fold_left_app.
  apply (count_gates_from (fun n => n =? 2)).
Qed.

Lemma append_local_unitaries_counts c us c' :
  append_local_unitaries_to_circuit c us = Ok c' ->
  count_single_qubit_gates c'
  = (count_single_qubit_gates c + Z.of_nat (length (local_gates us)))%Z
  /\ count_two_qubit_gates c' = count_two_qubit_gates c.
Proof.
  intros H. rewrite (append_local_unitaries_data us c c' H). split.
  - rewrite count_single_app. f_equal. f_equal. f_equal.
    apply filter_all. intros ins Hin.
    pose proof (local_gates_single us) as Hs. rewrite Forall_forall in Hs.
    now rewrite (Hs ins Hin).
  - rewrite count_two_app.
    rewrite (filter_none (fun ins => length (qubits ins) =? 2)); [simpl; lia|].
    intros ins Hin.
    pose proof (local_gates_single us) as Hs. rewrite Forall_forall in Hs.
    now rewrite (Hs ins Hin).
Qed.



(** ** The dispatcher *)

Lemma synthesize_counts draw s check fuel t0 t1 c sb lin c' res :
  synthesize draw s check fuel t0 t1 c sb lin = Ok (c', res) ->
  circuit res = draw c'
  /\ single_qubit_gates res = count_single_qubit_gates c'
  /\ two_qubit_gates res = count_two_qubit_gates c'
  /\ gates res = (single_qubit_gates res + two_qubit_gates res)%Z.
Proof.
  unfold synthesize.
  destruct (all_zero (extract_adjacency_matrix (name c))).
  - intros H. injection H as <- <-. simpl. auto.
  - destruct (if lin
              then _linear_search s check (extract_adjacency_matrix (name c)) sb
              else _binary_search s check (extract_adjacency_matrix (name c))
                                  sb fuel)
      as [[[c1 d] k]| |]; try discriminate.
    cbn [bind]. intros H. injection H as <- <-. simpl. auto.
Qed.

(** X10: when [optimize_clifford] maps the circuit to a graph state and
    returns, the local unitaries are appended after the result was drawn
    up: the returned circuit has as many single-qubit gates as the result
    reports plus one for every known local unitary, the drawing and the
    counts of the result are those of the circuit before them, and the
    [graph_state] flag of the call makes no difference. *)
Theorem optimize_clifford_counts_before_unitaries
        draw check fuel t0 t1 to_graph_state_circuit GraphState
        qmap_optimize_clifford circuit0 graph_state use_edge_coloring
        use_symmetry_breaking linear_search c res :
  optimize_clifford draw check fuel t0 t1 to_graph_state_circuit GraphState
                    qmap_optimize_clifford circuit0 graph_state true
                    use_edge_coloring use_symmetry_breaking linear_search
  = Ok (c, res) ->
  exists graph unitaries synthesized,
    map_stabilizer_circuit_to_graph_state_circuit
      to_graph_state_circuit GraphState circuit0 = Ok (graph, unitaries)
    /\ synthesize draw
         (if use_edge_coloring then EdgeColouring else DirectScheduling)
         check fuel t0 t1 graph use_symmetry_breaking linear_search
       = Ok (synthesized, res)
    /\ append_local_unitaries_to_circuit synthesized unitaries = Ok c
    /\ circuit res = draw synthesized
    /\ count_single_qubit_gates c
       = (single_qubit_gates res + Z.of_nat (length (local_gates unitaries)))%Z
    /\ count_two_qubit_gates c = two_qubit_gates res
    /\ gates res = (single_qubit_gates res + two_qubit_gates res)%Z
    /\ optimize_clifford draw check fuel t0 t1 to_graph_state_circuit
         GraphState qmap_optimize_clifford circuit0 (negb graph_state) true
         use_edge_coloring use_symmetry_breaking linear_search
       = Ok (c, res).
Proof.
  intros H. pose proof H as H0. unfold optimize_clifford in H.
  destruct (map_stabilizer_circuit_to_graph_state_circuit
              to_graph_state_circuit GraphState circuit0)
    as [[graph unitaries]| |] eqn:Emap; try discriminate.
  cbn [bind] in H.
  assert (Es : exists synthesized,
             synthesize draw
               (if use_edge_coloring then EdgeColouring else DirectScheduling)
               check fuel t0 t1 graph use_symmetry_breaking linear_search
             = Ok (synthesized, res)
             /\ append_local_unitaries_to_circuit synthesized unitaries
                = Ok c).
  { unfold synthesize_graph_state_edge_colouring,
      synthesize_graph_state_sat_solver in H.
    destruct use_edge_coloring;
      match type of H with
      | bind ?x _ = _ => destruct x as [[c1 r1]| |]; try discriminate
      end;
      cbn [bind] in H;
      destruct (append_local_unitaries_to_circuit c1 unitaries)
        as [c2| |] eqn:Ea; try discriminate;
      cbn [bind] in H; injection H as <- <-; exists c1; auto. }
  destruct Es as (synthesized & Es & Ea).
  destruct (synthesize_counts _ _ _ _ _ _ _ _ _ _ _ Es)
    as (Hdraw & H1 & H2 & Hg).
  destruct (append_local_unitaries_counts synthesized unitaries c Ea)
    as [S1 S2].
  exists graph, unitaries, synthesized.
  split; [reflexivity|]. split; [exact Es|]. split; [exact Ea|].
  split; [exact Hdraw|]. split; [now rewrite S1, H1|].
  split; [now rewrite S2, H2|]. split; [exact Hg|].
  rewrite <- H0. unfold optimize_clifford. rewrite Emap. reflexivity.
Qed.

Lemma optimize_clifford_counts_before_unitaries_witness :
  exists c res,
    optimize_clifford draw_name brute_force_check 4 0 1
      (fun _ => Ok (3, stim_sample)) graph_state_circuit
      (fun _ _ _ => Raise AttributeError) default_named_circuit false true
      true false true = Ok (c, res)
    /\ exists graph unitaries synthesized,
         map_stabilizer_circuit_to_graph_state_circuit
           (fun _ => Ok (3, stim_sample)) graph_state_circuit
           default_named_circuit = Ok (graph, unitaries)
         /\ synthesize draw_name EdgeColouring brute_force_check 4 0 1 graph
                       false true = Ok (synthesized, res)
         /\ append_local_unitaries_to_circuit synthesized unitaries = Ok c
         /\ circuit res = draw_name synthesized
         /\ count_single_qubit_gates c
            = (single_qubit_gates res
               + Z.of_nat (length (local_gates unitaries)))%Z
         /\ count_two_qubit_gates c = two_qubit_gates res
         /\ gates res = (single_qubit_gates res + two_qubit_gates res)%Z
         /\ optimize_clifford draw_name brute_force_check 4 0 1
              (fun _ => Ok (3, stim_sample)) graph_state_circuit
              (fun _ _ _ => Raise AttributeError) default_named_circuit
              (negb false) true true false true = Ok (c, res).
Proof.
  eexists. eexists. split; [vm_compute; reflexivity|].
  apply (optimize_clifford_counts_before_unitaries draw_name
           brute_force_check 4 0 1 (fun _ => Ok (3, stim_sample))
           graph_state_circuit (fun _ _ _ => Raise AttributeError)
           default_named_circuit false true false true).
  vm_compute. reflexivity.
Defined.

(** ** Matrices written by index *)

Lemma length_update {A} (l : list A) i v : length (update l i v) = length l.
Proof.
  revert i. induction l as [|x l IH]; intros [|i]; simpl; auto.
Qed.

Lemma nth_update {A} (l : list A) i v j d :
  nth j (update l i v) d
  = if (j =? i) && (i <? length l) then v else nth j l d.
Proof.
  revert i j. induction l as [|x l IH]; intros i j; simpl.
  - rewrite andb_false_r. now destruct i, j.
  - destruct i as [|i], j as [|j]; simpl; try reflexivity.
    rewrite IH. reflexivity.
Qed.

Lemma set_cell_ok m a b v :
  a < length m -> b < length (nth a m []) ->
  set_cell m a b v = Ok (with_cell m a b v).
Proof.
  intros Ha Hb. unfold set_cell, item, setitem, with_cell.
  rewrite (nth_error_nth' m [] Ha). simpl.
  apply Nat.ltb_lt in Hb. now rewrite Hb.
Qed.

Lemma set_cell_raise m a b v :
  ~ (a < length m /\ b < length (nth a m [])) ->
  set_cell m a b v = Raise IndexError.
Proof.
  intros H. unfold set_cell, item, setitem.
  destruct (nth_error m a) as [row|] eqn:E; [|reflexivity].
  simpl. destruct (Nat.ltb_spec b (length row)) as [Hb|Hb]; [|reflexivity].
  exfalso. apply H.
  assert (Ha : a < length m) by (apply nth_error_Some; congruence).
  split; [assumption|].
  rewrite (nth_error_nth' m [] Ha) in E. injection E as ->. assumption.
Qed.

(** A matrix with [n] rows of [n] entries. *)
Lemma square_shape m :
  square m = true <-> forall i, i < length m -> length (nth i m []) = length m.
Proof.
  unfold square. rewrite forallb_forall. split.
  - intros H i Hi. apply Nat.eqb_eq, H. now apply nth_In.
  - intros H row Hrow. destruct (In_nth _ _ [] Hrow) as (i & Hi & <-).
    apply Nat.eqb_eq. now apply H.
Qed.

Lemma with_cell_square m a b v :
  square m = true -> square (with_cell m a b v) = true.
Proof.
  rewrite !square_shape. unfold with_cell. intros H i.
  rewrite length_update. intros Hi. rewrite nth_update.
  destruct ((i =? a) && (a <? length m)) eqn:E; [|now apply H].
  apply andb_prop in E as [E _]. apply Nat.eqb_eq in E. subst i.
  rewrite length_update. now apply H.
Qed.

Lemma with_cell_length m a b v : length (with_cell m a b v) = length m.
Proof. unfold with_cell. apply length_update. Qed.

Lemma with_cell_entry m a b v i j :
  square m = true -> a < length m -> b < length m ->
  entry (with_cell m a b v) i j
  = if (i =? a) && (j =? b) then v else entry m i j.
Proof.
  intros Hsq Ha Hb. unfold entry, with_cell.
  rewrite nth_update.
  destruct (Nat.eqb_spec i a) as [->|Hne]; simpl; [|reflexivity].
  apply Nat.ltb_lt in Ha. rewrite Ha. rewrite nth_update.
  apply Nat.ltb_lt in Ha.
  rewrite (proj1 (square_shape m) Hsq a Ha).
  apply Nat.ltb_lt in Hb. rewrite Hb. now rewrite andb_true_r.
Qed.

Lemma zeros_square n : square (zeros n) = true /\ length (zeros n) = n.
Proof.
  unfold zeros. split; [|apply repeat_length].
  unfold square. apply forallb_forall. intros row Hrow.
  apply repeat_spec in Hrow. subst row.
  rewrite !repeat_length. apply Nat.eqb_refl.
Qed.

Lemma zeros_entry n i j : entry (zeros n) i j = 0%Z.
Proof.
  unfold entry, zeros.
  destruct (Nat.lt_ge_cases i n) as [Hi|Hi].
  - rewrite nth_repeat_lt by assumption.
    destruct (Nat.lt_ge_cases j n) as [Hj|Hj].
    + now rewrite nth_repeat_lt.
    + apply nth_overflow. now rewrite repeat_length.
  - rewrite (nth_overflow (repeat (repeat 0%Z n) n) [])
      by now rewrite repeat_length.
    now destruct j.
Qed.

(** ** The graph and the local unitaries read from a stim circuit *)

Lemma connect_app p q :
  forall m, connect (p ++ q) m = m' <- connect p m ;; connect q m'.
Proof.
  induction p as [|[a b] p IH]; intros m; simpl; [reflexivity|].
  destruct (set_cell m a b 1%Z) as [m1| |]; simpl; try reflexivity.
  destruct (set_cell m1 b a 1%Z) as [m2| |]; simpl; try reflexivity.
  apply IH.
Qed.

Lemma connected_shape pairs :
  forall m, square m = true ->
            square (connected pairs m) = true
            /\ length (connected pairs m) = length m.
Proof.
  induction pairs as [|[a b] pairs IH]; intros m Hsq; simpl; [auto|].
  destruct (IH (with_cell (with_cell m a b 1%Z) b a 1%Z)) as [H1 H2].
  - now do 2 apply with_cell_square.
  - split; [assumption|]. now rewrite H2, !with_cell_length.
Qed.

Lemma connect_in_range pairs :
  forall m, square m = true -> pairs_in_range (length m) pairs = true ->
            connect pairs m = Ok (connected pairs m).
Proof.
  induction pairs as [|[a b] pairs IH]; intros m Hsq Hr; simpl;
    [reflexivity|].
  simpl in Hr. apply andb_prop in Hr as [Hab Hr].
  apply andb_prop in Hab as [Ha Hb].
  apply Nat.ltb_lt in Ha, Hb.
  pose proof (proj1 (square_shape m) Hsq) as Hrows.
  rewrite set_cell_ok by (try rewrite Hrows; assumption). simpl.
  pose proof (with_cell_square m a b 1%Z Hsq) as Hsq1.
  pose proof (proj1 (square_shape _) Hsq1) as Hrows1.
  rewrite set_cell_ok
    by (try rewrite Hrows1; rewrite with_cell_length; assumption).
  simpl. apply IH.
  - now apply with_cell_square.
  - now rewrite !with_cell_length.
Qed.

Lemma connect_out_of_range pairs :
  forall m, square m = true -> pairs_in_range (length m) pairs = false ->
            connect pairs m = Raise IndexError.
Proof.
  induction pairs as [|[a b] pairs IH]; intros m Hsq Hr; simpl;
    [discriminate|].
  simpl in Hr.
  pose proof (proj1 (square_shape m) Hsq) as Hrows.
  destruct (Nat.ltb_spec a (length m)) as [Ha|Ha].
  - destruct (Nat.ltb_spec b (length m)) as [Hb|Hb].
    + simpl in Hr.
      rewrite set_cell_ok by (try rewrite Hrows; assumption). simpl.
      pose proof (with_cell_square m a b 1%Z Hsq) as Hsq1.
      pose proof (proj1 (square_shape _) Hsq1) as Hrows1.
      rewrite set_cell_ok
        by (try rewrite Hrows1; rewrite with_cell_length; assumption).
      simpl. apply IH.
      * now apply with_cell_square.
      * now rewrite !with_cell_length.
    + rewrite set_cell_raise; [reflexivity|].
      intros [_ H]. rewrite Hrows in H by assumption. lia.
  - rewrite set_cell_raise; [reflexivity|]. intros [H _]. lia.
Qed.

Lemma connected_entry pairs i j :
  forall m, square m = true -> pairs_in_range (length m) pairs = true ->
            entry (connected pairs m) i j
            = if linked pairs i j then 1%Z else entry m i j.
Proof.
  induction pairs as [|[a b] pairs IH]; intros m Hsq Hr; simpl;
    [reflexivity|].
  simpl in Hr. apply andb_prop in Hr as [Hab Hr].
  apply andb_prop in Hab as [Ha Hb].
  apply Nat.ltb_lt in Ha, Hb.
  rewrite IH.
  - rewrite !with_cell_entry;
      try rewrite with_cell_length; try assumption;
      try now apply with_cell_square.
    destruct (linked pairs i j); [now rewrite orb_true_r|].
    rewrite orb_false_r.
    destruct (Nat.eqb_spec a i), (Nat.eqb_spec b j),
             (Nat.eqb_spec a j), (Nat.eqb_spec b i),
             (Nat.eqb_spec i a), (Nat.eqb_spec j b),
             (Nat.eqb_spec i b), (Nat.eqb_spec j a);
      simpl; try reflexivity; lia.
  - now do 2 apply with_cell_square.
  - now rewrite !with_cell_length.
Qed.

Lemma linked_sym pairs i j : linked pairs i j = linked pairs j i.
Proof.
  unfold linked. induction pairs as [|p pairs IH]; simpl; [reflexivity|].
  rewrite IH. f_equal. apply orb_comm.
Qed.

Lemma cz_pairs_cons ins g :
  cz_pairs (ins :: g)
  = (if (stim_name ins =? "CZ")%string
     then target_pairs (stim_targets ins) else []) ++ cz_pairs g.
Proof. reflexivity. Qed.

Lemma ticks_cons ins g :
  ticks (ins :: g) = (if is_tick ins then 1 else 0) + ticks g.
Proof. unfold ticks. simpl. now destruct (is_tick ins). Qed.

Lemma read_instructions_split g :
  forall m us r,
    read_instructions g (m, us, r)
    = m' <- connect (cz_pairs g) m ;;
      Ok (m', us ++ unitaries_from g r, (r + Z.of_nat (ticks g))%Z).
Proof.
  induction g as [|ins g IH]; intros m us r.
  - simpl. now rewrite app_nil_r, Z.add_0_r.
  - cbn [read_instructions unitaries_from].
    rewrite cz_pairs_cons, ticks_cons. unfold is_tick.
    destruct (stim_name ins =? "CZ")%string eqn:Ecz.
    + apply String.eqb_eq in Ecz. rewrite Ecz.
      change ("CZ" =? "TICK")%string with false. cbv iota.
      rewrite connect_app.
      destruct (connect (target_pairs (stim_targets ins)) m) as [m1| |];
        cbn [bind]; try reflexivity.
      rewrite IH. reflexivity.
    + cbn [app].
      destruct (stim_name ins =? "TICK")%string eqn:Etick.
      * cbn [bind]. rewrite IH.
        destruct (connect (cz_pairs g) m); cbn [bind]; try reflexivity.
        do 2 f_equal. lia.
      * assert (El : local_targets [ins]
                     = map (fun a => (a, stim_name ins)) (stim_targets ins)).
        { unfold local_targets. simpl. rewrite Ecz. apply app_nil_r. }
        rewrite El.
        destruct (r =? 2)%Z; cbn [bind]; rewrite IH;
          destruct (connect (cz_pairs g) m); cbn [bind]; try reflexivity;
          rewrite ?app_nil_l, <- ?app_assoc; reflexivity.
Qed.

Lemma entries_simple_graph adj :
  square adj = true ->
  (forall i j, entry adj i j = 0%Z \/ entry adj i j = 1%Z) ->
  (forall i j, entry adj i j = entry adj j i) ->
  (forall i, entry adj i i = 0%Z) ->
  simple_graph adj.
Proof.
  intros Hsq Hbit Hsym Hdiag. unfold simple_graph, simple_graphb.
  apply andb_true_intro. split.
  - apply forallb_forall. intros row Hrow.
    destruct (In_nth _ _ [] Hrow) as (i & Hi & <-).
    apply andb_true_intro. split.
    + apply Nat.eqb_eq. now apply (proj1 (square_shape adj) Hsq).
    + apply forallb_forall. intros x Hx.
      destruct (In_nth _ _ 0%Z Hx) as (j & Hj & <-).
      destruct (Hbit i j) as [E|E]; unfold entry in E; rewrite E; reflexivity.
  - apply forallb_forall. intros i _.
    apply andb_true_intro. split.
    + apply Z.eqb_eq, Hdiag.
    + apply forallb_forall. intros j _. apply Z.eqb_eq, Hsym.
Qed.

(** X11: the loop of [map_stabilizer_circuit_to_graph_state_circuit]
    over a stim circuit on [n] qubits fails with [IndexError] when a CZ
    instruction names a qubit that is not below [n]; otherwise it returns
    an [n] by [n] matrix whose entry [(i, j)] is 1 when some CZ pair joins
    [i] and [j], in either order, and 0 when none does.  The matrix is
    symmetric, so that [GraphState] accepts it, and it is a simple graph
    when no CZ pair joins a qubit with itself. *)
Theorem graph_read_from_stim_circuit n g :
  (pairs_in_range n (cz_pairs g) = false ->
   read_instructions g (zeros n, [], 0%Z) = Raise IndexError)
  /\ (pairs_in_range n (cz_pairs g) = true ->
      exists adj us k,
        read_instructions g (zeros n, [], 0%Z) = Ok (adj, us, k)
        /\ length adj = n /\ square adj = true
        /\ (forall i j, entry adj i j
                        = if linked (cz_pairs g) i j then 1%Z else 0%Z)
        /\ (forall i j, entry adj i j = entry adj j i)
        /\ ((forall a, ~ In (a, a) (cz_pairs g)) -> simple_graph adj)
        /\ k = Z.of_nat (ticks g)).
Proof.
  destruct (zeros_square n) as [Hsq Hlen].
  rewrite read_instructions_split. split; intros Hr.
  - rewrite connect_out_of_range; [reflexivity|assumption|].
    now rewrite Hlen.
  - rewrite connect_in_range by (try rewrite Hlen; assumption).
    cbn [bind].
    destruct (connected_shape (cz_pairs g) (zeros n) Hsq) as [Hsq' Hlen'].
    assert (Hentry : forall i j,
               entry (connected (cz_pairs g) (zeros n)) i j
               = if linked (cz_pairs g) i j then 1%Z else 0%Z).
    { intros i j. rewrite connected_entry by (try rewrite Hlen; assumption).
      now rewrite zeros_entry. }
    assert (Hsym : forall i j,
               entry (connected (cz_pairs g) (zeros n)) i j
               = entry (connected (cz_pairs g) (zeros n)) j i).
    { intros i j. now rewrite !Hentry, linked_sym. }
    eexists. eexists. eexists. split; [reflexivity|].
    split; [now rewrite Hlen'|]. split; [assumption|].
    split; [assumption|]. split; [assumption|]. split; [|reflexivity].
    intros Hloop. apply entries_simple_graph; try assumption.
    + intros i j. rewrite Hentry. destruct (linked (cz_pairs g) i j); auto.
    + intros i. rewrite Hentry.
      destruct (linked (cz_pairs g) i i) eqn:E; [|reflexivity].
      exfalso. unfold linked in E. apply existsb_exists in E as ([a b] & Hin & E).
      simpl in E. apply (Hloop i).
      assert (a = i /\ b = i) as [-> ->].
      { apply orb_prop in E as [E|E]; apply andb_prop in E as [E1 E2];
          apply Nat.eqb_eq in E1, E2; auto. }
      assumption.
Qed.

Lemma graph_read_from_stim_circuit_witness :
  read_instructions
    [{| stim_name := "CZ"; stim_targets := [0; 3] |}] (zeros 3, [], 0%Z)
  = Raise IndexError
  /\ exists adj us k,
       read_instructions stim_sample (zeros 3, [], 0%Z) = Ok (adj, us, k)
       /\ length adj = 3 /\ square adj = true
       /\ (forall i j, entry adj i j
                       = if linked (cz_pairs stim_sample) i j
                         then 1%Z else 0%Z)
       /\ (forall i j, entry adj i j = entry adj j i)
       /\ ((forall a, ~ In (a, a) (cz_pairs stim_sample)) -> simple_graph adj)
       /\ k = Z.of_nat (ticks stim_sample).
Proof.
  split.
  - apply (graph_read_from_stim_circuit 3
             [{| stim_name := "CZ"; stim_targets := [0; 3] |}]).
    reflexivity.
  - apply (graph_read_from_stim_circuit 3 stim_sample). reflexivity.
Defined.

Lemma not_a_tick ins : is_tick ins = true -> (stim_name ins =? "CZ")%string = false.
Proof.
  unfold is_tick. intros H. apply String.eqb_eq in H. now rewrite H.
Qed.

Lemma unitaries_from_tick t rest r :
  is_tick t = true -> unitaries_from (t :: rest) r = unitaries_from rest (r + 1).
Proof.
  intros H. cbn [unitaries_from]. rewrite (not_a_tick t H).
  unfold is_tick in H. now rewrite H.
Qed.

Lemma local_targets_cons ins seg :
  local_targets (ins :: seg)
  = (if (stim_name ins =? "CZ")%string then []
     else map (fun a => (a, stim_name ins)) (stim_targets ins))
    ++ local_targets seg.
Proof. reflexivity. Qed.

Lemma unitaries_from_segment seg rest r :
  ticks seg = 0 ->
  unitaries_from (seg ++ rest) r
  = (if (r =? 2)%Z then local_targets seg else []) ++ unitaries_from rest r.
Proof.
  induction seg as [|ins seg IH]; intros H.
  - simpl. now destruct (r =? 2)%Z.
  - rewrite ticks_cons in H.
    destruct (is_tick ins) eqn:Et; [discriminate|]. simpl in H.
    cbn [app unitaries_from]. unfold is_tick in Et. rewrite Et.
    rewrite (IH H), !local_targets_cons.
    destruct (stim_name ins =? "CZ")%string; [reflexivity|].
    cbn [local_targets flat_map]. rewrite app_nil_r.
    destruct (r =? 2)%Z; [now rewrite app_assoc|reflexivity].
Qed.

Lemma unitaries_from_late g :
  forall r, (2 < r)%Z -> unitaries_from g r = [].
Proof.
  induction g as [|ins g IH]; intros r Hr; cbn [unitaries_from];
    [reflexivity|].
  destruct (stim_name ins =? "CZ")%string; [now apply IH|].
  destruct (stim_name ins =? "TICK")%string; [apply IH; lia|].
  destruct (Z.eqb_spec r 2); [lia|]. now apply IH.
Qed.

(** X12: for a stim circuit laid out in stretches separated by [TICK]
    instructions, the local unitaries the loop collects are the gates of
    the third stretch other than CZ, one entry per target and in order,
    each with the name stim gives it; the gates before the second [TICK]
    (the resets) and everything after a third one are left out. *)
Theorem local_unitaries_read_from_stim_circuit
        n g1 tick1 g2 tick2 g3 g4 adj us k :
  is_tick tick1 = true -> is_tick tick2 = true ->
  ticks g1 = 0 -> ticks g2 = 0 -> ticks g3 = 0 ->
  (g4 = [] \/ exists tick3 rest, g4 = tick3 :: rest /\ is_tick tick3 = true) ->
  read_instructions (g1 ++ tick1 :: g2 ++ tick2 :: g3 ++ g4) (zeros n, [], 0%Z)
  = Ok (adj, us, k) ->
  us = local_targets g3.
Proof.
  intros T1 T2 H1 H2 H3 H4. rewrite read_instructions_split.
  destruct (connect _ _) as [m| |]; cbn [bind]; try discriminate.
  intros H. injection H as _ <- _. cbn [app].
  rewrite (unitaries_from_segment g1 _ 0%Z H1). cbn [Z.eqb app].
  rewrite (unitaries_from_tick tick1 _ 0%Z T1).
  rewrite (unitaries_from_segment g2 _ (0 + 1)%Z H2). cbn [Z.eqb Z.add app].
  rewrite (unitaries_from_tick tick2 _ 1%Z T2).
  rewrite (unitaries_from_segment g3 _ (1 + 1)%Z H3).
  cbn [Z.eqb Z.add Pos.add Pos.succ Pos.eqb].
  destruct H4 as [->|(tick3 & rest & -> & T3)].
  - simpl. apply app_nil_r.
  - rewrite (unitaries_from_tick tick3 _ 2%Z T3).
    rewrite unitaries_from_late by lia. apply app_nil_r.
Qed.

Lemma local_unitaries_read_from_stim_circuit_witness :
  [(0, "X"); (1, "S"); (2, "S"); (2, "SQRT_X"); (2, "H")]%string
  = local_targets
      [ {| stim_name := "X"; stim_targets := [0] |};
        {| stim_name := "S"; stim_targets := [1; 2] |};
        {| stim_name := "SQRT_X"; stim_targets := [2] |};
        {| stim_name := "H"; stim_targets := [2] |} ].
Proof.
  apply (local_unitaries_read_from_stim_circuit 3
           [{| stim_name := "RX"; stim_targets := [0; 1; 2] |}]
           {| stim_name := "TICK"; stim_targets := [] |}
           [{| stim_name := "CZ"; stim_targets := [0; 1; 1; 2] |}]
           {| stim_name := "TICK"; stim_targets := [] |}
           [ {| stim_name := "X"; stim_targets := [0] |};
             {| stim_name := "S"; stim_targets := [1; 2] |};
             {| stim_name := "SQRT_X"; stim_targets := [2] |};
             {| stim_name := "H"; stim_targets := [2] |} ]
           []
           [[0; 1; 0]; [1; 0; 1]; [0; 1; 0]]%Z
           [(0, "X"); (1, "S"); (2, "S"); (2, "SQRT_X"); (2, "H")]%string
           2%Z);
    try reflexivity.
  now left.
Defined.

(** ** The tableau of a list of stabilizers *)

Lemma update_app_r {A} (a b : list A) k v :
  update (a ++ b) (length a + k) v = a ++ update b k v.
Proof. induction a as [|x a IH]; simpl; [reflexivity|now rewrite IH]. Qed.

Lemma update_nth_same {A} (l : list A) i d : update l i (nth i l d) = l.
Proof.
  revert i. induction l as [|x l IH]; intros [|i]; simpl; try reflexivity.
  now rewrite IH.
Qed.

Lemma update_update {A} (l : list A) i a b :
  update (update l i a) i b = update l i b.
Proof.
  revert i. induction l as [|x l IH]; intros [|i]; simpl; try reflexivity.
  now rewrite IH.
Qed.

Lemma nth_update_same {A} (l : list A) i v d :
  i < length l -> nth i (update l i v) d = v.
Proof.
  intros Hi. rewrite nth_update, Nat.eqb_refl.
  apply Nat.ltb_lt in Hi. now rewrite Hi.
Qed.

Lemma mark_row_length n cs :
  forall j row, length (mark_row n cs j row) = length row.
Proof.
  induction cs as [|c cs IH]; intros j row; simpl; [reflexivity|].
  rewrite IH.
  destruct (c =? "X")%char; [apply length_update|].
  destruct (c =? "Z")%char; [apply length_update|].
  destruct (c =? "Y")%char; [now rewrite !length_update|reflexivity].
Qed.

Lemma mark_paulis_ok n i cs :
  forall j t,
    i < length t -> length (nth i t []) = 2 * n + 1 -> j + length cs <= n ->
    mark_paulis n i cs j t = Ok (update t i (mark_row n cs j (nth i t []))).
Proof.
  induction cs as [|c cs IH]; intros j t Hi Hrow Hj.
  - simpl. now rewrite update_nth_same.
  - simpl in Hj. cbn [mark_paulis mark_row].
    assert (Hstep : forall row',
               length row' = 2 * n + 1 ->
               mark_paulis n i cs (S j) (update t i row')
               = Ok (update t i (mark_row n cs (S j) row'))).
    { intros row' Hrow'. rewrite IH.
      - now rewrite nth_update_same, update_update.
      - now rewrite length_update.
      - now rewrite nth_update_same.
      - lia. }
    destruct (c =? "X")%char.
    { rewrite set_cell_ok by lia. cbn [bind]. unfold with_cell.
      apply Hstep. now rewrite length_update. }
    destruct (c =? "Z")%char.
    { rewrite set_cell_ok by lia. cbn [bind]. unfold with_cell.
      apply Hstep. now rewrite length_update. }
    destruct (c =? "Y")%char.
    { rewrite set_cell_ok by lia. cbn [bind].
      rewrite set_cell_ok.
      - cbn [bind]. unfold with_cell.
        rewrite nth_update_same by assumption. rewrite update_update.
        apply Hstep. now rewrite !length_update.
      - unfold with_cell. now rewrite length_update.
      - unfold with_cell. rewrite nth_update_same by assumption.
        rewrite length_update. lia. }
    cbn [bind]. rewrite (IH (S j) t) by (try assumption; lia). reflexivity.
Qed.

Lemma update_middle {A} (xs : list A) a rest v :
  update (xs ++ a :: rest) (length xs) v = xs ++ v :: rest.
Proof.
  rewrite <- (Nat.add_0_r (length xs)) at 1. now rewrite update_app_r.
Qed.

Lemma pauli_bits c :
  (if (c =? "X")%char then (1, 0)
   else if (c =? "Z")%char then (0, 1)
   else if (c =? "Y")%char then (1, 1) else (0, 0))%Z
  = (x_bit c, z_bit c).
Proof.
  unfold x_bit, z_bit.
  destruct (Ascii.eqb_spec c "X") as [->|_]; [reflexivity|].
  destruct (Ascii.eqb_spec c "Z") as [->|_]; [reflexivity|].
  destruct (Ascii.eqb_spec c "Y") as [->|_]; reflexivity.
Qed.

(** One letter of a stabilizer sets its two bits and nothing else. *)
Lemma mark_one n c j (xs zs r1 r2 : list Z) :
  length xs = j -> n + j = length (xs ++ 0%Z :: r1 ++ zs) ->
  (if (c =? "X")%char
   then update (xs ++ 0%Z :: r1 ++ zs ++ 0%Z :: r2) j 1%Z
   else if (c =? "Z")%char
        then update (xs ++ 0%Z :: r1 ++ zs ++ 0%Z :: r2) (n + j) 1%Z
   else if (c =? "Y")%char
        then update (update (xs ++ 0%Z :: r1 ++ zs ++ 0%Z :: r2) j 1%Z)
                    (n + j) 1%Z
   else xs ++ 0%Z :: r1 ++ zs ++ 0%Z :: r2)
  = xs ++ x_bit c :: r1 ++ zs ++ z_bit c :: r2.
Proof.
  intros Hj Hn.
  assert (Ex : forall v, update (xs ++ 0%Z :: r1 ++ zs ++ 0%Z :: r2) j v
                         = xs ++ v :: r1 ++ zs ++ 0%Z :: r2)
    by (intros v; rewrite <- Hj; apply update_middle).
  assert (Ez : forall x v, update (xs ++ x :: r1 ++ zs ++ 0%Z :: r2) (n + j) v
                           = xs ++ x :: r1 ++ zs ++ v :: r2).
  { intros x v.
    replace (xs ++ x :: r1 ++ zs ++ 0%Z :: r2)
      with ((xs ++ x :: r1 ++ zs) ++ 0%Z :: r2)
      by (rewrite <- !app_assoc; simpl; now rewrite <- app_assoc).
    replace (n + j) with (length (xs ++ x :: r1 ++ zs))
      by (rewrite Hn, !length_app; simpl; now rewrite !length_app).
    rewrite update_middle. rewrite <- !app_assoc. simpl.
    now rewrite <- app_assoc. }
  pose proof (pauli_bits c) as Hb.
  destruct (c =? "X")%char; [injection Hb as <- <-; apply Ex|].
  destruct (c =? "Z")%char; [injection Hb as <- <-; apply Ez|].
  destruct (c =? "Y")%char; injection Hb as <- <-.
  - rewrite Ex. apply Ez.
  - reflexivity.
Qed.

Lemma mark_row_blocks n cs :
  forall j xs zs,
    length xs = j -> length zs = j -> n = j + length cs ->
    mark_row n cs j
      (xs ++ repeat 0%Z (length cs) ++ zs ++ repeat 0%Z (length cs) ++ [0%Z])
    = xs ++ map x_bit cs ++ zs ++ map z_bit cs ++ [0%Z].
Proof.
  induction cs as [|c cs IH]; intros j xs zs Hx Hz Hn; [reflexivity|].
  cbn [mark_row length repeat map app].
  rewrite (mark_one n c j xs zs (repeat 0%Z (length cs))
             (repeat 0%Z (length cs) ++ [0%Z]) Hx).
  - specialize (IH (S j) (xs ++ [x_bit c]) (zs ++ [z_bit c])).
    rewrite <- !app_assoc in IH. simpl in IH. apply IH.
    + rewrite length_app. simpl. lia.
    + rewrite length_app. simpl. lia.
    + simpl in Hn. lia.
  - rewrite length_app. simpl. rewrite length_app, repeat_length.
    simpl in Hn. lia.
Qed.

Lemma mark_zero_row s :
  mark_row (String.length s) (list_ascii_of_string s) 0
           (repeat 0%Z (2 * String.length s + 1))
  = tableau_row s.
Proof.
  assert (El : length (list_ascii_of_string s) = String.length s)
    by (induction s; simpl; congruence).
  pose proof (mark_row_blocks (String.length s) (list_ascii_of_string s)
                0 [] [] eq_refl eq_refl) as H.
  rewrite El in H. simpl app in H. unfold tableau_row.
  rewrite <- H by reflexivity. f_equal.
  replace (2 * String.length s + 1)
    with (String.length s + (String.length s + 1)) by lia.
  rewrite !repeat_app. reflexivity.
Qed.

Lemma mark_stabilizers_ok n ss :
  forall done,
    Forall (fun s => String.length s = n) ss ->
    length done + length ss <= n ->
    mark_stabilizers n ss (length done)
      (done ++ repeat (repeat 0%Z (2 * n + 1)) (n - length done))
    = Ok (done ++ map tableau_row ss
               ++ repeat (repeat 0%Z (2 * n + 1))
                         (n - length done - length ss)).
Proof.
  induction ss as [|s ss IH]; intros done Hlen Hn.
  - simpl. now rewrite Nat.sub_0_r.
  - inversion Hlen as [|? ? Hs Hss]; subst. simpl in Hn.
    cbn [mark_stabilizers].
    destruct (String.length s - length done) as [|k] eqn:Ek; [lia|].
    assert (Hrow : nth (length done)
                       (done ++ repeat (repeat 0%Z (2 * String.length s + 1))
                                       (S k)) []
                   = repeat 0%Z (2 * String.length s + 1)).
    { rewrite app_nth2 by lia. now rewrite Nat.sub_diag. }
    rewrite mark_paulis_ok.
    + cbn [bind]. rewrite Hrow, mark_zero_row.
      rewrite <- (Nat.add_0_r (length done)) at 2.
      rewrite update_app_r. cbn [repeat update].
      specialize (IH (done ++ [tableau_row s]) Hss).
      rewrite length_app in IH. cbn [length] in IH.
      replace (length done + 1) with (S (length done)) in IH by lia.
      replace (String.length s - S (length done)) with k in IH by lia.
      rewrite <- !app_assoc in IH. cbn [app] in IH.
      rewrite IH by lia. cbn [map app length].
      repeat f_equal; lia.
    + rewrite length_app, repeat_length. lia.
    + rewrite Hrow. apply repeat_length.
    + assert (El : length (list_ascii_of_string s) = String.length s)
        by (clear; induction s; simpl; congruence).
      rewrite El. lia.
Qed.

Lemma tableau_row_shape s :
  length (tableau_row s) = 2 * String.length s + 1
  /\ last (tableau_row s) 1%Z = 0%Z.
Proof.
  assert (El : length (list_ascii_of_string s) = String.length s)
    by (induction s; simpl; congruence).
  unfold tableau_row. split.
  - rewrite !length_app, !length_map, El. simpl. lia.
  - now rewrite app_assoc, last_last.
Qed.

(** X13: for [n] stabilizers of [n] letters after the sign (or fewer
    stabilizers, the remaining rows staying zero)
    [get_stabilizer_tableau_representation] returns one row of [2 n + 1]
    entries per stabilizer: the X bits of its letters in the order of the
    string, then their Z bits, then a column that is always 0.  The sign
    of a stabilizer is never read, so two lists that differ in signs only
    have the same tableau. *)
Theorem tableau_of_signed_stabilizers stabilizers_of c stabilizers n :
  stabilizers_of c = Ok stabilizers ->
  stabilizers <> [] -> length stabilizers <= n ->
  Forall (fun s => String.length s = S n) stabilizers ->
  get_stabilizer_tableau_representation stabilizers_of c
  = Ok (map (fun s => tableau_row (drop_sign s)) stabilizers
        ++ repeat (repeat 0%Z (2 * n + 1)) (n - length stabilizers))
  /\ (forall row,
         In row (map (fun s => tableau_row (drop_sign s)) stabilizers) ->
         length row = 2 * n + 1 /\ last row 1%Z = 0%Z)
  /\ (forall other,
         map drop_sign other = map drop_sign stabilizers ->
         tableau_of_stabilizers other = tableau_of_stabilizers stabilizers).
Proof.
  intros Hc Hne Hlen Hall.
  assert (Hdrop : Forall (fun s => String.length s = n)
                         (map drop_sign stabilizers)).
  { apply Forall_forall. intros s Hs.
    apply in_map_iff in Hs as (s' & <- & Hs').
    rewrite Forall_forall in Hall. specialize (Hall s' Hs').
    destruct s'; simpl in *; congruence. }
  split; [|split].
  - unfold get_stabilizer_tableau_representation. rewrite Hc. cbn [bind].
    unfold tableau_of_stabilizers.
    destruct stabilizers as [|s0 ss]; [congruence|].
    cbn [map item nth_error bind].
    assert (E0 : String.length (drop_sign s0) = n)
      by (inversion Hdrop; assumption).
    rewrite E0.
    pose proof (mark_stabilizers_ok n (map drop_sign (s0 :: ss)) [] Hdrop)
      as H.
    cbn [length app] in H. rewrite Nat.sub_0_r in H.
    cbn [map] in H.
    rewrite H by (cbn [length]; rewrite length_map; simpl in Hlen; lia).
    cbn [map length app]. rewrite map_map, length_map. reflexivity.
  - intros row Hrow. apply in_map_iff in Hrow as (s & <- & Hs).
    destruct (tableau_row_shape (drop_sign s)) as [H1 H2].
    rewrite Forall_forall in Hdrop.
    rewrite (Hdrop (drop_sign s)) in H1 by now apply in_map.
    auto.
  - intros other E. unfold tableau_of_stabilizers. now rewrite E.
Qed.

Lemma tableau_of_signed_stabilizers_witness :
  get_stabilizer_tableau_representation
    (fun _ => Ok ["-ZZ"; "+XY"]%string) default_named_circuit
  = Ok (map (fun s => tableau_row (drop_sign s)) ["-ZZ"; "+XY"]%string
        ++ repeat (repeat 0%Z (2 * 2 + 1)) (2 - length ["-ZZ"; "+XY"]%string))
  /\ (forall row,
         In row (map (fun s => tableau_row (drop_sign s))
                     ["-ZZ"; "+XY"]%string) ->
         length row = 2 * 2 + 1 /\ last row 1%Z = 0%Z)
  /\ (forall other,
         map drop_sign other = map drop_sign ["-ZZ"; "+XY"]%string ->
         tableau_of_stabilizers other
         = tableau_of_stabilizers ["-ZZ"; "+XY"]%string).
Proof.
  apply (tableau_of_signed_stabilizers (fun _ => Ok ["-ZZ"; "+XY"]%string)
           default_named_circuit ["-ZZ"; "+XY"]%string 2);
    [reflexivity|discriminate|simpl; lia|repeat constructor].
Defined.

Example tableau_example_circuit :
  tableau_of_stabilizers ["+ZZ"; "+XX"]%string
  = Ok [[0; 0; 1; 1; 0]; [1; 1; 0; 0; 0]]%Z.
Proof. reflexivity. Qed.

Example tableau_without_stabilizers :
  tableau_of_stabilizers [] = Raise IndexError.
Proof. reflexivity. Qed.

(** ** Counting gates *)

Lemma count_single_filter c :
  count_single_qubit_gates c
  = Z.of_nat (length (filter (fun ins => length (qubits ins) =? 1) (data c))).
Proof.
  unfold count_single_qubit_gates.
  now rewrite (count_gates_from (fun n => n =? 1)).
Qed.

Lemma count_two_filter c :
  count_two_qubit_gates c
  = Z.of_nat (length (filter (fun ins => length (qubits ins) =? 2) (data c))).
Proof.
  unfold count_two_qubit_gates.
  now rewrite (count_gates_from (fun n => n =? 2)).
Qed.

Lemma filter_split_length (l : list instruction) :
  length (filter (fun ins => length (qubits ins) =? 1) l)
  + length (filter (fun ins => length (qubits ins) =? 2) l)
  + length (filter (fun ins => negb ((length (qubits ins) =? 1)
                                     || (length (qubits ins) =? 2))) l)
  = length l.
Proof.
  induction l as [|ins l IH]; simpl; [reflexivity|].
  destruct (Nat.eqb_spec (length (qubits ins)) 1) as [E1|N1];
    destruct (Nat.eqb_spec (length (qubits ins)) 2) as [E2|N2];
    simpl; lia.
Qed.

Lemma filter_length_perm {A} (p : A -> bool) l l' :
  Permutation l l' -> length (filter p l) = length (filter p l').
Proof.
  induction 1 as [|x l l' _ IH|x y l|l l' l'' _ IH1 _ IH2]; simpl.
  - reflexivity.
  - destruct (p x); simpl; now rewrite IH.
  - destruct (p x), (p y); reflexivity.
  - now rewrite IH1.
Qed.

(** X14: the two counters of [utils.py] see only the instructions on one
    and on two qubits: their sum falls short of the number of instructions
    by the number of instructions on no qubit or on more than two, and
    neither counter depends on the order of the instructions. *)
Theorem counted_gates c :
  (count_single_qubit_gates c + count_two_qubit_gates c
   + Z.of_nat (length (filter (fun ins =>
                                 negb ((length (qubits ins) =? 1)%nat
                                       || (length (qubits ins) =? 2)%nat))
                              (data c)))
   = Z.of_nat (length (data c)))%Z
  /\ (0 <= count_single_qubit_gates c)%Z
  /\ (0 <= count_two_qubit_gates c)%Z
  /\ forall c', Permutation (data c) (data c') ->
                count_single_qubit_gates c' = count_single_qubit_gates c
                /\ count_two_qubit_gates c' = count_two_qubit_gates c.
Proof.
  rewrite count_single_filter, count_two_filter.
  split; [|split; [lia|split; [lia|]]].
  - pose proof (filter_split_length (data c)) as H. lia.
  - intros c' Hperm. rewrite count_single_filter, count_two_filter.
    split; f_equal; symmetry; now apply filter_length_perm.
Qed.

(** ** Matrices with entries on the diagonal *)

Lemma for_each_ext {A B} (l : list A) (f g : A -> M (list B)) :
  (forall a, In a l -> f a = g a) -> for_each l f = for_each l g.
Proof.
  induction l as [|a l IH]; simpl; intros H; [reflexivity|].
  rewrite (H a) by now left. rewrite IH; [reflexivity|].
  intros b Hb. apply H. now right.
Qed.

Lemma for_range_ext {B} n (f g : nat -> M (list B)) :
  (forall i, i < n -> f i = g i) -> for_range n f = for_range n g.
Proof.
  intros H. apply for_each_ext. intros i Hi. apply in_seq in Hi.
  apply H. lia.
Qed.

Lemma nth_error_indexed {A B} (f : nat * A -> B) (l : list A) :
  forall s i,
    nth_error (map f (combine (seq s (length l)) l)) i
    = option_map (fun x => f (s + i, x)) (nth_error l i).
Proof.
  induction l as [|x l IH]; intros s i; simpl.
  - now destruct i.
  - destruct i as [|i]; simpl.
    + now rewrite Nat.add_0_r.
    + rewrite IH. now rewrite Nat.add_succ_r.
Qed.

Lemma nth_error_update_other {A} (l : list A) i v j :
  j <> i -> nth_error (update l i v) j = nth_error l j.
Proof.
  revert i j. induction l as [|x l IH]; intros [|i] [|j] H; simpl;
    try reflexivity; try congruence.
  apply IH. congruence.
Qed.

Lemma without_loops_length a : length (without_loops a) = length a.
Proof.
  unfold without_loops.
  now rewrite length_map, length_combine, length_seq, Nat.min_id.
Qed.

Lemma without_loops_cell a i j :
  i <> j -> cell (without_loops a) i j = cell a i j.
Proof.
  intros Hne. unfold cell, item, without_loops.
  rewrite nth_error_indexed. simpl.
  destruct (nth_error a i) as [row|]; simpl; [|reflexivity].
  now rewrite nth_error_update_other by congruence.
Qed.

Lemma without_loops_declare_vars a :
  sat_solver.declare_vars (without_loops a) = sat_solver.declare_vars a.
Proof.
  unfold sat_solver.declare_vars. rewrite without_loops_length.
  apply for_range_ext. intros i Hi.
  apply for_range_ext. intros j Hj.
  now rewrite without_loops_cell by lia.
Qed.

(** Two loops of the same length, followed by the same steps. *)
Ltac same_loop k Hk :=
  match goal with
  | |- bind (for_range ?n ?f) _ = bind (for_range ?n ?g) _ =>
      rewrite (for_range_ext n f g);
      [destruct (for_range n g); cbn [bind]; try reflexivity|intros k Hk]
  end.

Lemma without_loops_conflicts a cz idn :
  sat_solver.conflicts (without_loops a) cz idn = sat_solver.conflicts a cz idn.
Proof.
  unfold sat_solver.conflicts. rewrite without_loops_length.
  apply for_range_ext. intros i Hi.
  apply for_range_ext. intros j Hj.
  rewrite without_loops_cell by lia.
  destruct (cell a i j) as [x| |]; simpl; try reflexivity.
  destruct (x =? 1)%Z; [|reflexivity].
  same_loop k Hk.
  - same_loop k Hk.
    destruct (Nat.eqb_spec k j); [reflexivity|].
    now rewrite without_loops_cell by congruence.
  - now rewrite without_loops_cell by lia.
Qed.

Lemma without_loops_symmetry_breaking a cz idn :
  sat_solver.symmetry_breaking (without_loops a) cz idn
  = sat_solver.symmetry_breaking a cz idn.
Proof.
  unfold sat_solver.symmetry_breaking. rewrite without_loops_length.
  apply for_range_ext. intros i Hi.
  apply for_range_ext. intros j Hj.
  rewrite without_loops_cell by lia.
  destruct (cell a i j) as [x| |]; simpl; try reflexivity.
  destruct (x =? 1)%Z; [|reflexivity].
  same_loop k Hk.
  - same_loop k Hk.
    destruct (Nat.eqb_spec k j); [reflexivity|].
    now rewrite without_loops_cell by congruence.
  - now rewrite without_loops_cell by lia.
Qed.

Lemma without_loops_encode a d sb :
  sat_solver.encode (without_loops a) d sb = sat_solver.encode a d sb.
Proof.
  unfold sat_solver.encode.
  rewrite without_loops_declare_vars.
  destruct (sat_solver.declare_vars a) as [declared| |]; cbn [bind];
    try reflexivity.
  rewrite without_loops_conflicts.
  destruct (sat_solver.conflicts a _ _) as [c| |]; cbn [bind];
    try reflexivity.
  destruct sb; [rewrite without_loops_symmetry_breaking|]; reflexivity.
Qed.

Lemma linear_loop_ext s check a b sb depths :
  (forall d, _synthesis s check a d sb = _synthesis s check b d sb) ->
  forall st, linear_loop s check a sb depths st
             = linear_loop s check b sb depths st.
Proof.
  intros H. induction depths as [|d depths IH]; intros st; simpl;
    [reflexivity|].
  rewrite H. destruct (_synthesis s check b d sb) as [mp| |]; simpl;
    try reflexivity.
  destruct (truthy mp); [reflexivity|apply IH].
Qed.

Lemma binary_loop_ext s check a b sb fuel :
  (forall d, _synthesis s check a d sb = _synthesis s check b d sb) ->
  forall st, binary_loop s check a sb fuel st
             = binary_loop s check b sb fuel st.
Proof.
  intros H.
  assert (Hp : forall guard d st,
             probe s check a sb guard d st = probe s check b sb guard d st).
  { intros guard d [[c calls] probed]. unfold probe. now rewrite H. }
  induction fuel as [|fuel IH]; intros st; [reflexivity|].
  rewrite !binary_loop_step. cbv zeta. rewrite Hp.
  destruct (probe s check b sb true _ _) as [st1| |]; cbn [bind];
    try reflexivity.
  rewrite Hp.
  destruct (probe s check b sb _ _ st1) as [st2| |]; cbn [bind];
    try reflexivity.
  destruct (cache_item _ _) as [mp| |]; cbn [bind]; try reflexivity.
  destruct (negb (truthy mp)); [apply IH|].
  destruct (if negb _ then _ else _) as [previous| |]; cbn [bind];
    try reflexivity.
  destruct (_ && _); [apply IH|reflexivity].
Qed.

(** X15: the scheduling encoder never reads the diagonal of the matrix:
    on any matrix it builds the instance it builds on the matrix with the
    diagonal set to zero, so [_synthesis] and both searches go through the
    same depths with the same answers and the same number of solver
    calls.  A self-loop changes nothing but the name of the circuit. *)
Theorem scheduling_ignores_the_diagonal check a sb :
  (forall d, encode DirectScheduling (without_loops a) d sb
             = encode DirectScheduling a d sb)
  /\ (forall d, _synthesis DirectScheduling check (without_loops a) d sb
                = _synthesis DirectScheduling check a d sb)
  /\ linear_search_run DirectScheduling check (without_loops a) sb
     = linear_search_run DirectScheduling check a sb
  /\ (forall fuel,
         binary_search_run DirectScheduling check (without_loops a) sb fuel
         = binary_search_run DirectScheduling check a sb fuel).
Proof.
  assert (He : forall d, encode DirectScheduling (without_loops a) d sb
                         = encode DirectScheduling a d sb)
    by (intros d; apply without_loops_encode).
  assert (Hs : forall d,
             _synthesis DirectScheduling check (without_loops a) d sb
             = _synthesis DirectScheduling check a d sb)
    by (intros d; unfold _synthesis; now rewrite He).
  split; [exact He|]. split; [exact Hs|]. split.
  - unfold linear_search_run. cbn [minimum_depth bind].
    rewrite without_loops_length. now apply linear_loop_ext.
  - intros fuel. unfold binary_search_run. cbn [minimum_depth bind].
    rewrite without_loops_length. now apply binary_loop_ext.
Qed.

(** ** A self-loop under the edge colouring encoder *)

Lemma bind_raises_only {A B} e (c : M A) (k : A -> M B) :
  raises_only e c -> (forall x, raises_only e (k x)) ->
  raises_only e (bind c k).
Proof. destruct c; simpl; auto. Qed.

Lemma for_each_raises_only {A B} e (l : list A) (body : A -> M (list B)) :
  (forall a, In a l -> raises_only e (body a)) ->
  raises_only e (for_each l body).
Proof.
  induction l as [|a l IH]; simpl; intros H; [exact I|].
  apply bind_raises_only; [apply H; now left|].
  intros x. apply bind_raises_only; [|intros xs; exact I].
  apply IH. intros b Hb. apply H. now right.
Qed.

Lemma for_range_raises_only {B} e n (body : nat -> M (list B)) :
  (forall i, i < n -> raises_only e (body i)) ->
  raises_only e (for_range n body).
Proof.
  intros H. apply for_each_raises_only. intros i Hi. apply in_seq in Hi.
  apply H. lia.
Qed.

Lemma for_each_ok_all {A B} (l : list A) (body : A -> M (list B)) r :
  for_each l body = Ok r -> forall a, In a l -> exists x, body a = Ok x.
Proof.
  revert r. induction l as [|a l IH]; simpl; intros r H b Hb; [destruct Hb|].
  destruct (body a) as [x| |] eqn:Ea; try discriminate. simpl in H.
  destruct (for_each l body) as [xs| |] eqn:El; try discriminate.
  destruct Hb as [<-|Hb]; [now exists x|]. now apply (IH xs).
Qed.

Lemma for_range_ok_all {B} n (body : nat -> M (list B)) r :
  for_range n body = Ok r -> forall i, i < n -> exists x, body i = Ok x.
Proof.
  intros H i Hi. apply (for_each_ok_all _ _ _ H). apply in_seq. lia.
Qed.

Lemma lookup_var_raises_only mk keys k :
  raises_only KeyError (lookup_var mk keys k).
Proof. unfold lookup_var. now destruct (existsb _ _). Qed.

Lemma neq_raises_only mk1 keys1 k1 mk2 keys2 k2 :
  raises_only KeyError
    (x <- lookup_var mk1 keys1 k1 ;; y <- lookup_var mk2 keys2 k2 ;;
     Ok [Neq x y]).
Proof.
  apply bind_raises_only; [apply lookup_var_raises_only|]. intros x.
  apply bind_raises_only; [apply lookup_var_raises_only|]. intros y.
  exact I.
Qed.

Section SelfLoop.

Variable a : matrix.
Hypothesis Hsquare : square a = true.

Lemma square_declare_keys : edge_colouring.declare_keys a = Ok (edge_list a).
Proof.
  unfold edge_colouring.declare_keys, edge_list.
  apply for_range_pure. intros i Hi.
  apply for_range_pure. intros j Hj.
  rewrite (square_cell a Hsquare) by lia. cbn [bind].
  now destruct (entry a i j =? 1)%Z.
Qed.

Lemma square_conflicts_raises_only keys :
  raises_only KeyError (edge_colouring.conflicts a keys).
Proof.
  unfold edge_colouring.conflicts.
  apply for_range_raises_only. intros i Hi.
  apply for_range_raises_only. intros j Hj.
  rewrite (square_cell a Hsquare) by lia. cbn [bind].
  destruct (entry a i j =? 1)%Z; [|exact I].
  apply bind_raises_only.
  - apply for_range_raises_only. intros k Hk.
    rewrite (square_cell a Hsquare) by lia. cbn [bind].
    destruct (entry a i k =? 1)%Z; [|exact I].
    destruct (k <? i); apply neq_raises_only.
  - intros c1. apply bind_raises_only; [|intros c2; exact I].
    apply for_range_raises_only. intros k Hk.
    rewrite (square_cell a Hsquare) by lia. cbn [bind].
    destruct (entry a k j =? 1)%Z; [|exact I].
    destruct (k <? j); apply neq_raises_only.
Qed.

Variables i j : nat.
Hypothesis Hij : j < i < length a.
Hypothesis Hedge : entry a i j = 1%Z.
Hypothesis Hloop : entry a j j = 1%Z.

Lemma self_loop_conflicts :
  edge_colouring.conflicts a (edge_list a) = Raise KeyError.
Proof.
  pose proof (square_conflicts_raises_only (edge_list a)) as Hr.
  destruct (edge_colouring.conflicts a (edge_list a)) as [cs|e|] eqn:E;
    [exfalso|now rewrite Hr|destruct Hr].
  unfold edge_colouring.conflicts in E.
  destruct (for_range_ok_all _ _ _ E i) as (x & Ei); [lia|]. clear E.
  destruct (for_range_ok_all _ _ _ Ei j) as (y & Ej); [lia|]. clear Ei.
  rewrite (square_cell a Hsquare) in Ej by lia. cbn [bind] in Ej.
  rewrite Hedge in Ej. cbn [Z.eqb Pos.eqb] in Ej.
  match type of Ej with
  | bind ?loop1 _ = _ => destruct loop1 as [c1| |]; try discriminate
  end.
  cbn [bind] in Ej.
  match type of Ej with
  | bind ?loop2 _ = _ => destruct loop2 as [c2| |] eqn:E2; try discriminate
  end.
  clear Ej.
  destruct (for_range_ok_all _ _ _ E2 j) as (z & Ek); [lia|]. clear E2.
  cbv beta in Ek.
  rewrite (square_cell a Hsquare) in Ek by lia. cbn [bind] in Ek.
  rewrite Hloop, Nat.ltb_irrefl in Ek. cbn [Z.eqb Pos.eqb] in Ek.
  assert (Hin : In (i, j) (edge_list a))
    by (apply in_edge_list; split; simpl; [lia|assumption]).
  rewrite (lookup_var_ok GateVar _ _ Hin) in Ek. cbn [bind] in Ek.
  unfold lookup_var in Ek.
  destruct (existsb (key_eqb (j, j)) (edge_list a)) eqn:Ex; [|discriminate].
  apply existsb_exists in Ex as (e & He & Heq).
  apply in_edge_list in He. destruct He as [Hlt _].
  unfold key_eqb in Heq. simpl in Heq.
  apply andb_prop in Heq as [H1 H2]. apply Nat.eqb_eq in H1, H2. lia.
Qed.

Lemma self_loop_synthesis check d sb :
  _synthesis EdgeColouring check a d sb = Raise KeyError.
Proof.
  unfold _synthesis. cbn [encode]. unfold edge_colouring.encode.
  rewrite square_declare_keys. cbn [bind].
  now rewrite self_loop_conflicts.
Qed.

End SelfLoop.

Lemma square_row_connections a i l :
  square a = true -> i < length a -> (forall j, In j l -> j < length a) ->
  forall acc,
  exists t,
    fold_left (fun acc' j =>
                 temp <- acc' ;;
                 x <- cell a i j ;;
                 if (x =? 1)%Z then Ok (temp + 1)%Z else Ok temp)
              l (Ok acc) = Ok t
    /\ (acc <= t <= acc + Z.of_nat (length l))%Z.
Proof.
  intros Hsq Hi. induction l as [|j l IH]; intros Hl acc; simpl.
  - exists acc. split; [reflexivity|lia].
  - rewrite (square_cell a Hsq) by (try assumption; apply Hl; now left).
    cbn [bind].
    assert (Hl' : forall j', In j' l -> j' < length a)
      by (intros j' Hj'; apply Hl; now right).
    destruct (entry a i j =? 1)%Z.
    + destruct (IH Hl' (acc + 1)%Z) as (t & -> & Ht). exists t.
      split; [reflexivity|lia].
    + destruct (IH Hl' acc) as (t & -> & Ht). exists t.
      split; [reflexivity|lia].
Qed.

Lemma square_max_outgoing a :
  square a = true ->
  exists lo, edge_colouring._max_outgoing_connections a = Ok lo
             /\ (-1 <= lo <= Z.of_nat (length a))%Z.
Proof.
  intros Hsq. unfold edge_colouring._max_outgoing_connections.
  assert (H : forall l acc,
             (forall i, In i l -> i < length a) ->
             (-1 <= acc <= Z.of_nat (length a))%Z ->
             exists lo,
               fold_left (fun acc i =>
                 max_outgoing_connections <- acc ;;
                 temp_connections <-
                   fold_left (fun acc' j =>
                     temp <- acc' ;;
                     x <- cell a i j ;;
                     if (x =? 1)%Z then Ok (temp + 1)%Z else Ok temp)
                     (seq 0 (i + 1)) (Ok 0%Z) ;;
                 Ok (Z.max max_outgoing_connections temp_connections))
                 l (Ok acc) = Ok lo
               /\ (-1 <= lo <= Z.of_nat (length a))%Z).
  { induction l as [|i l IH]; intros acc Hl Hacc; simpl.
    - now exists acc.
    - assert (Hi : i < length a) by (apply Hl; now left).
      destruct (square_row_connections a i (seq 0 (i + 1)) Hsq Hi) with
        (acc := 0%Z) as (t & -> & Ht).
      { intros j Hj. apply in_seq in Hj. lia. }
      cbn [bind]. rewrite length_seq in Ht. apply IH.
      + intros i' Hi'. apply Hl. now right.
      + lia. }
  apply H; [|lia]. intros i Hi. apply in_seq in Hi. lia.
Qed.

Lemma all_zero_entry a i j : all_zero a = true -> entry a i j = 0%Z.
Proof.
  unfold all_zero, entry. intros H. rewrite forallb_forall in H.
  destruct (Nat.lt_ge_cases i (length a)) as [Hi|Hi].
  - specialize (H _ (nth_In a [] Hi)). rewrite forallb_forall in H.
    destruct (Nat.lt_ge_cases j (length (nth i a []))) as [Hj|Hj].
    + now apply Z.eqb_eq, H, nth_In.
    + now apply nth_overflow.
  - rewrite (nth_overflow a [] Hi). now destruct j.
Qed.

(** X16: on a square matrix that has an edge whose lower-numbered end
    carries a 1 on the diagonal, the edge colouring encoder looks up a
    variable it never declared: [_synthesis] raises [KeyError] at every
    depth, and so do both searches and the entry point, where the
    scheduling strategy goes on as if the diagonal were zero. *)
Theorem edge_colouring_self_loop_raises check a sb i j :
  square a = true -> j < i < length a ->
  entry a i j = 1%Z -> entry a j j = 1%Z ->
  (forall d, _synthesis EdgeColouring check a d sb = Raise KeyError)
  /\ _linear_search EdgeColouring check a sb = Raise KeyError
  /\ (forall fuel,
         _binary_search EdgeColouring check a sb (S fuel) = Raise KeyError)
  /\ (forall draw fuel t0 t1 c lin,
         extract_adjacency_matrix (name c) = a ->
         synthesize_graph_state_edge_colouring draw check (S fuel) t0 t1 c
                                               sb lin
         = Raise KeyError).
Proof.
  intros Hsq Hij Hedge Hloop.
  assert (Hs : forall d, _synthesis EdgeColouring check a d sb = Raise KeyError)
    by (intros d; now apply (self_loop_synthesis a Hsq i j)).
  destruct (square_max_outgoing a Hsq) as (lo & Elo & Hlo).
  assert (Hlin : _linear_search EdgeColouring check a sb = Raise KeyError).
  { unfold _linear_search, linear_search_run. cbn [minimum_depth].
    rewrite Elo. cbn [bind]. rewrite py_range_cons by lia.
    cbn [linear_loop]. now rewrite Hs. }
  assert (Hbin : forall fuel,
             _binary_search EdgeColouring check a sb (S fuel)
             = Raise KeyError).
  { intros fuel. unfold _binary_search, binary_search_run.
    cbn [minimum_depth]. rewrite Elo. cbn [bind].
    rewrite binary_loop_step. cbv zeta.
    cbn [b_cache b_left b_right b_solver_calls b_probed].
    unfold probe at 1. cbn [andb cache_get]. now rewrite Hs. }
  split; [exact Hs|]. split; [exact Hlin|]. split; [exact Hbin|].
  intros draw fuel t0 t1 c lin Ec.
  unfold synthesize_graph_state_edge_colouring, synthesize. rewrite Ec.
  destruct (all_zero a) eqn:Ez.
  - pose proof (all_zero_entry a i j Ez). congruence.
  - destruct lin; [now rewrite Hlin|now rewrite Hbin].
Qed.

Lemma edge_colouring_self_loop_raises_witness :
  (forall d, _synthesis EdgeColouring brute_force_check [[1; 1]; [1; 1]]%Z
                        d false = Raise KeyError)
  /\ _linear_search EdgeColouring brute_force_check [[1; 1]; [1; 1]]%Z false
     = Raise KeyError
  /\ (forall fuel,
         _binary_search EdgeColouring brute_force_check [[1; 1]; [1; 1]]%Z
                        false (S fuel) = Raise KeyError)
  /\ (forall draw fuel t0 t1 c lin,
         extract_adjacency_matrix (name c) = [[1; 1]; [1; 1]]%Z ->
         synthesize_graph_state_edge_colouring draw brute_force_check (S fuel)
                                               t0 t1 c false lin
         = Raise KeyError).
Proof.
  apply (edge_colouring_self_loop_raises brute_force_check
           [[1; 1]; [1; 1]]%Z false 1 0);
    [reflexivity|simpl; lia|reflexivity|reflexivity].
Defined.

Example self_loop_scheduling :
  outcome (_linear_search DirectScheduling brute_force_check
                          [[1; 1]; [1; 1]]%Z false)
  = Some (1%Z, 2%Z, 3).
Proof. reflexivity. Qed.

(** ** What does not depend on the solver *)

Section AnySolver.

Variable s : strategy.
Variable check : solver.
Variable adj : matrix.
Variable sb : bool.
Hypothesis Hsimple : simple_graph adj.
Hypothesis Hnodes : 0 < length adj.

Lemma synthesis_answer d :
  _synthesis s check adj d sb = Ok (answer s check adj sb d).
Proof.
  destruct (encode_total adj Hsimple s d sb Hnodes) as (inst & E).
  unfold answer, _synthesis. now rewrite E.
Qed.

Lemma answer_layers d :
  truthy (answer s check adj sb d) = true ->
  NoDup (map fst (answer s check adj sb d))
  /\ Permutation (concat (map snd (answer s check adj sb d))) (edge_list adj).
Proof.
  destruct (encode_total adj Hsimple s d sb Hnodes) as (inst & E).
  destruct (encode_sound adj Hsimple s d sb inst E) as [Ekeys _].
  unfold answer, _synthesis. rewrite E. cbn [bind]. unfold solve.
  rewrite Ekeys. destruct (check (assertions inst)) as [m|]; [|discriminate].
  intros _. destruct (read_model_spec m (edge_list adj)) as (H1 & H2 & _).
  now split.
Qed.

Lemma linear_loop_result depths :
  forall st st',
    linear_loop s check adj sb depths st = Ok st' ->
    l_mapping st' = l_mapping st
    \/ exists d, l_mapping st' = Dict (answer s check adj sb d)
                 /\ truthy (answer s check adj sb d) = true.
Proof.
  induction depths as [|d depths IH]; intros st st' H; simpl in H.
  - injection H as <-. now left.
  - rewrite synthesis_answer in H. cbn [bind] in H.
    destruct (truthy (answer s check adj sb d)) eqn:Et.
    + injection H as <-. right. exists d. now split.
    + destruct (IH _ _ H) as [E|E]; [left; exact E|right; exact E].
Qed.

Lemma binary_loop_result fuel :
  forall st st',
    consistent s check adj sb (b_cache st) ->
    binary_loop s check adj sb fuel st = Ok st' ->
    b_mapping st' = answer s check adj sb (b_current st')
    /\ truthy (b_mapping st') = true.
Proof.
  induction fuel as [|fuel IH]; intros st st' Hc H; [discriminate|].
  rewrite binary_loop_step in H. cbv zeta in H.
  set (cur := ((b_left st + b_right st) / 2)%Z) in *.
  destruct (probe_spec s check adj sb synthesis_answer true cur (b_cache st)
              (b_solver_calls st) (b_probed st) Hc)
    as (c1 & calls1 & probed1 & E1 & Hc1 & Hkeep1 & Hin1 & _).
  rewrite E1 in H. cbn [bind] in H.
  destruct (probe_spec s check adj sb synthesis_answer
              (negb (cur =? b_left st)%Z) (cur - 1)%Z c1 calls1 probed1 Hc1)
    as (c2 & calls2 & probed2 & E2 & Hc2 & Hkeep2 & Hin2 & _).
  rewrite E2 in H. cbn [bind fst snd] in H.
  rewrite (cache_item_spec s check adj sb c2 cur Hc2) in H
    by (apply Hkeep2, Hin1; reflexivity).
  cbn [bind] in H.
  destruct (truthy (answer s check adj sb cur)) eqn:Ecur;
    cbn [negb] in H; cbv iota in H.
  - destruct (if negb (cur =? b_left st)%Z
              then cache_item c2 (cur - 1)%Z else Ok [])
      as [previous| |]; try discriminate.
    cbn [bind] in H.
    destruct (negb (cur =? b_left st)%Z && truthy previous).
    + refine (IH _ _ _ H); exact Hc2.
    + injection H as <-. cbn. now split.
  - refine (IH _ _ _ H); exact Hc2.
Qed.

End AnySolver.

(** X17: whatever the solver answers, on a simple graph with an edge a
    circuit returned by the entry point holds one Hadamard per node
    followed by exactly one CZ per edge of the graph, and the result
    reports these counts: a wrong solver can spoil the depth, never the
    gates of the circuit. *)
Theorem returned_circuit_has_every_edge draw s check adj sb fuel t0 t1 c lin
        c' res :
  simple_graph adj -> all_zero adj = false ->
  extract_adjacency_matrix (name c) = adj ->
  synthesize draw s check fuel t0 t1 c sb lin = Ok (c', res) ->
  exists gs,
    data c' = map h_gate (seq 0 (length adj)) ++ gs
    /\ Permutation gs (layer_gates (edge_list adj))
    /\ single_qubit_gates res = Z.of_nat (length adj)
    /\ two_qubit_gates res = Z.of_nat (length (edge_list adj)).
Proof.
  intros Hs Hz Ex H.
  pose proof (edge_list_nodes adj (all_zero_false_edges adj Hs Hz)) as Hn.
  assert (Hmp : exists d,
             truthy (answer s check adj sb d) = true
             /\ _map_synthesis_depth_optimal_mapping_to_qcircuit
                  (Dict (answer s check adj sb d)) adj = Ok c'
             /\ single_qubit_gates res = count_single_qubit_gates c'
             /\ two_qubit_gates res = count_two_qubit_gates c').
  { unfold synthesize in H. rewrite Ex, Hz in H. destruct lin.
    - unfold _linear_search in H.
      destruct (linear_search_run s check adj sb) as [st| |] eqn:Er;
        try discriminate.
      cbn [bind] in H. unfold linear_search_run in Er.
      destruct (minimum_depth s adj) as [lo| |]; try discriminate.
      cbn [bind] in Er.
      destruct (linear_loop_result s check adj sb Hs Hn _ _ _ Er)
        as [E|(d & E & Ht)]; cbn [l_mapping] in E; rewrite E in H.
      + rewrite materializer_list in H.
        destruct (0 <? length adj); discriminate.
      + exists d. split; [exact Ht|].
        destruct (_map_synthesis_depth_optimal_mapping_to_qcircuit _ adj)
          as [c1| |]; try discriminate.
        cbn [bind] in H. injection H as <- <-. cbn. auto.
    - unfold _binary_search in H.
      destruct (binary_search_run s check adj sb fuel) as [st| |] eqn:Er;
        try discriminate.
      cbn [bind] in H. unfold binary_search_run in Er.
      destruct (minimum_depth s adj) as [lo| |]; try discriminate.
      cbn [bind] in Er.
      assert (Hempty : consistent s check adj sb [])
        by (intros d mp E; discriminate).
      destruct (binary_loop_result s check adj sb Hs Hn fuel
                  {| b_left := lo; b_right := Z.of_nat (length adj);
                     b_cache := []; b_mapping := []; b_current := 0%Z;
                     b_solver_calls := 0%Z; b_probed := [] |}
                  st Hempty Er) as [E Ht].
      exists (b_current st). rewrite E in Ht, H. split; [exact Ht|].
      destruct (_map_synthesis_depth_optimal_mapping_to_qcircuit _ adj)
        as [c1| |]; try discriminate.
      cbn [bind] in H. injection H as <- <-. cbn. auto. }
  destruct Hmp as (d & Ht & Ec' & H1 & H2).
  destruct (materializer_returned _ _ _ Ec') as (_ & _ & Hdata).
  rewrite flat_map_layer_gates in Hdata.
  destruct (count_gates_materialized c' _ _ Hdata) as [S1 S2].
  destruct (answer_layers s check adj sb Hs Hn d Ht) as [_ Hperm].
  exists (layer_gates (concat (map snd (answer s check adj sb d)))).
  split; [exact Hdata|].
  split; [unfold layer_gates; now apply Permutation_map|].
  split; [congruence|]. rewrite H2, S2. f_equal.
  now apply Permutation_length.
Qed.

Lemma returned_circuit_has_every_edge_witness :
  exists gs,
    data {| num_qubits := 2;
            name := "Depth optimal circuit of Graphstate g: [[0, 1], [1, 0]]";
            data := [h_gate 0; h_gate 1; cz_gate 1 0] |}
    = map h_gate (seq 0 (length two_nodes)) ++ gs
    /\ Permutation gs (layer_gates (edge_list two_nodes))
    /\ single_qubit_gates
         {| circuit := "Depth optimal circuit of Graphstate g: [[0, 1], [1, 0]]";
            depth := 0%Z; gates := 3%Z; runtime := 1%Z;
            single_qubit_gates := 2%Z; solver_calls := 1%Z;
            tableau := "Not available yet"; two_qubit_gates := 1%Z;
            _is_sat := true |}
       = Z.of_nat (length two_nodes)
    /\ two_qubit_gates
         {| circuit := "Depth optimal circuit of Graphstate g: [[0, 1], [1, 0]]";
            depth := 0%Z; gates := 3%Z; runtime := 1%Z;
            single_qubit_gates := 2%Z; solver_calls := 1%Z;
            tableau := "Not available yet"; two_qubit_gates := 1%Z;
            _is_sat := true |}
       = Z.of_nat (length (edge_list two_nodes)).
Proof.
  apply (returned_circuit_has_every_edge draw_name DirectScheduling
           (fun _ => Some (fun _ => 0%Z)) two_nodes false 3 0 1
           two_nodes_circuit true);
    reflexivity.
Defined.
